(** * Reverse-mode gradients over the tile AST: tile/lang/ast/gradient.cc

    A shallow embedding of [ComputeUses], [Gradient] and [ComputeGradients].
    Expressions live in a heap and are named by their address, so that two
    pointers are the same object exactly when the addresses are equal; the
    [std::shared_ptr]s of the source become addresses, a null pointer becomes
    [None].  Exceptions, undefined behaviour (a null or dangling dereference,
    an index past the end of a vector) and running out of recursion budget
    are the three ways a computation does not return. *)

From stdpp Require Import base gmap list strings.
From Stdlib Require Import Floats ZArith.

Local Open Scope string_scope.
Local Open Scope list_scope.
Local Open Scope stdpp_scope.
Local Open Scope nat_scope.

(** ** Results *)

Inductive Exn :=
| runtime_error (what : string)
| logic_error (what : string)
| out_of_range.

Inductive Result (A : Type) :=
| Ok (a : A)
| Throw (e : Exn)
| Undefined
| OutOfFuel.
Arguments Ok {A} a.
Arguments Throw {A} e.
Arguments Undefined {A}.
Arguments OutOfFuel {A}.

(** State passing with failure: the heap (and, for [Gradient], the cache)
    is threaded through every call. *)
Definition M (S A : Type) : Type := S -> Result (A * S).

Definition ret {S A} (a : A) : M S A := fun s => Ok (a, s).

Definition bind {S A B} (m : M S A) (k : A -> M S B) : M S B :=
  fun s =>
    match m s with
    | Ok (a, s') => k a s'
    | Throw e => Throw e
    | Undefined => Undefined
    | OutOfFuel => OutOfFuel
    end.

Definition throw {S A} (e : Exn) : M S A := fun _ => Throw e.
Definition undefined {S A} : M S A := fun _ => Undefined.

Notation "'let*' x ':=' m 'in' k" := (bind m (fun x => k))
  (at level 10, x name, m at level 100, k at level 200).

(** ** The AST (tile/lang/ast/ast.h is not among the sources) *)

Abbreviation ExprPtr := nat.

(** Modelled from the spec: a symbolic dimension size; the declaration of
    [DimExpr] is missing. *)
Inductive DimExpr :=
| DimExprInt (value : Z)
| DimExprSym (id : nat).

(** Modelled from the spec: a polynomial index expression; the declaration
    of [PolyExpr] is missing.  [PolyIndex] is the constructor the source
    calls. *)
Inductive PolyExpr :=
| PolyIndex (idx_id : nat)
| PolyLiteral (value : Z)
| PolyAdd (lhs rhs : PolyExpr)
| PolyMul (lhs rhs : PolyExpr).

(** Modelled from the spec: an index constraint; the declaration of
    [ConstraintExpr] is missing. *)
Record ConstraintExpr := { lhs : PolyExpr; rhs : DimExpr }.

(** Modelled from the spec: one dimension size of a shape; the declaration
    of [LogicalDim] is missing. *)
Record LogicalDim := { size : DimExpr }.

(** Modelled from the spec: "an ordered sequence of dimension sizes plus a
    layout tag"; the declaration of [LogicalShape] is missing. *)
Record LogicalShape := { layout : string; dims : list LogicalDim }.

Definition dims_as_exprs (s : LogicalShape) : list DimExpr := map size (dims s).

(** Modelled from the spec: the shape a literal constant carries, a scalar
    of rank zero; the constructors of [FloatConst] and [IntConst] are
    missing. *)
Definition scalar_shape : LogicalShape := {| layout := ""; dims := [] |}.

(** The enumerations: the values the source names, and [other] for any
    value the source leaves to its final [throw] or [default:]. *)
Module AggregationOp.
Inductive t := SUM | ASSIGN | MIN | MAX | PROD | other (code : Z).
#[global] Instance eq_dec : EqDecision t.
Proof. solve_decision. Defined.
End AggregationOp.

Module CombinationOp.
Inductive t := NONE | MULTIPLY | PLUS | COND | EQ | other (code : Z).
#[global] Instance eq_dec : EqDecision t.
Proof. solve_decision. Defined.
End CombinationOp.

(** [TensorSpecExpr(ref, index_spec)] for an input, and
    [TensorSpecExpr(index_spec, output_dims)] for an output, which refers
    to no expression. *)
Record TensorSpecExpr := {
  ref : option ExprPtr;
  index_spec : list PolyExpr;
  output_dims : list DimExpr
}.

Definition TensorSpecExpr_in (r : ExprPtr) (idxs : list PolyExpr) : TensorSpecExpr :=
  {| ref := Some r; index_spec := idxs; output_dims := [] |}.

Definition TensorSpecExpr_out (idxs : list PolyExpr) (sizes : list DimExpr) : TensorSpecExpr :=
  {| ref := None; index_spec := idxs; output_dims := sizes |}.

Record ContractionExpr := {
  agg_op : AggregationOp.t;
  combo_op : CombinationOp.t;
  inputs : list TensorSpecExpr;
  output : TensorSpecExpr;
  constraints : list ConstraintExpr;
  use_default : option ExprPtr
}.

Record CallExpr := { fn : string; args : list ExprPtr }.

Inductive ExprNode :=
| Call (c : CallExpr)
| Contraction (c : ContractionExpr)
| DimExprExpr (d : DimExpr)
| FloatConst (value : float)
| IntConst (value : Z)
| ParamExpr (name : string).

Record Expr := { node : ExprNode; shape : LogicalShape }.

(** The heap: the address of an expression is its position; [make_shared]
    appends, nothing is ever overwritten or freed. *)
Abbreviation Heap := (list Expr).

Definition make_shared (e : Expr) : M Heap ExprPtr :=
  fun h => Ok (length h, h ++ [e]).

(** ** ComputeUses *)

Record UseInfo := { expr : ExprPtr; idx : nat }.

(** The operands of a node in the order [Visit] pushes them: the arguments
    of a call; the [ref] of each input of a contraction, then its default
    when it has one. *)
Definition operand_refs (n : ExprNode) : list (option ExprPtr) :=
  match n with
  | Call c => Some <$> args c
  | Contraction c =>
      (ref <$> inputs c) ++ (match use_default c with Some d => [Some d] | None => [] end)
  | DimExprExpr _ | FloatConst _ | IntConst _ | ParamExpr _ => []
  end.

Module ComputeUses.

Record t := {
  stack_ : list ExprPtr;
  seen_ : gset nat;
  uses_ : gmap nat (list UseInfo)
}.

(** [uses_[used].emplace_back(UseInfo{user, idx}); stack_.push(used);] *)
Definition Push (user used : ExprPtr) (i : nat) (s : t) : t :=
  {| stack_ := used :: stack_ s;
     seen_ := seen_ s;
     uses_ := <[used := default [] (uses_ s !! used) ++ [{| expr := user; idx := i |}]]>
                (uses_ s) |}.

(** [Visit(const CallExpr&)]: the loop over the arguments, from position [i]. *)
Fixpoint Visit_args (user : ExprPtr) (i : nat) (rest : list ExprPtr) (s : t) : t :=
  match rest with
  | [] => s
  | a :: rest' => Visit_args user (S i) rest' (Push user a i s)
  end.

(** [Visit(const ContractionExpr&)]: the loop over the inputs.  A null
    [ref] would be pushed and dereferenced when popped; the traversal
    drains the stack before it returns, so it is undefined either way. *)
Fixpoint Visit_inputs (user : ExprPtr) (i : nat) (rest : list TensorSpecExpr) (s : t)
    : Result t :=
  match rest with
  | [] => Ok s
  | input :: rest' =>
      match ref input with
      | None => Undefined
      | Some r => Visit_inputs user (S i) rest' (Push user r i s)
      end
  end.

(** [expr->Accept(this)] *)
Definition Visit (user : ExprPtr) (n : ExprNode) (s : t) : Result t :=
  match n with
  | Call c => Ok (Visit_args user 0 (args c) s)
  | Contraction c =>
      match Visit_inputs user 0 (inputs c) s with
      | Ok s' =>
          match use_default c with
          | Some d => Ok (Push user d (length (inputs c)) s')
          | None => Ok s'
          end
      | r => r
      end
  | DimExprExpr _ | FloatConst _ | IntConst _ | ParamExpr _ => Ok s
  end.

(** The [while (stack_.size())] loop of the constructor. *)
Fixpoint run (h : Heap) (fuel : nat) (s : t) : Result t :=
  match stack_ s with
  | [] => Ok s
  | e :: rest =>
      match fuel with
      | 0 => OutOfFuel
      | S fuel' =>
          let s1 := {| stack_ := rest; seen_ := seen_ s; uses_ := uses_ s |} in
          if decide (e ∈ seen_ s) then run h fuel' s1
          else
            match h !! e with
            | None => Undefined
            | Some n =>
                match Visit e (node n)
                        {| stack_ := rest; seen_ := {[e]} ∪ seen_ s; uses_ := uses_ s |} with
                | Ok s2 => run h fuel' s2
                | r => r
                end
            end
      end
  end.

(** How many operands [Visit] pushes for a node. *)
Definition operands (n : ExprNode) : nat := length (operand_refs n).

(** Every iteration pops one entry, and an entry is pushed only when a node
    is visited for the first time: one entry for the root and one per
    operand of each node bounds the number of iterations. *)
Definition iterations (h : Heap) : nat :=
  S (sum_list ((fun e => operands (node e)) <$> h)).

(** [explicit ComputeUses(const ExprPtr& src)] *)
Definition make (h : Heap) (src : ExprPtr) : Result t :=
  run h (iterations h) {| stack_ := [src]; seen_ := ∅; uses_ := ∅ |}.

(** [uses(expr)] is [uses_.at(expr)], which throws [std::out_of_range]
    when [expr] has no entry. *)
Definition uses (u : t) (e : ExprPtr) : Result (list UseInfo) :=
  match uses_ u !! e with
  | Some l => Ok l
  | None => Throw out_of_range
  end.

End ComputeUses.

(** ** External collaborators *)

(** Shape inference: [CallExpr::ComputeShape] and
    [ContractionExpr::ComputeShape(layout)], which read the shapes of the
    operands and may throw. *)
Class ShapeInference := {
  CallExpr_ComputeShape : Heap -> CallExpr -> Result LogicalShape;
  ContractionExpr_ComputeShape : Heap -> ContractionExpr -> string -> Result LogicalShape
}.

(** A registered derivative, with its user function and context captured:
    from the call, [dout] and the arguments to one gradient per argument. *)
Definition ExprDeriv := ExprPtr -> ExprPtr -> list ExprPtr -> M Heap (list ExprPtr).

Class DerivRegistry := {
  Resolve : string -> Result ExprDeriv
}.

Definition run_pure {S A} (r : Result A) : M S A :=
  fun s =>
    match r with
    | Ok a => Ok (a, s)
    | Throw e => Throw e
    | Undefined => Undefined
    | OutOfFuel => OutOfFuel
    end.

Section Gradient.
Context `{ShapeInference} `{DerivRegistry}.

(** Modelled from the spec: [MakeCall] (defined outside gradient.cc) builds
    "a named operation applied to an ordered sequence of argument
    expressions" and has its shape inferred. *)
Definition MakeCall (f : string) (a : list ExprPtr) : M Heap ExprPtr :=
  fun h =>
    let c := {| fn := f; args := a |} in
    (let* sh := run_pure (CallExpr_ComputeShape h c) in
     make_shared {| node := Call c; shape := sh |}) h.

(** [dop->ComputeShape(layout); return dop;] *)
Definition finish_contraction (dop : ContractionExpr) (lay : string) : M Heap ExprPtr :=
  fun h =>
    (let* sh := run_pure (ContractionExpr_ComputeShape h dop lay) in
     make_shared {| node := Contraction dop; shape := sh |}) h.

(** [input->ref->shape]: undefined on a null or dangling [ref]. *)
Definition ref_shape (input : TensorSpecExpr) : M Heap LogicalShape :=
  fun h =>
    match ref input with
    | None => Undefined
    | Some r =>
        match h !! r with
        | None => Undefined
        | Some e => Ok (shape e, h)
        end
    end.

(** ** Gradient::DefaultOp *)
Definition DefaultOp (dout : ExprPtr) (op : ContractionExpr) : M Heap ExprPtr :=
  ret dout.

(** ** Gradient::SumOp *)

(** The [for] loop of [SumOp], from position [i] over the inputs that
    remain; [acc] is [(dop->inputs, dop->combo_op)]. *)
Fixpoint SumOp_loop (op : ContractionExpr) (dout : ExprPtr) (idx i : nat)
    (rest : list TensorSpecExpr) (acc : list TensorSpecExpr * CombinationOp.t)
    : Result (list TensorSpecExpr * CombinationOp.t) :=
  match rest with
  | [] => Ok acc
  | input :: rest' =>
      if decide (idx = i) then
        SumOp_loop op dout idx (S i) rest'
          (acc.1 ++ [TensorSpecExpr_in dout (index_spec (output op))], acc.2)
      else
        match combo_op op with
        | CombinationOp.MULTIPLY =>
            SumOp_loop op dout idx (S i) rest' (acc.1 ++ [input], CombinationOp.MULTIPLY)
        | CombinationOp.PLUS =>
            SumOp_loop op dout idx (S i) rest' (acc.1, CombinationOp.NONE)
        | CombinationOp.COND =>
            Throw (runtime_error "Gradient of sum of conditionals not supported")
        | CombinationOp.NONE =>
            Throw (runtime_error
              "Unexpected multiple inputs found when differentiating contraction with NONE combination op")
        | CombinationOp.EQ =>
            Throw (runtime_error "Gradient of sum of equalities not supported")
        | CombinationOp.other _ =>
            Throw (runtime_error "Failed to recognize combination op during differentiation")
        end
  end.

Definition SumOp (dout : ExprPtr) (op : ContractionExpr) (idx : nat) : M Heap ExprPtr :=
  if decide (idx = length (inputs op)) then
    throw (logic_error "A default tensor fell through to the SumOp case during Gradient")
  else
    let* acc := run_pure (SumOp_loop op dout idx 0 (inputs op) ([], CombinationOp.NONE)) in
    match inputs op !! idx with
    | None => undefined
    | Some input =>
        let* sh := ref_shape input in
        finish_contraction
          {| agg_op := AggregationOp.SUM;
             combo_op := acc.2;
             inputs := acc.1;
             output := TensorSpecExpr_out (index_spec input) (dims_as_exprs sh);
             constraints := constraints op;
             use_default := None |}
          (layout sh)
    end.

(** ** Gradient::ExtremeOp

    [op] is a [shared_ptr<ContractionExpr>]: the address [op_ptr] and the
    contraction [op] found there. *)
Definition ExtremeOp (dout : ExprPtr) (op_ptr : ExprPtr) (op : ContractionExpr) (idx : nat)
    : M Heap ExprPtr :=
  match inputs op !! 0 with
  | None => undefined
  | Some input =>
      let* sh := ref_shape input in
      finish_contraction
        {| agg_op := AggregationOp.SUM;
           combo_op := CombinationOp.COND;
           inputs := [input;
                      TensorSpecExpr_in op_ptr (index_spec (output op));
                      TensorSpecExpr_in dout (index_spec (output op))];
           output := TensorSpecExpr_out (index_spec input) (dims_as_exprs sh);
           constraints := constraints op;
           use_default := None |}
        (layout sh)
  end.

(** ** Gradient::ContractionOp *)
Definition ContractionOp (dout : ExprPtr) (expr_ptr : ExprPtr) (e : ContractionExpr) (idx : nat)
    : M Heap ExprPtr :=
  if bool_decide (is_Some (use_default e) ∧ idx = length (inputs e)) then
    DefaultOp dout e
  else if bool_decide (combo_op e = CombinationOp.EQ) then
    make_shared {| node := IntConst 0; shape := scalar_shape |}
  else
    match agg_op e with
    | AggregationOp.SUM | AggregationOp.ASSIGN => SumOp dout e idx
    | AggregationOp.MIN | AggregationOp.MAX => ExtremeOp dout expr_ptr e idx
    | AggregationOp.PROD =>
        throw (runtime_error "PROD AggregationOp does not support differentiation")
    | AggregationOp.other _ =>
        throw (runtime_error "Invalid ContractionExpr in ContractionOp")
    end.

(** ** Gradient::CallOp *)
Definition CallOp (dout : ExprPtr) (op_ptr : ExprPtr) (op : CallExpr) (idx : nat)
    : M Heap ExprPtr :=
  if decide (fn op = "tuple") then
    throw (runtime_error "Not implemented: tuple in CallOp")
  else if decide (fn op = "element") then
    throw (runtime_error "Not implemented: element in CallOp")
  else if decide (fn op = "reshape") then
    throw (runtime_error "Not implemented: reshape in CallOp")
  else
    let* deriv := run_pure (Resolve (fn op)) in
    let* grads := deriv op_ptr dout (args op) in
    match grads !! idx with
    | Some g => ret g
    | None => undefined
    end.

(** ** Gradient::GetDerivative

    The mutable part of a [Gradient], with the heap: [uses_] is fixed by
    the constructor and is passed along unchanged. *)
Record State := { heap : Heap; seen_ : gmap nat ExprPtr }.

Definition on_heap {A} (m : M Heap A) : M State A :=
  fun st =>
    match m (heap st) with
    | Ok (a, h') => Ok (a, {| heap := h'; seen_ := seen_ st |})
    | Throw e => Throw e
    | Undefined => Undefined
    | OutOfFuel => OutOfFuel
    end.

(** The body of the [for] loop up to [dop]: lines 88-96. *)
Definition use_dop (GetDerivative : ExprPtr -> M State ExprPtr) (use : UseInfo)
    : M State ExprPtr :=
  let* dout := GetDerivative (expr use) in
  on_heap (fun h =>
    match h !! expr use with
    | None => Undefined
    | Some e =>
        match node e with
        | Call call_expr => CallOp dout (expr use) call_expr (idx use) h
        | Contraction cion_expr => ContractionOp dout (expr use) cion_expr (idx use) h
        | _ => Throw (runtime_error "Invalid operation type in Gradient::GetDerivative")
        end
    end).

(** One iteration of the [for] loop: lines 88-101. *)
Definition iteration (GetDerivative : ExprPtr -> M State ExprPtr)
    (use : UseInfo) (total : option ExprPtr) : M State ExprPtr :=
  let* dop := use_dop GetDerivative use in
  match total with
  | None => ret dop
  | Some t => on_heap (MakeCall "add" [t; dop])
  end.

(** The [for] loop over the uses; [total] starts out null. *)
Fixpoint accumulate (GetDerivative : ExprPtr -> M State ExprPtr)
    (rest : list UseInfo) (total : option ExprPtr) : M State (option ExprPtr) :=
  match rest with
  | [] => ret total
  | use :: rest' =>
      let* total' := iteration GetDerivative use total in
      accumulate GetDerivative rest' (Some total')
  end.

(** Lines 103-107. *)
Definition finish_total (total : option ExprPtr) (e : ExprPtr) : M Heap ExprPtr :=
  match total with
  | None => make_shared {| node := FloatConst 0; shape := scalar_shape |}
  | Some t =>
      fun h =>
        match h !! t with
        | None => Undefined
        | Some te =>
            if decide (length (dims (shape te)) = 0) then Ok (t, h)
            else MakeCall "simple_reduce" [t; e] h
        end
  end.

(** [seen_.emplace(key, value)]: no effect when the key is present. *)
Definition emplace (key value : ExprPtr) : M State unit :=
  fun st =>
    match seen_ st !! key with
    | Some _ => Ok (tt, st)
    | None => Ok (tt, {| heap := heap st; seen_ := <[key := value]> (seen_ st) |})
    end.

Definition GetDerivative_body (uses_ : ComputeUses.t)
    (GetDerivative : ExprPtr -> M State ExprPtr) (e : ExprPtr) : M State ExprPtr :=
  fun st =>
    match seen_ st !! e with
    | Some d => Ok (d, st)
    | None =>
        (let* us := run_pure (ComputeUses.uses uses_ e) in
         let* total := accumulate GetDerivative us None in
         let* total' := on_heap (finish_total total e) in
         let* _ := emplace e total' in
         ret total') st
    end.

(** The recursion of [GetDerivative] follows the use graph; [fuel] bounds
    its depth. *)
Fixpoint GetDerivative (uses_ : ComputeUses.t) (fuel : nat) (e : ExprPtr) : M State ExprPtr :=
  match fuel with
  | 0 => fun _ => OutOfFuel
  | S fuel' => GetDerivative_body uses_ (GetDerivative uses_ fuel') e
  end.

(** [explicit Gradient(const ExprPtr& err)] *)
Definition Gradient_new (err : ExprPtr) (h : Heap) : Result (ComputeUses.t * State) :=
  match ComputeUses.make h err with
  | Ok u =>
      Ok (u, {| heap := h ++ [{| node := FloatConst 1; shape := scalar_shape |}];
                seen_ := <[err := length h]> ∅ |})
  | Throw e => Throw e
  | Undefined => Undefined
  | OutOfFuel => OutOfFuel
  end.

(** ** ComputeGradients *)

(** Lines 252-266: the seed [value]. *)
Definition loss_value (loss : ExprPtr) : M Heap ExprPtr :=
  fun h =>
    match h !! loss with
    | None => Undefined
    | Some l =>
        let ndims := length (dims (shape l)) in
        if decide (ndims = 0) then Ok (loss, h)
        else
          finish_contraction
            {| agg_op := AggregationOp.SUM;
               combo_op := CombinationOp.NONE;
               inputs := [TensorSpecExpr_in loss (PolyIndex <$> seq 0 ndims)];
               output := TensorSpecExpr_out [] [];
               constraints := [];
               use_default := None |}
            "" h
    end.

(** The loop over [wrts]. *)
Fixpoint derivatives (uses_ : ComputeUses.t) (fuel : nat) (wrts : list ExprPtr)
    : M State (list ExprPtr) :=
  match wrts with
  | [] => ret []
  | w :: wrts' =>
      let* d := GetDerivative uses_ fuel w in
      let* ds := derivatives uses_ fuel wrts' in
      ret (d :: ds)
  end.

Definition ComputeGradients (fuel : nat) (wrts : list ExprPtr) (loss : ExprPtr)
    : M Heap (list ExprPtr) :=
  let* value := loss_value loss in
  fun h =>
    match Gradient_new value h with
    | Ok (u, st) =>
        match derivatives u fuel wrts st with
        | Ok (ret, st') => Ok (ret, heap st')
        | Throw e => Throw e
        | Undefined => Undefined
        | OutOfFuel => OutOfFuel
        end
    | Throw e => Throw e
    | Undefined => Undefined
    | OutOfFuel => OutOfFuel
    end.

End Gradient.

(** ** Concrete collaborators and graphs, used to run the definitions *)

Module Examples.

(** A shape inference to run the definitions with: a call takes the shape
    of its first argument, a contraction the sizes of its output and the
    layout it is given. *)
#[export] Instance shapes : ShapeInference := {|
  CallExpr_ComputeShape h c :=
    match args c with
    | a :: _ => match h !! a with Some e => Ok (shape e) | None => Undefined end
    | [] => Ok scalar_shape
    end;
  ContractionExpr_ComputeShape h c lay :=
    Ok {| layout := lay; dims := (fun d => {| size := d |}) <$> output_dims (output c) |}
|}.

(** A registry that knows ["add"]: both arguments receive [dout]. *)
#[export] Instance registry : DerivRegistry := {|
  Resolve f :=
    if decide (f = "add") then Ok (fun _ dout _ => ret [dout; dout])
    else Throw (runtime_error "Invalid derivative: Unknown function")
|}.

Definition scalar (n : ExprNode) : Expr := {| node := n; shape := scalar_shape |}.

Definition vector (n : ExprNode) (len : Z) : Expr :=
  {| node := n; shape := {| layout := ""; dims := [{| size := DimExprInt len |}] |} |}.

Definition i0 : list PolyExpr := [PolyIndex 0].

(** [O[] = agg(A[i] combo B[i])] over two vector parameters at 0 and 1. *)
Definition binary (agg : AggregationOp.t) (combo : CombinationOp.t) : ContractionExpr :=
  {| agg_op := agg; combo_op := combo;
     inputs := [TensorSpecExpr_in 0 i0; TensorSpecExpr_in 1 i0];
     output := TensorSpecExpr_out [] [];
     constraints := [{| lhs := PolyIndex 0; rhs := DimExprInt 3 |}];
     use_default := None |}.

(** [O[] = agg(A[i])] over the vector parameter at 0, with combination
    [combo] and, when [d] is given, a default. *)
Definition unary (agg : AggregationOp.t) (combo : CombinationOp.t) (d : option ExprPtr)
    : ContractionExpr :=
  {| agg_op := agg; combo_op := combo;
     inputs := [TensorSpecExpr_in 0 i0];
     output := TensorSpecExpr_out [] [];
     constraints := [];
     use_default := d |}.

(** Two vector parameters [A], [B], and the contraction [c] at address 2. *)
Definition graph (c : ContractionExpr) : Heap :=
  [vector (ParamExpr "A") 3; vector (ParamExpr "B") 3; scalar (Contraction c)].

(** The same graph once the constructor of [Gradient] has run on [c]: the
    constant 1.0, the gradient of [c], is at address 3. *)
Definition seeded (c : ContractionExpr) : Heap :=
  graph c ++ [scalar (FloatConst 1)].

(** [y = add(x, x)] with the scalar parameter [x] at 0 and [y] at 1, and an
    unrelated scalar parameter [z] at 2. *)
Definition add_x_x : Heap :=
  [scalar (ParamExpr "x");
   scalar (Call {| fn := "add"; args := [0; 0] |});
   scalar (ParamExpr "z")].

(** What the constructor of [ComputeUses] records for [src] in [h]. *)
Definition uses_of (h : Heap) (src : ExprPtr) : ComputeUses.t :=
  match ComputeUses.make h src with
  | Ok u => u
  | _ => {| ComputeUses.stack_ := []; ComputeUses.seen_ := ∅; ComputeUses.uses_ := ∅ |}
  end.

(** The state after [GetDerivative(x)] in [y = add(x, x)] seeded with [y]:
    the constant 1.0 at 3, [add(1.0, 1.0)] at 4, and both [y] and [x] in the
    cache. *)
Definition add_x_x_done : State :=
  {| heap := add_x_x ++ [scalar (FloatConst 1);
                         scalar (Call {| fn := "add"; args := [3; 3] |})];
     seen_ := <[0 := 4]> (<[1 := 3]> ∅) |}.

End Examples.

(** * Vocabulary of the statements *)

(** [(use_default, idx)] names the default slot. *)
Definition default_slot (e : ContractionExpr) (idx : nat) : Prop :=
  is_Some (use_default e) ∧ idx = length (inputs e).

(** What [dout] looks like as an input: indexed like the forward output. *)
Definition dout_spec (dout : ExprPtr) (op : ContractionExpr) : TensorSpecExpr :=
  TensorSpecExpr_in dout (index_spec (output op)).

(** Some position of [rest], which starts at [i], is not [idx]. *)
Definition has_other (idx i : nat) (rest : list TensorSpecExpr) : Prop :=
  ∃ j, j < length rest ∧ i + j ≠ idx.

(** The contraction [SumOp] and [ExtremeOp] return: SUM aggregation, the
    constraints of [op], no default, and the output indexed like [input]
    with the sizes of the expression [re] that [input] refers to. *)
Definition transposed (combo : CombinationOp.t) (ins : list TensorSpecExpr)
    (op : ContractionExpr) (input : TensorSpecExpr) (re : Expr) : ContractionExpr :=
  {| agg_op := AggregationOp.SUM;
     combo_op := combo;
     inputs := ins;
     output := TensorSpecExpr_out (index_spec input) (dims_as_exprs (shape re));
     constraints := constraints op;
     use_default := None |}.

(** A heap is closed when every operand of every node is the address of a
    node of the heap (in particular, no input has a null [ref]). *)
Definition node_ok (bound : nat) (n : ExprNode) : bool :=
  forallb (fun o => match o with Some r => r <? bound | None => false end) (operand_refs n).

Definition closed (h : Heap) : Prop :=
  forallb (fun e => node_ok (length h) (node e)) h = true.

(** [used] is an operand of the node at [user]. *)
Definition operand (h : Heap) (user used : ExprPtr) : Prop :=
  ∃ e, h !! user = Some e ∧ Some used ∈ operand_refs (node e).

(** [t] is in the dependency graph of [src]: [src] itself, or an operand
    of a node that is. *)
Definition reachable (h : Heap) (src t : ExprPtr) : Prop := rtc (operand h) src t.

(** The operands still to be pushed: those of the nodes of [h], which
    starts at address [k], that are not in [seen]. *)
Fixpoint pending (k : nat) (h : Heap) (seen : gset nat) : nat :=
  match h with
  | [] => 0
  | x :: h' =>
      (if decide (k ∈ seen) then 0 else ComputeUses.operands (node x)) + pending (S k) h' seen
  end.

(** What holds of the traversal at every iteration: the stack holds
    addresses reachable from [src], and every recorded use [(user, idx)]
    of [t] is non-empty and names a reachable [user] that has [t] as an
    operand. *)
Definition uses_sound (h : Heap) (src : ExprPtr) (s : ComputeUses.t) : Prop :=
  (∀ e, e ∈ ComputeUses.stack_ s → reachable h src e) ∧
  (∀ t l, ComputeUses.uses_ s !! t = Some l →
     l ≠ [] ∧ ∀ use, use ∈ l → reachable h src (expr use) ∧ operand h (expr use) t).

(** The effect of pushes on the stack and on the set of visited nodes. *)
Definition grows (s s' : ComputeUses.t) (pushed : list ExprPtr) : Prop :=
  ComputeUses.seen_ s' = ComputeUses.seen_ s ∧
  ComputeUses.stack_ s' = rev pushed ++ ComputeUses.stack_ s.

(** The users of [e]: the consumers [uses_] records for it. *)
Definition users (u : ComputeUses.t) (e : ExprPtr) : list ExprPtr :=
  expr <$> default [] (ComputeUses.uses_ u !! e).

(** [t] is reached from [e] along recorded uses through nodes that are all
    outside the cache [seen], [e] and [t] included. *)
Inductive upath (u : ComputeUses.t) (seen : gmap nat ExprPtr) : ExprPtr -> ExprPtr -> Prop :=
| upath_refl e : seen !! e = None -> upath u seen e e
| upath_step e v t :
    seen !! e = None -> v ∈ users u e -> upath u seen v t -> upath u seen e t.

(** A heap is ordered when every operand of a node has a smaller address
    than the node: the expression was built from its operands. *)
Definition ordered (h : Heap) : Prop :=
  ∀ i e, h !! i = Some e → node_ok i (node e) = true.

(** Every recorded user of a node has a larger address, below [bound]. *)
Definition ascending (u : ComputeUses.t) (bound : nat) : Prop :=
  ∀ t l use, ComputeUses.uses_ u !! t = Some l → use ∈ l → t < expr use < bound.

(** The full reduction [ComputeGradients] wraps around a loss of rank
    [ndims]: one index variable per dimension on the input, none on the
    output. *)
Definition full_reduction (loss : ExprPtr) (ndims : nat) : ContractionExpr :=
  {| agg_op := AggregationOp.SUM;
     combo_op := CombinationOp.NONE;
     inputs := [TensorSpecExpr_in loss (PolyIndex <$> seq 0 ndims)];
     output := TensorSpecExpr_out [] [];
     constraints := [];
     use_default := None |}.

(** The literal constants [FloatConst(1.0)] and [FloatConst(0.0)]. *)
Definition one : Expr := {| node := FloatConst 1; shape := scalar_shape |}.
Definition zero : Expr := {| node := FloatConst 0; shape := scalar_shape |}.

(** The state the constructor of [Gradient] leaves: the constant 1.0
    appended to the heap, and the cache holding it for [seed] only. *)
Definition seeded_state (seed : ExprPtr) (h : Heap) : State :=
  {| heap := h ++ [one]; seen_ := <[seed := length h]> ∅ |}.

Section Rule.
Context `{ShapeInference} `{DerivRegistry}.

(** The rules of the registry only allocate: the heap they return extends
    the heap they were given ("the engine must never mutate an existing
    expression"). *)
Definition registry_extends : Prop :=
  ∀ f d op dout a h gs h',
    Resolve f = Ok d → d op dout a h = Ok (gs, h') → h `prefix_of` h'.

(** The rule of the propagator as the specification words it, to compare
    [GetDerivative] with: the sum of the local contributions of the uses, in
    order, each after the first joined to the sum so far by a call of
    ["add"]. *)
Fixpoint add_contributions (GD : ExprPtr -> M State ExprPtr) (sum : ExprPtr)
    (rest : list UseInfo) : M State ExprPtr :=
  match rest with
  | [] => ret sum
  | use :: rest' =>
      let* d := use_dop GD use in
      let* sum' := on_heap (MakeCall "add" [sum; d]) in
      add_contributions GD sum' rest'
  end.

(** ... reduced by ["simple_reduce"] to the node when the sum has nonzero
    rank; the zero constant when there is no use. *)
Definition accumulated_gradient (GD : ExprPtr -> M State ExprPtr) (n : ExprPtr)
    (us : list UseInfo) : M State ExprPtr :=
  match us with
  | [] => on_heap (make_shared zero)
  | use :: rest =>
      let* first := use_dop GD use in
      let* total := add_contributions GD first rest in
      on_heap (fun h =>
        match h !! total with
        | None => Undefined
        | Some te =>
            if decide (length (dims (shape te)) = 0) then Ok (total, h)
            else MakeCall "simple_reduce" [total; n] h
        end)
  end.

(** ... and memoized under the node before it is returned. *)
Definition GetDerivative_rule (GD : ExprPtr -> M State ExprPtr) (n : ExprPtr)
    (us : list UseInfo) : M State ExprPtr :=
  let* r := accumulated_gradient GD n us in
  let* _ := emplace n r in
  ret r.

(** The collaborators are total: they return, throw or are undefined, and
    never exhaust a recursion budget (which only [GetDerivative] has). *)
Definition never_starves : Prop :=
  (∀ h c, CallExpr_ComputeShape h c ≠ OutOfFuel) ∧
  (∀ h c lay, ContractionExpr_ComputeShape h c lay ≠ OutOfFuel) ∧
  (∀ f, Resolve f ≠ OutOfFuel) ∧
  (∀ f d op dout a h, Resolve f = Ok d → d op dout a h ≠ OutOfFuel).

(** [d] is a local contribution of [use]: what lines 88-96 return for it
    at some point between the states [st] and [st']. *)
Definition contribution (GD : ExprPtr -> M State ExprPtr) (st st' : State)
    (use : UseInfo) (d : ExprPtr) : Prop :=
  ∃ s s', use_dop GD use s = Ok (d, s') ∧
          heap st `prefix_of` heap s ∧ heap s' `prefix_of` heap st'.

End Rule.

(** The four facts about a successful call that the proof of memoization
    carries through the recursion. *)
Record well_behaved (u : ComputeUses.t) (GD : ExprPtr -> M State ExprPtr) : Prop := {
  (** the cache only grows; *)
  wb_grows e st r st' : GD e st = Ok (r, st') → seen_ st ⊆ seen_ st';
  (** a node enters the cache only along uses through uncached nodes; *)
  wb_path e st r st' t :
    GD e st = Ok (r, st') → seen_ st !! t = None → is_Some (seen_ st' !! t) →
    upath u (seen_ st) e t;
  (** a node outside the cache enters it with the value returned; *)
  wb_stores e st r st' :
    GD e st = Ok (r, st') → seen_ st !! e = None → seen_ st' !! e = Some r;
  (** nodes that each have a user among themselves, all outside the
      cache, stay outside. *)
  wb_avoids (C : ExprPtr -> Prop) e st r st' :
    (∀ c, C c → ∃ v, v ∈ users u c ∧ C v) →
    (∀ c, C c → seen_ st !! c = None) →
    GD e st = Ok (r, st') →
    ∀ c, C c → seen_ st' !! c = None
}.

(** Every call extends the heap. *)
Definition extending (GD : ExprPtr -> M State ExprPtr) : Prop :=
  ∀ e st r st', GD e st = Ok (r, st') → heap st `prefix_of` heap st'.

(** [total] is [add(... add(add(sum, d1), d2) ..., dk)] in the heap [h]. *)
Fixpoint add_chain (h : Heap) (sum : ExprPtr) (ds : list ExprPtr) (total : ExprPtr) : Prop :=
  match ds with
  | [] => total = sum
  | d :: ds' =>
      ∃ t sh, h !! t = Some {| node := Call {| fn := "add"; args := [sum; d] |}; shape := sh |} ∧
              add_chain h t ds' total
  end.

(** * Properties *)

(** ** The contraction rules *)

Section ContractionRules.
Context `{ShapeInference}.

Implicit Types (dout p idx : nat) (e op : ContractionExpr) (h : Heap).

Lemma has_other_cons idx i x rest :
  has_other idx i (x :: rest) ↔ i ≠ idx ∨ has_other idx (S i) rest.
Proof.
  unfold has_other; split.
  - intros [[|j] [Hj Hne]]; [left; lia|].
    right; exists j; simpl in Hj; split; lia.
  - intros [Hne | [j [Hj Hne]]].
    + exists 0; simpl; split; lia.
    + exists (S j); simpl; split; lia.
Qed.

Lemma has_other_two idx (l : list TensorSpecExpr) :
  1 < length l → has_other idx 0 l.
Proof.
  intros Hl. destruct (decide (idx = 0)) as [->|].
  - exists 1; split; lia.
  - exists 0; split; lia.
Qed.

#[local] Instance has_other_dec idx i rest : Decision (has_other idx i rest).
Proof.
  revert i; induction rest as [|x rest IH]; intros i.
  - right; intros [j [Hj _]]; simpl in Hj; lia.
  - destruct (decide (i ≠ idx)) as [Hne|Heq].
    + left; apply has_other_cons; by left.
    + destruct (IH (S i)) as [Hy|Hn].
      * left; apply has_other_cons; by right.
      * right; intros Hc; apply has_other_cons in Hc as [?|?]; tauto.
Defined.

(** The loop under MULTIPLY: position [idx] is replaced, the rest is kept,
    and the combination becomes MULTIPLY as soon as another input is met. *)
Lemma SumOp_loop_MULTIPLY op dout idx rest :
  combo_op op = CombinationOp.MULTIPLY →
  ∀ i acc,
    SumOp_loop op dout idx i rest acc =
    Ok (acc.1 ++ (if decide (i ≤ idx) then <[idx - i := dout_spec dout op]> rest else rest),
        if decide (has_other idx i rest) then CombinationOp.MULTIPLY else acc.2).
Proof.
  intros Hc. induction rest as [|x rest IH]; intros i acc; cbn [SumOp_loop].
  - destruct (decide (has_other idx i [])) as [[j [Hj _]]|_]; [simpl in Hj; lia|].
    destruct acc; simpl. destruct (decide (i ≤ idx)); simpl; by rewrite app_nil_r.
  - destruct (decide (idx = i)) as [->|Hne].
    + rewrite IH; cbn [fst snd]. rewrite Nat.sub_diag.
      destruct (decide (S i ≤ i)); [lia|]. destruct (decide (i ≤ i)); [|lia].
      rewrite <- app_assoc. f_equal. f_equal.
      destruct (decide (has_other i (S i) rest)), (decide (has_other i i (x :: rest)));
        try done; rewrite has_other_cons in *; tauto.
    + rewrite Hc, IH; cbn [fst snd]. rewrite <- app_assoc.
      f_equal. f_equal.
      * destruct (decide (S i ≤ idx)), (decide (i ≤ idx)); try lia; try done.
        replace (idx - i) with (S (idx - S i)) by lia. done.
      * destruct (decide (has_other idx (S i) rest)), (decide (has_other idx i (x :: rest)));
          try done; rewrite has_other_cons in *; try tauto.
        exfalso; apply n0; left; congruence.
Qed.

(** The loop under PLUS: only [dout] survives, and NONE stays NONE. *)
Lemma SumOp_loop_PLUS op dout idx rest :
  combo_op op = CombinationOp.PLUS →
  ∀ i acc,
    acc.2 = CombinationOp.NONE →
    SumOp_loop op dout idx i rest acc =
    Ok (acc.1 ++ (if decide (i ≤ idx < i + length rest)%nat then [dout_spec dout op] else []),
        CombinationOp.NONE).
Proof.
  intros Hc. induction rest as [|x rest IH]; intros i acc Hacc; cbn [SumOp_loop length].
  - destruct (decide (i ≤ idx < i + 0)%nat); [lia|]. rewrite app_nil_r.
    destruct acc; simpl in *; by subst.
  - destruct (decide (idx = i)) as [->|Hne].
    + rewrite IH by done; cbn [fst snd].
      destruct (decide (S i ≤ i < S i + length rest)%nat); [lia|].
      destruct (decide (i ≤ i < i + S (length rest))%nat); [|lia].
      by rewrite app_nil_r.
    + rewrite Hc, IH by done; cbn [fst snd].
      destruct (decide (S i ≤ idx < S i + length rest)%nat),
               (decide (i ≤ idx < i + S (length rest))%nat); try lia; done.
Qed.

(** The loop under a combination with no rule: it throws as soon as it
    meets another input. *)
Lemma SumOp_loop_unsupported op dout idx rest msg :
  (∀ x rest' i acc, idx ≠ i →
     SumOp_loop op dout idx i (x :: rest') acc = Throw (runtime_error msg)) →
  ∀ i acc, has_other idx i rest →
    SumOp_loop op dout idx i rest acc = Throw (runtime_error msg).
Proof.
  intros Hthrow. induction rest as [|x rest IH]; intros i acc Hoth.
  - destruct Hoth as [j [Hj _]]; simpl in Hj; lia.
  - destruct (decide (idx = i)) as [->|Hne].
    + apply has_other_cons in Hoth as [?|Hoth]; [done|].
      simpl. destruct (decide (i = i)); [|done]. by apply IH.
    + by apply Hthrow.
Qed.

Lemma SumOp_loop_step_ne op dout idx i x rest acc :
  idx ≠ i →
  SumOp_loop op dout idx i (x :: rest) acc =
  match combo_op op with
  | CombinationOp.MULTIPLY =>
      SumOp_loop op dout idx (S i) rest (acc.1 ++ [x], CombinationOp.MULTIPLY)
  | CombinationOp.PLUS => SumOp_loop op dout idx (S i) rest (acc.1, CombinationOp.NONE)
  | CombinationOp.COND =>
      Throw (runtime_error "Gradient of sum of conditionals not supported")
  | CombinationOp.NONE =>
      Throw (runtime_error
        "Unexpected multiple inputs found when differentiating contraction with NONE combination op")
  | CombinationOp.EQ => Throw (runtime_error "Gradient of sum of equalities not supported")
  | CombinationOp.other _ =>
      Throw (runtime_error "Failed to recognize combination op during differentiation")
  end.
Proof. intros Hne; simpl. by destruct (decide (idx = i)). Qed.

(** [SumOp] once its loop has returned. *)
Lemma SumOp_after_loop dout op idx h ins combo input r re :
  SumOp_loop op dout idx 0 (inputs op) ([], CombinationOp.NONE) = Ok (ins, combo) →
  inputs op !! idx = Some input →
  ref input = Some r →
  h !! r = Some re →
  SumOp dout op idx h =
  finish_contraction (transposed combo ins op input re) (layout (shape re)) h.
Proof.
  intros Hloop Hin Hr Hre. unfold SumOp.
  apply lookup_lt_Some in Hin as Hlt.
  destruct (decide (idx = length (inputs op))); [lia|].
  unfold bind, run_pure. rewrite Hloop, Hin. simpl.
  unfold ref_shape. by rewrite Hr, Hre.
Qed.

Lemma finish_contraction_Ok dop lay h sh :
  ContractionExpr_ComputeShape h dop lay = Ok sh →
  finish_contraction dop lay h = Ok (length h, h ++ [{| node := Contraction dop; shape := sh |}]).
Proof. intros Hs. unfold finish_contraction, bind, run_pure. by rewrite Hs. Qed.

Lemma ContractionOp_input dout p e idx h input :
  inputs e !! idx = Some input →
  combo_op e ≠ CombinationOp.EQ →
  ContractionOp dout p e idx h =
  match agg_op e with
  | AggregationOp.SUM | AggregationOp.ASSIGN => SumOp dout e idx h
  | AggregationOp.MIN | AggregationOp.MAX => ExtremeOp dout p e idx h
  | AggregationOp.PROD =>
      Throw (runtime_error "PROD AggregationOp does not support differentiation")
  | AggregationOp.other _ => Throw (runtime_error "Invalid ContractionExpr in ContractionOp")
  end.
Proof.
  intros Hin Hne. apply lookup_lt_Some in Hin. unfold ContractionOp.
  rewrite bool_decide_eq_false_2 by (intros [_ ?]; lia).
  rewrite bool_decide_eq_false_2 by done.
  by destruct (agg_op e).
Qed.

Lemma ExtremeOp_first dout p op idx h input rest r re :
  inputs op = input :: rest →
  ref input = Some r →
  h !! r = Some re →
  ExtremeOp dout p op idx h =
  finish_contraction
    (transposed CombinationOp.COND
       [input; TensorSpecExpr_in p (index_spec (output op)); dout_spec dout op] op input re)
    (layout (shape re)) h.
Proof.
  intros Hin Hr Hre. unfold ExtremeOp. rewrite Hin. cbn [lookup list_lookup].
  unfold bind, ref_shape. by rewrite Hr, Hre.
Qed.

(** The cases of [ContractionOp], in the order it tries them. *)
Lemma ContractionOp_cases dout p e idx h :
  (default_slot e idx → ContractionOp dout p e idx h = Ok (dout, h)) ∧
  (¬ default_slot e idx → combo_op e = CombinationOp.EQ →
     ContractionOp dout p e idx h =
     Ok (length h, h ++ [{| node := IntConst 0; shape := scalar_shape |}])) ∧
  (¬ default_slot e idx → combo_op e ≠ CombinationOp.EQ →
     ContractionOp dout p e idx h =
     match agg_op e with
     | AggregationOp.SUM | AggregationOp.ASSIGN => SumOp dout e idx h
     | AggregationOp.MIN | AggregationOp.MAX => ExtremeOp dout p e idx h
     | AggregationOp.PROD =>
         Throw (runtime_error "PROD AggregationOp does not support differentiation")
     | AggregationOp.other _ =>
         Throw (runtime_error "Invalid ContractionExpr in ContractionOp")
     end).
Proof.
  unfold ContractionOp, default_slot. repeat split.
  - intros Hd. by rewrite bool_decide_eq_true_2.
  - intros Hd Heq. rewrite bool_decide_eq_false_2 by done.
    by rewrite bool_decide_eq_true_2.
  - intros Hd Hne. rewrite !bool_decide_eq_false_2 by done.
    by destruct (agg_op e).
Qed.

(** C4: [ContractionOp] tries its cases in a fixed order.  The default
    slot (a default exists and [idx] is the number of inputs) returns
    [dout] itself and allocates nothing; otherwise an EQ combination
    returns a fresh integer constant 0; otherwise SUM and ASSIGN go to
    [SumOp], MIN and MAX to [ExtremeOp], PROD throws, and any other
    aggregation throws. *)
Theorem ContractionOp_dispatch dout p e idx h :
  (default_slot e idx → ContractionOp dout p e idx h = Ok (dout, h)) ∧
  (¬ default_slot e idx →
     (combo_op e = CombinationOp.EQ →
        ContractionOp dout p e idx h =
        Ok (length h, h ++ [{| node := IntConst 0; shape := scalar_shape |}])) ∧
     (combo_op e ≠ CombinationOp.EQ →
        (agg_op e = AggregationOp.SUM ∨ agg_op e = AggregationOp.ASSIGN →
           ContractionOp dout p e idx h = SumOp dout e idx h) ∧
        (agg_op e = AggregationOp.MIN ∨ agg_op e = AggregationOp.MAX →
           ContractionOp dout p e idx h = ExtremeOp dout p e idx h) ∧
        (agg_op e = AggregationOp.PROD →
           ContractionOp dout p e idx h =
           Throw (runtime_error "PROD AggregationOp does not support differentiation")) ∧
        (∀ code, agg_op e = AggregationOp.other code →
           ContractionOp dout p e idx h =
           Throw (runtime_error "Invalid ContractionExpr in ContractionOp")))).
Proof.
  destruct (ContractionOp_cases dout p e idx h) as (Hdefault & Heq & Hagg).
  split; [done|]. intros Hd. split; [by apply Heq|]. intros Hne.
  rewrite (Hagg Hd Hne). repeat split.
  - by intros [-> | ->].
  - by intros [-> | ->].
  - by intros ->.
  - by intros code ->.
Qed.

(** C2 (amended): a PROD aggregation throws "PROD AggregationOp does not
    support differentiation" whenever the combination is not EQ and the
    slot differentiated is not the default slot. *)
Theorem PROD_rejected dout p e idx h :
  agg_op e = AggregationOp.PROD →
  combo_op e ≠ CombinationOp.EQ →
  ¬ default_slot e idx →
  ContractionOp dout p e idx h =
  Throw (runtime_error "PROD AggregationOp does not support differentiation").
Proof.
  intros Hagg Hne Hd.
  destruct (ContractionOp_cases dout p e idx h) as (_ & _ & ->); [|done..].
  by rewrite Hagg.
Qed.

(** C5 (amended): for SUM or ASSIGN aggregation with MULTIPLY combination
    and at least two inputs, the gradient for input [idx] is a fresh
    SUM/MULTIPLY contraction: the forward inputs with position [idx]
    replaced by [dout] indexed like the forward output, the forward
    constraints, and an output indexed like input [idx] with the sizes of
    the expression it refers to. *)
Theorem SumOp_MULTIPLY_rule dout p e idx h input r re sh :
  agg_op e = AggregationOp.SUM ∨ agg_op e = AggregationOp.ASSIGN →
  combo_op e = CombinationOp.MULTIPLY →
  1 < length (inputs e) →
  inputs e !! idx = Some input →
  ref input = Some r →
  h !! r = Some re →
  let dop := transposed CombinationOp.MULTIPLY (<[idx := dout_spec dout e]> (inputs e))
               e input re in
  ContractionExpr_ComputeShape h dop (layout (shape re)) = Ok sh →
  ContractionOp dout p e idx h =
  Ok (length h, h ++ [{| node := Contraction dop; shape := sh |}]).
Proof.
  intros Hagg Hc Hlen Hin Hr Hre dop Hsh.
  rewrite (ContractionOp_input _ _ _ _ _ _ Hin) by (rewrite Hc; done).
  assert (SumOp dout e idx h = finish_contraction dop (layout (shape re)) h) as Hsum.
  { eapply SumOp_after_loop; [|done..].
    rewrite SumOp_loop_MULTIPLY by done. cbn [fst snd app].
    rewrite Nat.sub_0_r. destruct (decide (0 ≤ idx)); [|lia].
    destruct (decide (has_other idx 0 (inputs e))) as [|Hno]; [done|].
    destruct Hno. by apply has_other_two. }
  rewrite <- (finish_contraction_Ok dop _ h sh Hsh).
  by destruct Hagg as [-> | ->].
Qed.

(** C6: for SUM or ASSIGN aggregation with PLUS combination, the gradient
    for input [idx] is a fresh SUM/NONE contraction whose only input is
    [dout] indexed like the forward output, whatever the other inputs are;
    and [SumOp] throws when it meets an input other than [idx] under a
    COND, NONE or EQ combination. *)
Theorem SumOp_PLUS_rule dout p e idx h :
  (∀ input r re sh,
     agg_op e = AggregationOp.SUM ∨ agg_op e = AggregationOp.ASSIGN →
     combo_op e = CombinationOp.PLUS →
     inputs e !! idx = Some input →
     ref input = Some r →
     h !! r = Some re →
     let dop := transposed CombinationOp.NONE [dout_spec dout e] e input re in
     ContractionExpr_ComputeShape h dop (layout (shape re)) = Ok sh →
     ContractionOp dout p e idx h =
     Ok (length h, h ++ [{| node := Contraction dop; shape := sh |}])) ∧
  (idx < length (inputs e) → 1 < length (inputs e) →
     (combo_op e = CombinationOp.COND →
        SumOp dout e idx h =
        Throw (runtime_error "Gradient of sum of conditionals not supported")) ∧
     (combo_op e = CombinationOp.NONE →
        SumOp dout e idx h =
        Throw (runtime_error
          "Unexpected multiple inputs found when differentiating contraction with NONE combination op")) ∧
     (combo_op e = CombinationOp.EQ →
        SumOp dout e idx h =
        Throw (runtime_error "Gradient of sum of equalities not supported"))).
Proof.
  split.
  - intros input r re sh Hagg Hc Hin Hr Hre dop Hsh.
    rewrite (ContractionOp_input _ _ _ _ _ _ Hin) by (rewrite Hc; done).
    assert (SumOp dout e idx h = finish_contraction dop (layout (shape re)) h) as Hsum.
    { eapply SumOp_after_loop; [|done..].
      rewrite SumOp_loop_PLUS by done. cbn [fst snd app].
      apply lookup_lt_Some in Hin.
      destruct (decide (0 ≤ idx < 0 + length (inputs e))%nat); [done|lia]. }
    rewrite <- (finish_contraction_Ok dop _ h sh Hsh).
    by destruct Hagg as [-> | ->].
  - intros Hidx Hlen.
    assert (∀ msg,
      (∀ x rest' i acc, idx ≠ i →
         SumOp_loop e dout idx i (x :: rest') acc = Throw (runtime_error msg)) →
      SumOp dout e idx h = Throw (runtime_error msg)) as Hthrow.
    { intros msg Hstep. unfold SumOp.
      destruct (decide (idx = length (inputs e))); [lia|].
      unfold bind, run_pure.
      by rewrite (SumOp_loop_unsupported _ _ _ _ msg Hstep) by by apply has_other_two. }
    repeat split; intros Hc; apply Hthrow; intros x rest' i acc Hne;
      rewrite SumOp_loop_step_ne by done; by rewrite Hc.
Qed.

(** C7: [ExtremeOp] returns a fresh SUM/COND contraction with the forward
    constraints and three inputs in this order: the first forward input,
    the forward contraction itself indexed like its output, and [dout]
    indexed like the forward output; its output is indexed like the first
    input, with the sizes of the expression that input refers to.  A MIN
    or MAX aggregation reaches it unless the combination is EQ or the slot
    is the default slot. *)
Theorem ExtremeOp_rule dout p e idx h input rest r re sh :
  inputs e = input :: rest →
  ref input = Some r →
  h !! r = Some re →
  let dop := transposed CombinationOp.COND
               [input; TensorSpecExpr_in p (index_spec (output e)); dout_spec dout e]
               e input re in
  ContractionExpr_ComputeShape h dop (layout (shape re)) = Ok sh →
  ExtremeOp dout p e idx h = Ok (length h, h ++ [{| node := Contraction dop; shape := sh |}]) ∧
  (agg_op e = AggregationOp.MIN ∨ agg_op e = AggregationOp.MAX →
   combo_op e ≠ CombinationOp.EQ → ¬ default_slot e idx →
   ContractionOp dout p e idx h = ExtremeOp dout p e idx h).
Proof.
  intros Hin Hr Hre dop Hsh. split.
  - rewrite (ExtremeOp_first _ _ _ _ _ _ _ _ _ Hin Hr Hre).
    by apply finish_contraction_Ok.
  - intros Hagg Hne Hd.
    destruct (ContractionOp_cases dout p e idx h) as (_ & _ & ->); [|done..].
    by destruct Hagg as [-> | ->].
Qed.

(** C10: the gradient of a MIN or MAX contraction is the same for any two
    positions that are not the default slot: [ExtremeOp] never looks at
    [idx], so the two calls return the same expression in the same heap. *)
Theorem ExtremeOp_ignores_idx dout p e i j h :
  agg_op e = AggregationOp.MIN ∨ agg_op e = AggregationOp.MAX →
  ¬ default_slot e i →
  ¬ default_slot e j →
  ExtremeOp dout p e i h = ExtremeOp dout p e j h ∧
  ContractionOp dout p e i h = ContractionOp dout p e j h.
Proof.
  intros Hagg Hi Hj. split; [done|].
  destruct (ContractionOp_cases dout p e i h) as (_ & Hieq & Hine).
  destruct (ContractionOp_cases dout p e j h) as (_ & Hjeq & Hjne).
  destruct (decide (combo_op e = CombinationOp.EQ)) as [Heq|Hne].
  - by rewrite Hieq, Hjeq.
  - rewrite Hine, Hjne by done. by destruct Hagg as [-> | ->].
Qed.

End ContractionRules.

(** ** The contraction rules on concrete contractions *)

Section ContractionExamples.
Import Examples.

Lemma ContractionOp_dispatch_witness :
  ContractionOp 3 2 (unary AggregationOp.MAX CombinationOp.NONE (Some 1)) 1
    (seeded (unary AggregationOp.MAX CombinationOp.NONE (Some 1))) =
  Ok (3, seeded (unary AggregationOp.MAX CombinationOp.NONE (Some 1))) ∧
  ContractionOp 3 2 (unary AggregationOp.SUM CombinationOp.EQ None) 0
    (seeded (unary AggregationOp.SUM CombinationOp.EQ None)) =
  Ok (4, seeded (unary AggregationOp.SUM CombinationOp.EQ None) ++ [scalar (IntConst 0)]) ∧
  ContractionOp 3 2 (unary (AggregationOp.other 78) CombinationOp.NONE None) 0
    (seeded (unary (AggregationOp.other 78) CombinationOp.NONE None)) =
  Throw (runtime_error "Invalid ContractionExpr in ContractionOp").
Proof.
  split; [|split].
  - refine (proj1 (ContractionOp_dispatch 3 2
               (unary AggregationOp.MAX CombinationOp.NONE (Some 1)) 1
               (seeded (unary AggregationOp.MAX CombinationOp.NONE (Some 1)))) _).
    split; [by eexists | reflexivity].
  - refine (proj1 (proj2 (ContractionOp_dispatch 3 2
               (unary AggregationOp.SUM CombinationOp.EQ None) 0
               (seeded (unary AggregationOp.SUM CombinationOp.EQ None))) _) _);
      [|reflexivity].
    intros [[d Hd] _]; discriminate Hd.
  - refine (proj2 (proj2 (proj2 (proj2 (proj2 (ContractionOp_dispatch 3 2
               (unary (AggregationOp.other 78) CombinationOp.NONE None) 0
               (seeded (unary (AggregationOp.other 78) CombinationOp.NONE None))) _) _)))
               78%Z _);
      [|discriminate|reflexivity].
    intros [[d Hd] _]; discriminate Hd.
Defined.

(** C2, as stated, fails: a PROD aggregation with EQ combination returns
    the integer constant 0, and the default slot of a PROD aggregation
    returns [dout]; [ComputeGradients] returns these as the gradients. *)
Lemma PROD_not_always_rejected :
  ContractionOp 3 2 (unary AggregationOp.PROD CombinationOp.EQ None) 0
    (seeded (unary AggregationOp.PROD CombinationOp.EQ None)) =
  Ok (4, seeded (unary AggregationOp.PROD CombinationOp.EQ None) ++ [scalar (IntConst 0)]) ∧
  ContractionOp 3 2 (unary AggregationOp.PROD CombinationOp.NONE (Some 1)) 1
    (seeded (unary AggregationOp.PROD CombinationOp.NONE (Some 1))) =
  Ok (3, seeded (unary AggregationOp.PROD CombinationOp.NONE (Some 1))) ∧
  ComputeGradients 2 [0] 2 (graph (unary AggregationOp.PROD CombinationOp.EQ None)) =
  Ok ([4], seeded (unary AggregationOp.PROD CombinationOp.EQ None) ++ [scalar (IntConst 0)]) ∧
  ComputeGradients 2 [1] 2 (graph (unary AggregationOp.PROD CombinationOp.NONE (Some 1))) =
  Ok ([3], seeded (unary AggregationOp.PROD CombinationOp.NONE (Some 1))).
Proof. repeat split; vm_compute; reflexivity. Qed.

Lemma PROD_rejected_witness :
  ContractionOp 3 2 (unary AggregationOp.PROD CombinationOp.NONE (Some 1)) 0
    (seeded (unary AggregationOp.PROD CombinationOp.NONE (Some 1))) =
  Throw (runtime_error "PROD AggregationOp does not support differentiation").
Proof.
  apply PROD_rejected; [reflexivity | discriminate |].
  intros [_ Hidx]; discriminate Hidx.
Defined.

(** C5, as stated, fails: with a single input the loop of [SumOp] never
    meets another input, and the combination of the result stays NONE. *)
Lemma SumOp_MULTIPLY_single_input :
  ContractionOp 3 2 (unary AggregationOp.SUM CombinationOp.MULTIPLY None) 0
    (seeded (unary AggregationOp.SUM CombinationOp.MULTIPLY None)) =
  Ok (4, seeded (unary AggregationOp.SUM CombinationOp.MULTIPLY None) ++
         [vector (Contraction
            {| agg_op := AggregationOp.SUM;
               combo_op := CombinationOp.NONE;
               inputs := [TensorSpecExpr_in 3 []];
               output := TensorSpecExpr_out i0 [DimExprInt 3];
               constraints := [];
               use_default := None |}) 3]).
Proof. reflexivity. Qed.

Lemma SumOp_MULTIPLY_rule_witness :
  ContractionOp 3 2 (binary AggregationOp.SUM CombinationOp.MULTIPLY) 0
    (seeded (binary AggregationOp.SUM CombinationOp.MULTIPLY)) =
  Ok (4, seeded (binary AggregationOp.SUM CombinationOp.MULTIPLY) ++
         [vector (Contraction
            {| agg_op := AggregationOp.SUM;
               combo_op := CombinationOp.MULTIPLY;
               inputs := [TensorSpecExpr_in 3 []; TensorSpecExpr_in 1 i0];
               output := TensorSpecExpr_out i0 [DimExprInt 3];
               constraints := [{| lhs := PolyIndex 0; rhs := DimExprInt 3 |}];
               use_default := None |}) 3]).
Proof.
  refine (SumOp_MULTIPLY_rule 3 2 (binary AggregationOp.SUM CombinationOp.MULTIPLY) 0
            (seeded (binary AggregationOp.SUM CombinationOp.MULTIPLY))
            (TensorSpecExpr_in 0 i0) 0 (vector (ParamExpr "A") 3)
            (shape (vector (ParamExpr "A") 3)) _ _ _ _ _ _ _);
    [by left | reflexivity | simpl; lia | reflexivity..].
Defined.

Lemma SumOp_PLUS_rule_witness :
  ContractionOp 3 2 (binary AggregationOp.ASSIGN CombinationOp.PLUS) 1
    (seeded (binary AggregationOp.ASSIGN CombinationOp.PLUS)) =
  Ok (4, seeded (binary AggregationOp.ASSIGN CombinationOp.PLUS) ++
         [vector (Contraction
            {| agg_op := AggregationOp.SUM;
               combo_op := CombinationOp.NONE;
               inputs := [TensorSpecExpr_in 3 []];
               output := TensorSpecExpr_out i0 [DimExprInt 3];
               constraints := [{| lhs := PolyIndex 0; rhs := DimExprInt 3 |}];
               use_default := None |}) 3]) ∧
  SumOp 3 (binary AggregationOp.SUM CombinationOp.COND) 1
    (seeded (binary AggregationOp.SUM CombinationOp.COND)) =
  Throw (runtime_error "Gradient of sum of conditionals not supported").
Proof.
  split.
  - refine (proj1 (SumOp_PLUS_rule 3 2 (binary AggregationOp.ASSIGN CombinationOp.PLUS) 1
                      (seeded (binary AggregationOp.ASSIGN CombinationOp.PLUS)))
              (TensorSpecExpr_in 1 i0) 1 (vector (ParamExpr "B") 3)
              (shape (vector (ParamExpr "B") 3)) _ _ _ _ _ _);
      [by right | reflexivity..].
  - refine (proj1 (proj2 (SumOp_PLUS_rule 3 2 (binary AggregationOp.SUM CombinationOp.COND) 1
                      (seeded (binary AggregationOp.SUM CombinationOp.COND))) _ _) _);
      [simpl; lia | simpl; lia | reflexivity].
Defined.

Lemma ExtremeOp_rule_witness :
  ExtremeOp 3 2 (unary AggregationOp.MAX CombinationOp.NONE None) 0
    (seeded (unary AggregationOp.MAX CombinationOp.NONE None)) =
  Ok (4, seeded (unary AggregationOp.MAX CombinationOp.NONE None) ++
         [vector (Contraction
            {| agg_op := AggregationOp.SUM;
               combo_op := CombinationOp.COND;
               inputs := [TensorSpecExpr_in 0 i0; TensorSpecExpr_in 2 []; TensorSpecExpr_in 3 []];
               output := TensorSpecExpr_out i0 [DimExprInt 3];
               constraints := [];
               use_default := None |}) 3]) ∧
  ContractionOp 3 2 (unary AggregationOp.MAX CombinationOp.NONE None) 0
    (seeded (unary AggregationOp.MAX CombinationOp.NONE None)) =
  ExtremeOp 3 2 (unary AggregationOp.MAX CombinationOp.NONE None) 0
    (seeded (unary AggregationOp.MAX CombinationOp.NONE None)).
Proof.
  destruct (ExtremeOp_rule 3 2 (unary AggregationOp.MAX CombinationOp.NONE None) 0
              (seeded (unary AggregationOp.MAX CombinationOp.NONE None))
              (TensorSpecExpr_in 0 i0) [] 0 (vector (ParamExpr "A") 3)
              (shape (vector (ParamExpr "A") 3)))
    as [Hext Hcion]; [reflexivity..|].
  split; [exact Hext|].
  apply Hcion; [by right | discriminate |].
  intros [[d Hd] _]; discriminate Hd.
Defined.

Lemma ExtremeOp_ignores_idx_witness :
  ExtremeOp 3 2 (binary AggregationOp.MIN CombinationOp.COND) 0
    (seeded (binary AggregationOp.MIN CombinationOp.COND)) =
  ExtremeOp 3 2 (binary AggregationOp.MIN CombinationOp.COND) 1
    (seeded (binary AggregationOp.MIN CombinationOp.COND)) ∧
  ContractionOp 3 2 (binary AggregationOp.MIN CombinationOp.COND) 0
    (seeded (binary AggregationOp.MIN CombinationOp.COND)) =
  ContractionOp 3 2 (binary AggregationOp.MIN CombinationOp.COND) 1
    (seeded (binary AggregationOp.MIN CombinationOp.COND)).
Proof.
  apply ExtremeOp_ignores_idx; [by left | |];
    intros [[d Hd] _]; discriminate Hd.
Defined.

End ContractionExamples.

(** ** ComputeUses: it returns, and it records only uses that exist *)

Section ComputeUsesProperties.
Import ComputeUses.

Lemma pending_insert (h : Heap) (seen : gset nat) (e : nat) :
  e ∉ seen →
  ∀ k,
    (e < k → pending k h ({[e]} ∪ seen) = pending k h seen) ∧
    (∀ x, k ≤ e → h !! (e - k) = Some x →
       pending k h ({[e]} ∪ seen) + operands (node x) = pending k h seen).
Proof.
  intros Hnew.
  assert (∀ k (n : nat), k ≠ e →
            (if decide (k ∈ {[e]} ∪ seen) then 0 else n) =
            (if decide (k ∈ seen) then 0 else n)) as Hother.
  { intros k n Hne. apply decide_ext.
    rewrite elem_of_union, elem_of_singleton. tauto. }
  induction h as [|y h IH]; intros k; cbn [pending].
  - split; [done|]. intros x _ Hx. by destruct (e - k).
  - destruct (IH (S k)) as [IHlt IHge]. split.
    + intros Hlt. rewrite IHlt by lia. rewrite Hother by lia. done.
    + intros x Hle Hx. destruct (decide (e = k)) as [->|Hne].
      * rewrite Nat.sub_diag in Hx. injection Hx as ->.
        rewrite IHlt by lia.
        destruct (decide (k ∈ {[k]} ∪ seen)) as [_|Hout].
        2: { destruct Hout. apply elem_of_union. left. by apply elem_of_singleton. }
        destruct (decide (k ∈ seen)); [done|]. lia.
      * replace (e - k) with (S (e - S k)) in Hx by lia. cbn in Hx.
        specialize (IHge x ltac:(lia) Hx). rewrite Hother by done. lia.
Qed.

Lemma pending_empty (h : Heap) (k : nat) :
  pending k h ∅ = sum_list ((fun e => operands (node e)) <$> h).
Proof.
  revert k. induction h as [|x h IH]; intros k; cbn; [done|].
  rewrite IH. destruct (decide (k ∈ (∅ : gset nat))) as [Hin|_]; [|done].
  by apply not_elem_of_empty in Hin.
Qed.

Section Traversal.
Variables (h : Heap) (src : ExprPtr).

Local Abbreviation sound := (uses_sound h src).

Lemma Push_sound user used i s :
  reachable h src user → operand h user used → sound s → sound (Push user used i s).
Proof.
  intros Hreach Hop [Hstack Huses]. split; cbn.
  - intros e [-> | He]%elem_of_cons; [|by apply Hstack].
    eapply rtc_r; eauto.
  - intros t0 l. destruct (decide (used = t0)) as [->|Hne].
    + rewrite lookup_insert_eq. intros [= <-]. split; [by destruct (default _ _)|].
      intros use [Hin | ->%list_elem_of_singleton]%elem_of_app; [|done].
      destruct (uses_ s !! t0) as [l0|] eqn:Hl0; cbn in Hin.
      * by apply (Huses t0 l0).
      * by apply elem_of_nil in Hin.
    + rewrite lookup_insert_ne by done. apply Huses.
Qed.


Lemma Visit_args_spec user rest :
  ∀ i s,
    reachable h src user →
    (∀ a, a ∈ rest → operand h user a) →
    sound s →
    sound (Visit_args user i rest s) ∧ grows s (Visit_args user i rest s) rest.
Proof.
  induction rest as [|a rest IH]; intros i s Hreach Hops Hs; cbn.
  - by split.
  - assert (sound (Push user a i s)) as Hpush.
    { apply Push_sound; [done| |done]. apply Hops. by left. }
    destruct (IH (S i) (Push user a i s) Hreach) as [Hs' [Hseen Hstack]]; [|done|].
    { intros b Hb. apply Hops. by right. }
    split; [done|]. split; [done|].
    rewrite Hstack. cbn. by rewrite <- app_assoc.
Qed.

Lemma Visit_inputs_spec user rest :
  ∀ i s,
    reachable h src user →
    (∀ a, Some a ∈ ref <$> rest → operand h user a) →
    None ∉ ref <$> rest →
    sound s →
    ∃ s', Visit_inputs user i rest s = Ok s' ∧ sound s' ∧
          grows s s' (omap ref rest).
Proof.
  induction rest as [|a rest IH]; intros i s Hreach Hops Hnull Hs; cbn.
  - by exists s.
  - destruct (ref a) as [r|] eqn:Hr; [|destruct Hnull; cbn; rewrite Hr; by left].
    assert (sound (Push user r i s)) as Hpush.
    { apply Push_sound; [done| |done]. apply Hops. cbn. rewrite Hr. by left. }
    destruct (IH (S i) (Push user r i s) Hreach) as (s' & Hrun & Hs' & Hseen & Hstack);
      [| |done|].
    { intros b Hb. apply Hops. cbn. by right. }
    { intros Hin. apply Hnull. cbn. by right. }
    exists s'. split; [done|]. split; [done|]. split; [done|].
    rewrite Hstack. cbn. by rewrite <- app_assoc.
Qed.

Hypothesis h_closed : closed h.
Hypothesis src_valid : src < length h.

Lemma closed_lookup e x :
  h !! e = Some x →
  ∀ o, o ∈ operand_refs (node x) → ∃ r, o = Some r ∧ r < length h.
Proof.
  intros Hx o Ho. unfold closed in h_closed.
  rewrite forallb_forall in h_closed.
  specialize (h_closed x). unfold node_ok in h_closed.
  rewrite forallb_forall in h_closed.
  assert (In x h) as Hin by (apply list_elem_of_In, list_elem_of_lookup; eauto).
  specialize (h_closed Hin o (proj1 (list_elem_of_In _ _) Ho)).
  destruct o as [r|]; [|done]. exists r. split; [done|].
  by apply Nat.ltb_lt.
Qed.

Lemma operand_valid a b : operand h a b → b < length h.
Proof.
  intros (x & Hx & Hb). destruct (closed_lookup a x Hx _ Hb) as (r & [= <-] & Hr). done.
Qed.

Lemma reachable_valid e : reachable h src e → e < length h.
Proof.
  intros Hr. apply rtc_inv_r in Hr as [<- | (b & _ & Hb)]; [done|].
  by eapply operand_valid.
Qed.

Lemma Visit_spec e x s :
  h !! e = Some x →
  reachable h src e →
  sound s →
  ∃ s', Visit e (node x) s = Ok s' ∧ sound s' ∧ seen_ s' = seen_ s ∧
        length (stack_ s') = length (stack_ s) + operands (node x).
Proof.
  intros Hx Hreach Hs.
  pose proof (closed_lookup e x Hx) as Hok.
  assert (∀ a, Some a ∈ operand_refs (node x) → operand h e a) as Hop.
  { intros a Ha. by exists x. }
  unfold operands. destruct (node x) as [c|c| | | |]; cbn in *;
    try (exists s; split; [done|]; split; [done|]; split; [done|lia]).
  - destruct (Visit_args_spec e (args c) 0 s Hreach) as [Hs' [Hseen Hstack]]; [|done|].
    { intros a Ha. apply Hop. by apply list_elem_of_fmap_2. }
    eexists; split; [done|]. split; [done|]. split; [done|].
    rewrite Hstack, length_app, length_rev, length_fmap. lia.
  - destruct (Visit_inputs_spec e (inputs c) 0 s Hreach) as (s' & -> & Hs' & Hseen & Hstack);
      [| |done|].
    { intros a Ha. apply Hop. apply elem_of_app. by left. }
    { intros Hnull. destruct (Hok None) as (r & Hr & _); [|done].
      apply elem_of_app. by left. }
    assert (length (omap ref (inputs c)) = length (inputs c)) as Hlen.
    { clear -Hok. induction (inputs c) as [|a l IH]; [done|]. cbn.
      destruct (Hok (ref a)) as (r & -> & _); [by left|]. cbn. f_equal.
      apply IH. intros o Ho. apply Hok. cbn. by right. }
    destruct (use_default c) as [d|].
    + eexists; split; [done|]. split.
      { apply Push_sound; [done| |done]. apply Hop. apply elem_of_app. right. by left. }
      split; [done|]. cbn.
      rewrite Hstack, !length_app, length_rev, length_fmap, Hlen. cbn. lia.
    + eexists; split; [done|]. split; [done|]. split; [done|].
      rewrite Hstack, !length_app, length_rev, length_fmap, Hlen. cbn. lia.
Qed.

(** With as many iterations as there are entries on the stack and operands
    still to be pushed, the loop drains the stack. *)
Lemma run_spec fuel :
  ∀ s,
    sound s →
    length (stack_ s) + pending 0 h (seen_ s) ≤ fuel →
    ∃ u, run h fuel s = Ok u ∧ sound u.
Proof.
  induction fuel as [|fuel IH]; intros s Hs Hfuel.
  - destruct s as [[|e rest] seen us]; cbn in *; [|lia]. by eexists.
  - destruct s as [[|e rest] seen us]; cbn [run stack_ seen_ uses_]; [by eexists|].
    cbn in Hfuel.
    assert (sound {| stack_ := rest; seen_ := seen; uses_ := us |}) as Hpop.
    { destruct Hs as [Hst Hus]. split; [|done]. intros a Ha. apply Hst. by right. }
    assert (reachable h src e) as Hreach by (apply Hs; by left).
    destruct (decide (e ∈ seen)) as [Hseen|Hnew].
    + apply IH; [done|]. cbn. lia.
    + pose proof (reachable_valid e Hreach) as Hlt.
      destruct (lookup_lt_is_Some_2 h e Hlt) as [x Hx]. rewrite Hx.
      destruct (Visit_spec e x {| stack_ := rest; seen_ := {[e]} ∪ seen; uses_ := us |}
                  Hx Hreach) as (s' & -> & Hs' & Hseen' & Hlen).
      { destruct Hpop as [Hst Hus]. by split. }
      apply IH; [done|]. rewrite Hlen, Hseen'. cbn.
      destruct (pending_insert h seen e Hnew 0) as [_ Hpend].
      specialize (Hpend x ltac:(lia)). rewrite Nat.sub_0_r in Hpend.
      specialize (Hpend Hx). lia.
Qed.

(** The constructor returns, and what it recorded is sound. *)
Lemma make_spec : ∃ u, make h src = Ok u ∧ sound u.
Proof.
  apply run_spec.
  - split; cbn.
    + intros e ->%list_elem_of_singleton. apply rtc_refl.
    + intros t0 l Hl. by rewrite lookup_empty in Hl.
  - cbn. rewrite pending_empty. unfold iterations. lia.
Qed.

End Traversal.
End ComputeUsesProperties.

(** ** The entry point *)

Section EntryPoint.
Context `{ShapeInference} `{DerivRegistry}.

Lemma node_ok_mono (n m : nat) (x : ExprNode) : n ≤ m → node_ok n x = true → node_ok m x = true.
Proof.
  intros Hle. unfold node_ok. rewrite !forallb_forall.
  intros Hall o Ho. specialize (Hall o Ho). destruct o as [r|]; [|done].
  apply Nat.ltb_lt in Hall. apply Nat.ltb_lt. lia.
Qed.

Lemma closed_snoc (h : Heap) (e : Expr) :
  closed h → node_ok (length h) (node e) = true → closed (h ++ [e]).
Proof.
  unfold closed. rewrite !forallb_forall. intros Hh He x Hx.
  rewrite length_app. cbn. apply in_app_or in Hx as [Hx|[<-|[]]].
  - eapply node_ok_mono; [|by apply Hh]. lia.
  - eapply node_ok_mono; [|done]. lia.
Qed.

Lemma Gradient_new_spec (h : Heap) (seed : ExprPtr) :
  closed h → seed < length h →
  ∃ u, Gradient_new seed h = Ok (u, seeded_state seed h) ∧ uses_sound h seed u.
Proof.
  intros Hclosed Hseed. destruct (make_spec h seed Hclosed Hseed) as (u & Hu & Hsound).
  exists u. unfold Gradient_new. by rewrite Hu.
Qed.

Lemma loss_value_spec (h : Heap) (loss : ExprPtr) (l : Expr) :
  h !! loss = Some l →
  loss_value loss h =
  if decide (length (dims (shape l)) = 0) then Ok (loss, h)
  else finish_contraction (full_reduction loss (length (dims (shape l)))) "" h.
Proof. intros Hl. unfold loss_value. by rewrite Hl. Qed.

Lemma loss_value_closed (h h' : Heap) (loss value : ExprPtr) :
  closed h → loss < length h →
  loss_value loss h = Ok (value, h') →
  closed h' ∧ value < length h' ∧ reachable h' value loss.
Proof.
  intros Hclosed Hlt Hval.
  destruct (lookup_lt_is_Some_2 h loss Hlt) as [l Hl].
  rewrite (loss_value_spec h loss l Hl) in Hval.
  destruct (decide (length (dims (shape l)) = 0)).
  - injection Hval as <- <-. split; [done|]. split; [done|]. apply rtc_refl.
  - unfold finish_contraction, bind, run_pure, make_shared in Hval.
    destruct (ContractionExpr_ComputeShape _ _ _) as [sh| | |]; try done.
    injection Hval as <- <-. split; [|split].
    + apply closed_snoc; [done|]. cbn. apply andb_true_iff. split; [|done].
      by apply Nat.ltb_lt.
    + rewrite length_app. cbn. lia.
    + apply rtc_once. eexists. split; [apply list_lookup_middle; done|].
      cbn. by left.
Qed.

Lemma GetDerivative_cached u fuel e st d :
  seen_ st !! e = Some d → GetDerivative u (S fuel) e st = Ok (d, st).
Proof. intros Hd. cbn. unfold GetDerivative_body. by rewrite Hd. Qed.

(** A node with no entry in [uses_], and not in the cache, makes
    [uses_.at] throw. *)
Lemma GetDerivative_no_entry u fuel e st :
  seen_ st !! e = None →
  ComputeUses.uses_ u !! e = None →
  GetDerivative u (S fuel) e st = Throw out_of_range.
Proof.
  intros Hseen Huses. cbn. unfold GetDerivative_body. rewrite Hseen.
  unfold bind, run_pure, ComputeUses.uses. by rewrite Huses.
Qed.

(** C8: a loss of rank zero is its own seed, and [GetDerivative] of it
    returns the constant 1.0 the constructor cached; a loss of nonzero rank
    is wrapped in a fresh SUM/NONE contraction whose single input is the
    loss indexed by one distinct index variable per dimension and whose
    output has no index and no size, and [ComputeGradients] seeds the
    propagator with that wrapper: the uses are those of the wrapper, the
    cache holds the constant 1.0 for it, what [ComputeGradients] returns
    for any targets is what the loop over them gives from that state, and
    the gradient it returns for the wrapper is that constant. *)
Theorem ComputeGradients_seed (h : Heap) (loss : ExprPtr) (l : Expr) :
  closed h →
  h !! loss = Some l →
  (dims (shape l) = [] →
     loss_value loss h = Ok (loss, h) ∧
     ∃ u, Gradient_new loss h = Ok (u, seeded_state loss h) ∧
          heap (seeded_state loss h) !! length h = Some one ∧
          ∀ fuel,
            GetDerivative u (S fuel) loss (seeded_state loss h) =
              Ok (length h, seeded_state loss h) ∧
            ComputeGradients (S fuel) [loss] loss h = Ok ([length h], h ++ [one])) ∧
  (dims (shape l) ≠ [] →
     ∀ sh, ContractionExpr_ComputeShape h (full_reduction loss (length (dims (shape l)))) ""
             = Ok sh →
     let wrapper := {| node := Contraction (full_reduction loss (length (dims (shape l))));
                       shape := sh |} in
     loss_value loss h = Ok (length h, h ++ [wrapper]) ∧
     agg_op (full_reduction loss (length (dims (shape l)))) = AggregationOp.SUM ∧
     combo_op (full_reduction loss (length (dims (shape l)))) = CombinationOp.NONE ∧
     output (full_reduction loss (length (dims (shape l)))) = TensorSpecExpr_out [] [] ∧
     (∃ idxs, inputs (full_reduction loss (length (dims (shape l)))) =
                [TensorSpecExpr_in loss idxs] ∧
              length idxs = length (dims (shape l)) ∧ NoDup idxs ∧
              ∀ ix, ix ∈ idxs → ∃ i, ix = PolyIndex i) ∧
     ∃ u, Gradient_new (length h) (h ++ [wrapper]) =
            Ok (u, seeded_state (length h) (h ++ [wrapper])) ∧
          seen_ (seeded_state (length h) (h ++ [wrapper])) !! length h = Some (S (length h)) ∧
          heap (seeded_state (length h) (h ++ [wrapper])) !! S (length h) = Some one ∧
          ComputeUses.make (h ++ [wrapper]) (length h) = Ok u ∧
          (∀ fuel wrts,
             ComputeGradients fuel wrts loss h =
             match derivatives u fuel wrts (seeded_state (length h) (h ++ [wrapper])) with
             | Ok (ret, st') => Ok (ret, heap st')
             | Throw e => Throw e
             | Undefined => Undefined
             | OutOfFuel => OutOfFuel
             end) ∧
          ∀ fuel,
            GetDerivative u (S fuel) (length h) (seeded_state (length h) (h ++ [wrapper])) =
              Ok (S (length h), seeded_state (length h) (h ++ [wrapper])) ∧
            ComputeGradients (S fuel) [length h] loss h =
              Ok ([S (length h)], h ++ [wrapper; one])).
Proof.
  intros Hclosed Hl. apply lookup_lt_Some in Hl as Hlt.
  rewrite (loss_value_spec h loss l Hl). split.
  - intros Hrank. rewrite Hrank. cbn [length]. destruct (decide (0 = 0)); [|done].
    split; [done|].
    destruct (Gradient_new_spec h loss Hclosed Hlt) as (u & Hnew & _).
    exists u. split; [done|]. split; [by apply list_lookup_middle|].
    assert (∀ fuel, GetDerivative u (S fuel) loss (seeded_state loss h) =
                    Ok (length h, seeded_state loss h)) as Hget.
    { intros fuel. apply GetDerivative_cached. cbn. by rewrite lookup_insert_eq. }
    intros fuel. split; [done|].
    unfold ComputeGradients, bind. rewrite (loss_value_spec h loss l Hl), Hrank. cbn [length].
    destruct (decide (0 = 0)); [|done]. rewrite Hnew.
    cbn [derivatives]. unfold bind. by rewrite Hget.
  - intros Hrank sh Hsh wrapper.
    destruct (decide (length (dims (shape l)) = 0)) as [Hz|Hnz].
    { destruct (dims (shape l)); [done|discriminate Hz]. }
    assert (loss_value loss h = Ok (length h, h ++ [wrapper])) as Hval.
    { rewrite (loss_value_spec h loss l Hl). destruct (decide _); [done|].
      by apply finish_contraction_Ok. }
    rewrite (finish_contraction_Ok _ _ _ _ Hsh). do 4 (split; [done|]). split.
    + eexists. split; [done|]. rewrite length_fmap, length_seq. split; [done|]. split.
      * apply NoDup_fmap_2; [by intros i j [=]|]. apply NoDup_seq.
      * intros ix (i & -> & _)%list_elem_of_fmap. by exists i.
    + destruct (Gradient_new_spec (h ++ [wrapper]) (length h)) as (u & Hnew & _).
      * apply closed_snoc; [done|]. cbn. apply andb_true_iff. split; [|done].
        by apply Nat.ltb_lt.
      * rewrite length_app. cbn. lia.
      * assert (length (h ++ [wrapper]) = S (length h)) as Hlen
          by (rewrite length_app; cbn; lia).
        assert (∀ fuel wrts,
                  ComputeGradients fuel wrts loss h =
                  match derivatives u fuel wrts (seeded_state (length h) (h ++ [wrapper])) with
                  | Ok (ret, st') => Ok (ret, heap st')
                  | Throw e => Throw e
                  | Undefined => Undefined
                  | OutOfFuel => OutOfFuel
                  end) as Hrun.
        { intros fuel wrts. unfold ComputeGradients, bind. by rewrite Hval, Hnew. }
        assert (∀ fuel, GetDerivative u (S fuel) (length h)
                          (seeded_state (length h) (h ++ [wrapper])) =
                        Ok (S (length h), seeded_state (length h) (h ++ [wrapper]))) as Hget.
        { intros fuel. apply GetDerivative_cached. cbn. by rewrite lookup_insert_eq, Hlen. }
        exists u. split; [done|]. split; [cbn; by rewrite lookup_insert_eq, Hlen|].
        split; [rewrite <- Hlen; by apply list_lookup_middle|]. split.
        { unfold Gradient_new in Hnew.
          destruct (ComputeUses.make (h ++ [wrapper]) (length h)); try done.
          by injection Hnew as ->. }
        split; [done|]. intros fuel. split; [done|].
        rewrite Hrun. cbn [derivatives]. unfold bind. rewrite Hget. cbn.
        by rewrite <- app_assoc.
Qed.

(** C1: a target outside the dependency graph of the seed has no entry in
    [uses_], and [uses_.at] throws [std::out_of_range] for it: the zero
    constant of lines 103-104 is not reached.  No use list the constructor
    records is empty, so that line is not reached for any other node
    either. *)
Theorem unreachable_target_throws (h h' : Heap) (loss value t : ExprPtr) (wrts : list ExprPtr) :
  closed h →
  loss < length h →
  loss_value loss h = Ok (value, h') →
  ¬ reachable h' value t →
  (∀ fuel, ComputeGradients (S fuel) (t :: wrts) loss h = Throw out_of_range) ∧
  ∃ u, ComputeUses.make h' value = Ok u ∧
       ComputeUses.uses u t = Throw out_of_range ∧
       ∀ e l, ComputeUses.uses_ u !! e = Some l → l ≠ [].
Proof.
  intros Hclosed Hlt Hval Hunreach.
  destruct (loss_value_closed h h' loss value Hclosed Hlt Hval) as (Hclosed' & Hvalid & _).
  destruct (Gradient_new_spec h' value Hclosed' Hvalid) as (u & Hnew & Hsound).
  assert (ComputeUses.uses_ u !! t = None) as Hnone.
  { destruct (ComputeUses.uses_ u !! t) as [l|] eqn:Hl; [|done].
    destruct Hsound as [_ Huses]. destruct (Huses t l Hl) as [Hne Hall].
    destruct l as [|use l]; [done|].
    destruct (Hall use) as [Hreach Hop]; [by left|].
    destruct Hunreach. eapply rtc_r; eauto. }
  split.
  - intros fuel. unfold ComputeGradients, bind. rewrite Hval, Hnew.
    cbn [derivatives]. unfold bind. rewrite GetDerivative_no_entry; [done| |done].
    cbn. apply lookup_insert_None. split; [apply lookup_empty|].
    intros ->. apply Hunreach, rtc_refl.
  - exists u. unfold Gradient_new in Hnew.
    destruct (ComputeUses.make h' value) as [u'| | |]; try done.
    injection Hnew as ->. split; [done|]. split.
    + unfold ComputeUses.uses. by rewrite Hnone.
    + intros e l Hl. by apply (proj2 Hsound e l).
Qed.

End EntryPoint.

(** ** The entry point on concrete graphs *)

Section EntryPointExamples.
Import Examples.

(** In [y = add(x, x)] the parameter [z] is not in the dependency graph of
    [y]. *)
Lemma z_unreachable : ¬ reachable add_x_x 1 2.
Proof.
  intros Hr. apply rtc_inv in Hr as [Heq | (b & (e & He & Hb) & Hr)]; [discriminate Heq|].
  injection He as <-. cbn in Hb.
  assert (b = 0) as ->.
  { apply elem_of_cons in Hb as [[= ->] | Hb1]; [done|].
    apply elem_of_cons in Hb1 as [[= ->] | Hb2]; [done|]. by apply elem_of_nil in Hb2. }
  apply rtc_inv in Hr as [Heq | (b & (e & He & Hb') & _)]; [discriminate Heq|].
  injection He as <-. cbn in Hb'. by apply elem_of_nil in Hb'.
Defined.

Lemma ComputeGradients_seed_witness :
  ComputeGradients 1 [1] 1 add_x_x = Ok ([3], add_x_x ++ [one]) ∧
  loss_value 0 (graph (binary AggregationOp.SUM CombinationOp.MULTIPLY)) =
  Ok (3, graph (binary AggregationOp.SUM CombinationOp.MULTIPLY) ++
         [scalar (Contraction (full_reduction 0 1))]) ∧
  ComputeGradients 1 [3] 0 (graph (binary AggregationOp.SUM CombinationOp.MULTIPLY)) =
  Ok ([4], graph (binary AggregationOp.SUM CombinationOp.MULTIPLY) ++
           [scalar (Contraction (full_reduction 0 1)); one]).
Proof.
  split.
  - destruct (ComputeGradients_seed add_x_x 1
                (scalar (Call {| fn := "add"; args := [0; 0] |})) eq_refl eq_refl)
      as [Hscalar _].
    destruct (Hscalar eq_refl) as (_ & u & _ & _ & Hall). apply (Hall 0).
  - destruct (ComputeGradients_seed (graph (binary AggregationOp.SUM CombinationOp.MULTIPLY)) 0
                (vector (ParamExpr "A") 3) eq_refl eq_refl)
      as [_ Hvector].
    destruct (Hvector ltac:(discriminate) scalar_shape eq_refl)
      as (Hval & _ & _ & _ & _ & u & _ & _ & _ & _ & _ & Hall).
    split; [exact Hval|]. apply (Hall 0).
Defined.

Lemma unreachable_target_throws_witness :
  ComputeGradients 3 [2] 1 add_x_x = Throw out_of_range.
Proof.
  destruct (unreachable_target_throws add_x_x add_x_x 1 1 2 [] eq_refl) as [Hthrow _].
  - cbn. lia.
  - reflexivity.
  - exact z_unreachable.
  - apply (Hthrow 2).
Defined.

End EntryPointExamples.

(** ** The propagator: memoization *)

Lemma bind_Ok {S A B} (m : M S A) (k : A -> M S B) (s s' : S) (b : B) :
  bind m k s = Ok (b, s') → ∃ a s1, m s = Ok (a, s1) ∧ k a s1 = Ok (b, s').
Proof.
  unfold bind. destruct (m s) as [[a s1]| | |]; try done. intros Hk. by exists a, s1.
Qed.

Lemma upath_start u seen e t : upath u seen e t → seen !! e = None.
Proof. by intros []. Qed.

Lemma upath_end u seen e t : upath u seen e t → seen !! t = None.
Proof. induction 1; done. Qed.

Lemma upath_weaken u (seen seen' : gmap nat ExprPtr) e t :
  seen ⊆ seen' → upath u seen' e t → upath u seen e t.
Proof.
  intros Hsub. induction 1 as [e He | e v t He Hv _ IH].
  - apply upath_refl. by eapply lookup_weaken_None.
  - eapply upath_step; [by eapply lookup_weaken_None|done..].
Qed.

Section Propagator.
Context `{ShapeInference} `{DerivRegistry}.
Variable u : ComputeUses.t.

Implicit Types (GD : ExprPtr → M State ExprPtr) (st : State) (C : ExprPtr → Prop).

Lemma on_heap_Ok {A} (m : M Heap A) st st' (a : A) :
  on_heap m st = Ok (a, st') → m (heap st) = Ok (a, heap st') ∧ seen_ st' = seen_ st.
Proof.
  unfold on_heap. destruct (m (heap st)) as [[a' h']| | |]; try done.
  by intros [= <- <-].
Qed.

(** An iteration starts with the recursive call on the user; nothing after
    that call touches the cache. *)
Lemma iteration_Ok GD use total st st' t' :
  iteration GD use total st = Ok (t', st') →
  ∃ dout st1, GD (expr use) st = Ok (dout, st1) ∧ seen_ st' = seen_ st1.
Proof.
  unfold iteration, use_dop. intros Hit.
  apply bind_Ok in Hit as (dop & st2 & Hdop & Hadd).
  apply bind_Ok in Hdop as (dout & st1 & Hget & Hdisp).
  exists dout, st1. split; [done|].
  apply on_heap_Ok in Hdisp as [_ Hseen2].
  destruct total as [t|].
  - apply on_heap_Ok in Hadd as [_ Hseen']. congruence.
  - injection Hadd as <- <-. done.
Qed.

(** A property of the cache that every recursive call preserves holds
    after the loop, and held when each user was differentiated. *)
Lemma accumulate_invariant (I : gmap nat ExprPtr → Prop) GD :
  (∀ e st r st', I (seen_ st) → GD e st = Ok (r, st') → I (seen_ st')) →
  ∀ us total st total' st',
    I (seen_ st) →
    accumulate GD us total st = Ok (total', st') →
    I (seen_ st') ∧
    ∀ v, v ∈ expr <$> us → ∃ st1 r st2, I (seen_ st1) ∧ GD v st1 = Ok (r, st2).
Proof.
  intros Hpres. induction us as [|use us IH]; intros total st total' st' HI Hacc; cbn in Hacc.
  - injection Hacc as <- <-. split; [done|]. intros v Hv. by apply elem_of_nil in Hv.
  - apply bind_Ok in Hacc as (t1 & st1 & Hit & Hrest).
    apply iteration_Ok in Hit as (dout & st2 & Hget & Hseen).
    assert (I (seen_ st1)) as HI1 by (rewrite Hseen; eauto).
    destruct (IH _ _ _ _ HI1 Hrest) as [HI' Hcalls]. split; [done|].
    intros v [-> | Hv]%elem_of_cons; [|by apply Hcalls].
    by exists st, dout, st2.
Qed.

Lemma accumulate_grows GD us total st total' st' :
  well_behaved u GD →
  accumulate GD us total st = Ok (total', st') → seen_ st ⊆ seen_ st'.
Proof.
  intros Hwb Hacc.
  apply (accumulate_invariant (fun m => seen_ st ⊆ m) GD) in Hacc as [Hsub _]; [done| |done].
  intros e st1 r st2 Hsub Hget. etrans; [done|]. by eapply wb_grows.
Qed.

(** A node that enters the cache during the loop enters it during one of
    the recursive calls. *)
Lemma accumulate_new GD t :
  well_behaved u GD →
  ∀ us total st total' st',
    accumulate GD us total st = Ok (total', st') →
    seen_ st !! t = None → is_Some (seen_ st' !! t) →
    ∃ v st1 r st2, v ∈ expr <$> us ∧ GD v st1 = Ok (r, st2) ∧ seen_ st ⊆ seen_ st1 ∧
                   seen_ st1 !! t = None ∧ is_Some (seen_ st2 !! t).
Proof.
  intros Hwb. induction us as [|use us IH]; intros total st total' st' Hacc Hout Hin;
    cbn in Hacc.
  - injection Hacc as <- <-. rewrite Hout in Hin. by destruct Hin.
  - apply bind_Ok in Hacc as (t1 & st1 & Hit & Hrest).
    apply iteration_Ok in Hit as (dout & st2 & Hget & Hseen).
    destruct (seen_ st2 !! t) as [d|] eqn:Ht.
    + exists (expr use), st, dout, st2. rewrite Ht. cbn. repeat split; eauto. by left.
    + rewrite <- Hseen in Ht.
      destruct (IH _ _ _ _ Hrest Ht Hin) as (v & sta & r & stb & Hv & Hcall & Hsub & Ha & Hb).
      exists v, sta, r, stb. cbn. repeat split; try done; [by right|].
      etrans; [|done]. rewrite Hseen. by eapply wb_grows.
Qed.

(** What a call that misses the cache does, step by step. *)
Lemma GetDerivative_body_miss GD e st r st' :
  seen_ st !! e = None →
  GetDerivative_body u GD e st = Ok (r, st') →
  ∃ us total st1 st2,
    ComputeUses.uses_ u !! e = Some us ∧
    accumulate GD us None st = Ok (total, st1) ∧
    on_heap (finish_total total e) st1 = Ok (r, st2) ∧
    emplace e r st2 = Ok (tt, st').
Proof.
  intros Hmiss. unfold GetDerivative_body. rewrite Hmiss. intros Hbody.
  apply bind_Ok in Hbody as (us & st0 & Huses & Hbody).
  unfold run_pure, ComputeUses.uses in Huses.
  destruct (ComputeUses.uses_ u !! e) as [l|]; [|done]. injection Huses as -> ->.
  apply bind_Ok in Hbody as (total & st1 & Hacc & Hbody).
  apply bind_Ok in Hbody as (r' & st2 & Hfin & Hbody).
  apply bind_Ok in Hbody as ([] & st3 & Hemp & Hret).
  injection Hret as <- <-. by exists us, total, st1, st2.
Qed.

Lemma emplace_spec e r st st' :
  emplace e r st = Ok (tt, st') →
  heap st' = heap st ∧
  seen_ st' = match seen_ st !! e with Some _ => seen_ st | None => <[e := r]> (seen_ st) end.
Proof.
  unfold emplace. destruct (seen_ st !! e); by intros [= <-].
Qed.

Lemma body_well_behaved GD :
  well_behaved u GD → well_behaved u (GetDerivative_body u GD).
Proof.
  intros Hwb.
  (* the cache after a miss, in terms of the cache after the loop *)
  assert (∀ e st r st', seen_ st !! e = None →
            GetDerivative_body u GD e st = Ok (r, st') →
            ∃ us total st1,
              ComputeUses.uses_ u !! e = Some us ∧
              accumulate GD us None st = Ok (total, st1) ∧
              seen_ st' = match seen_ st1 !! e with
                          | Some _ => seen_ st1
                          | None => <[e := r]> (seen_ st1)
                          end) as Hmiss.
  { intros e st r st' He Hbody.
    apply GetDerivative_body_miss in Hbody as (us & total & st1 & st2 & Hus & Hacc & Hfin & Hemp);
      [|done].
    apply on_heap_Ok in Hfin as [_ Hseen2]. apply emplace_spec in Hemp as [_ Hseen'].
    exists us, total, st1. rewrite Hseen', Hseen2. done. }
  assert (∀ e st r st', seen_ st !! e = Some r →
            GetDerivative_body u GD e st = Ok (r, st) ) as Hhit.
  { intros e st r st' He. unfold GetDerivative_body. by rewrite He. }
  (* nodes with users among themselves stay out of the cache *)
  assert (∀ C e st r st',
            (∀ c, C c → ∃ v, v ∈ users u c ∧ C v) →
            (∀ c, C c → seen_ st !! c = None) →
            GetDerivative_body u GD e st = Ok (r, st') →
            ∀ c, C c → seen_ st' !! c = None) as Havoids.
  { intros C e st r st' Hclosed Hout Hbody.
    destruct (seen_ st !! e) as [d|] eqn:He.
    { unfold GetDerivative_body in Hbody. rewrite He in Hbody. by injection Hbody as <- <-. }
    destruct (Hmiss _ _ _ _ He Hbody) as (us & total & st1 & Hus & Hacc & Hseen').
    apply (accumulate_invariant (fun m => ∀ c, C c → m !! c = None) GD) in Hacc
      as [Hout1 Hcalls]; [| |done].
    2: { intros e0 st0 r0 st0' Hout0 Hget. by eapply (wb_avoids u GD Hwb C). }
    assert (¬ C e) as HnC.
    { intros HCe. destruct (Hclosed e HCe) as (v & Hv & HCv).
      unfold users in Hv. rewrite Hus in Hv. cbn in Hv.
      destruct (Hcalls v Hv) as (sta & ra & stb & Houta & Hget).
      pose proof (wb_stores u GD Hwb _ _ _ _ Hget (Houta v HCv)) as Hstored.
      pose proof (wb_avoids u GD Hwb C _ _ _ _ Hclosed Houta Hget v HCv) as Hnot.
      congruence. }
    intros c HCc. rewrite Hseen'. destruct (seen_ st1 !! e); [by apply Hout1|].
    rewrite lookup_insert_ne; [by apply Hout1|]. by intros ->. }
  (* the loop leaves the node itself outside the cache *)
  assert (∀ e st us total st1,
            seen_ st !! e = None → ComputeUses.uses_ u !! e = Some us →
            accumulate GD us None st = Ok (total, st1) →
            seen_ st1 !! e = None) as Hself.
  { intros e st us total st1 He Hus Hacc.
    destruct (seen_ st1 !! e) as [d|] eqn:He1; [|done]. exfalso.
    destruct (accumulate_new GD e Hwb _ _ _ _ _ Hacc He) as
      (v & sta & ra & stb & Hv & Hget & Hsub & Ha & Hb); [by rewrite He1|].
    pose proof (wb_path u GD Hwb _ _ _ _ _ Hget Ha Hb) as Hpath.
    assert (seen_ stb !! e = None) as Hnot; [|rewrite Hnot in Hb; by destruct Hb].
    apply (wb_avoids u GD Hwb (fun c => upath u (seen_ sta) c e) v sta ra stb); [| |done|].
    - intros c Hc. inversion Hc as [? Hce | ? w ? Hce Hw Hwe]; subst.
      + exists v. split; [|done]. unfold users. by rewrite Hus.
      + by exists w.
    - intros c Hc. by eapply upath_start.
    - by apply upath_refl. }
  split.
  - intros e st r st' Hbody.
    destruct (seen_ st !! e) as [d|] eqn:He.
    { unfold GetDerivative_body in Hbody. rewrite He in Hbody. by injection Hbody as <- <-. }
    destruct (Hmiss _ _ _ _ He Hbody) as (us & total & st1 & Hus & Hacc & Hseen').
    rewrite Hseen'. etrans; [by eapply accumulate_grows|].
    destruct (seen_ st1 !! e) eqn:He1; [done|]. by apply insert_subseteq.
  - intros e st r st' t Hbody Ht Ht'.
    destruct (seen_ st !! e) as [d|] eqn:He.
    { unfold GetDerivative_body in Hbody. rewrite He in Hbody. injection Hbody as <- <-.
      rewrite Ht in Ht'. by destruct Ht'. }
    destruct (decide (t = e)) as [-> | Hne]; [by apply upath_refl|].
    destruct (Hmiss _ _ _ _ He Hbody) as (us & total & st1 & Hus & Hacc & Hseen').
    assert (is_Some (seen_ st1 !! t)) as Ht1.
    { rewrite Hseen' in Ht'. destruct (seen_ st1 !! e); [done|].
      by rewrite lookup_insert_ne in Ht'. }
    destruct (accumulate_new GD t Hwb _ _ _ _ _ Hacc Ht Ht1) as
      (v & sta & ra & stb & Hv & Hget & Hsub & Ha & Hb).
    eapply upath_step; [done| |].
    + unfold users. by rewrite Hus.
    + eapply upath_weaken; [done|]. by eapply wb_path.
  - intros e st r st' Hbody He.
    destruct (Hmiss _ _ _ _ He Hbody) as (us & total & st1 & Hus & Hacc & Hseen').
    rewrite Hseen', (Hself _ _ _ _ _ He Hus Hacc). apply lookup_insert_eq.
  - done.
Qed.

Lemma GetDerivative_well_behaved fuel : well_behaved u (GetDerivative u fuel).
Proof.
  induction fuel as [|fuel IH].
  - split; intros; cbn in *; done.
  - by apply body_well_behaved.
Qed.


End Propagator.

(** ** The propagator: accumulation over the uses *)

Section Accumulation.
Context `{ShapeInference} `{DerivRegistry}.
Variable u : ComputeUses.t.

Implicit Types (GD : ExprPtr → M State ExprPtr) (st : State) (h : Heap).

Lemma run_pure_Ok {S A} (r : Result A) (s s' : S) (a : A) :
  run_pure r s = Ok (a, s') → r = Ok a ∧ s' = s.
Proof. destruct r; cbn; try done. by intros [= -> ->]. Qed.

Lemma MakeCall_Ok f a h p h' :
  MakeCall f a h = Ok (p, h') →
  ∃ sh, p = length h ∧ h' = h ++ [{| node := Call {| fn := f; args := a |}; shape := sh |}].
Proof.
  unfold MakeCall. intros Hm. apply bind_Ok in Hm as (sh & h1 & Hsh & Hmk).
  apply run_pure_Ok in Hsh as [_ ->]. injection Hmk as <- <-. by exists sh.
Qed.

Lemma finish_contraction_extends dop lay h p h' :
  finish_contraction dop lay h = Ok (p, h') → h `prefix_of` h'.
Proof.
  unfold finish_contraction. intros Hm. apply bind_Ok in Hm as (sh & h1 & Hsh & Hmk).
  apply run_pure_Ok in Hsh as [_ ->]. injection Hmk as <- <-. by apply prefix_app_r.
Qed.

Lemma ref_shape_Ok input h sh h' : ref_shape input h = Ok (sh, h') → h' = h.
Proof.
  unfold ref_shape. destruct (ref input) as [r|]; [|done].
  destruct (h !! r); [|done]. by intros [= _ <-].
Qed.

Lemma ContractionOp_extends dout p e idx h g h' :
  ContractionOp dout p e idx h = Ok (g, h') → h `prefix_of` h'.
Proof.
  unfold ContractionOp. case_bool_decide; [by intros [= _ <-]|].
  case_bool_decide; [intros [= _ <-]; by apply prefix_app_r|].
  assert (SumOp dout e idx h = Ok (g, h') → h `prefix_of` h') as Hsum.
  { unfold SumOp. destruct (decide _); [done|]. intros Hm.
    apply bind_Ok in Hm as (acc & h1 & Hacc & Hm). apply run_pure_Ok in Hacc as [_ ->].
    destruct (inputs e !! idx) as [input|]; [|done].
    apply bind_Ok in Hm as (sh & h2 & Hsh & Hm). apply ref_shape_Ok in Hsh as ->.
    by eapply finish_contraction_extends. }
  assert (ExtremeOp dout p e idx h = Ok (g, h') → h `prefix_of` h') as Hext.
  { unfold ExtremeOp. destruct (inputs e !! 0) as [input|]; [|done]. intros Hm.
    apply bind_Ok in Hm as (sh & h2 & Hsh & Hm). apply ref_shape_Ok in Hsh as ->.
    by eapply finish_contraction_extends. }
  destruct (agg_op e); done.
Qed.

Lemma CallOp_extends dout p c idx h g h' :
  registry_extends →
  CallOp dout p c idx h = Ok (g, h') → h `prefix_of` h'.
Proof.
  intros Hreg. unfold CallOp. repeat (destruct (decide _); [done|]). intros Hm.
  apply bind_Ok in Hm as (d & h1 & Hd & Hm). apply run_pure_Ok in Hd as [Hd ->].
  apply bind_Ok in Hm as (gs & h2 & Hgs & Hm).
  destruct (gs !! idx); [|done]. injection Hm as _ <-. by eapply Hreg.
Qed.

(** Lines 88-96 for one use: the recursive call, then the rule of the
    user. *)
Lemma use_dop_Ok GD use st d st' :
  use_dop GD use st = Ok (d, st') →
  ∃ dout st1, GD (expr use) st = Ok (dout, st1) ∧ seen_ st' = seen_ st1 ∧
              (registry_extends → heap st1 `prefix_of` heap st').
Proof.
  unfold use_dop. intros Hm. apply bind_Ok in Hm as (dout & st1 & Hget & Hm).
  exists dout, st1. split; [done|]. apply on_heap_Ok in Hm as [Hm Hseen]. split; [done|].
  intros Hreg. destruct (heap st1 !! expr use) as [e|]; [|done].
  destruct (node e); try done.
  - by eapply CallOp_extends.
  - by eapply ContractionOp_extends.
Qed.

Lemma use_dop_extends GD use st d st' :
  registry_extends → extending GD →
  use_dop GD use st = Ok (d, st') → heap st `prefix_of` heap st'.
Proof.
  intros Hreg Hext Hm. apply use_dop_Ok in Hm as (dout & st1 & Hget & _ & Hpre).
  etrans; [by eapply Hext|]. by apply Hpre.
Qed.

Lemma contribution_weaken GD st0 st st' st1 use d :
  heap st0 `prefix_of` heap st → heap st' `prefix_of` heap st1 →
  contribution GD st st' use d → contribution GD st0 st1 use d.
Proof.
  intros Hpre Hpost (s & s' & Hdop & Hs & Hs'). exists s, s'.
  split; [done|]. split; by etrans.
Qed.

Lemma add_chain_weaken h h' sum ds total :
  h `prefix_of` h' → add_chain h sum ds total → add_chain h' sum ds total.
Proof.
  intros Hpre. revert sum. induction ds as [|d ds IH]; intros sum; cbn; [done|].
  intros (t & sh & Ht & Hchain). exists t, sh. split; [|by apply IH].
  by eapply prefix_lookup_Some.
Qed.

(** The rest of the sum, once there is a first term. *)
Lemma add_contributions_Ok GD :
  registry_extends → extending GD →
  ∀ rest sum st total st',
    add_contributions GD sum rest st = Ok (total, st') →
    heap st `prefix_of` heap st' ∧
    ∃ ds, Forall2 (contribution GD st st') rest ds ∧ add_chain (heap st') sum ds total.
Proof.
  intros Hreg Hext. induction rest as [|use rest IH]; intros sum st total st' Hm; cbn in Hm.
  - injection Hm as <- <-. split; [done|]. exists []. by split.
  - apply bind_Ok in Hm as (d & st1 & Hdop & Hm).
    apply bind_Ok in Hm as (sum' & st2 & Hadd & Hm).
    apply on_heap_Ok in Hadd as [Hadd _].
    apply MakeCall_Ok in Hadd as (sh & -> & Hheap2).
    pose proof (use_dop_extends _ _ _ _ _ Hreg Hext Hdop) as Hpre1.
    assert (heap st1 `prefix_of` heap st2) as Hpre2 by (rewrite Hheap2; by apply prefix_app_r).
    destruct (IH _ _ _ _ Hm) as (Hpre3 & ds & Hall & Hchain).
    split; [by repeat (etrans; [done|])|].
    exists (d :: ds). split.
    + constructor.
      * exists st, st1. split; [done|]. split; [done|]. by etrans.
      * eapply Forall2_impl; [done|]. intros use' d' Hc.
        apply (contribution_weaken GD st st2 st' st' use' d'); [by etrans|done..].
    + cbn. exists (length (heap st1)), sh. split; [|done].
      eapply prefix_lookup_Some; [|done]. rewrite Hheap2. by apply list_lookup_middle.
Qed.

(** The loop of the source, with its nullable [total], computes the sum as
    the specification words it. *)
Lemma accumulate_Some GD rest :
  ∀ sum st,
    accumulate GD rest (Some sum) st =
    (let* total := add_contributions GD sum rest in ret (Some total)) st.
Proof.
  induction rest as [|use rest IH]; intros sum st; cbn; [done|].
  unfold iteration, bind.
  destruct (use_dop GD use st) as [[d st1]| | |]; try done.
  destruct (on_heap _ st1) as [[sum' st2]| | |]; [|done..].
  by rewrite IH.
Qed.

Lemma GetDerivative_body_rule GD n us st :
  seen_ st !! n = None →
  ComputeUses.uses_ u !! n = Some us →
  GetDerivative_body u GD n st = GetDerivative_rule GD n us st.
Proof.
  intros Hmiss Hus. unfold GetDerivative_body, GetDerivative_rule. rewrite Hmiss.
  unfold bind at 1, run_pure, ComputeUses.uses. rewrite Hus.
  destruct us as [|use rest]; [done|].
  cbn [accumulate accumulated_gradient]. unfold iteration, bind.
  destruct (use_dop GD use st) as [[d st1]| | |]; try done.
  cbn. rewrite accumulate_Some. unfold bind.
  destruct (add_contributions GD d rest st1) as [[total st2]| | |]; done.
Qed.

(** C3: outside the cache, [GetDerivative] on a node with uses is the rule
    of the specification: the local contributions of the recorded uses, in
    order, summed by nested calls of ["add"], the sum wrapped in
    ["simple_reduce"] with the node when its shape has nonzero rank, and the
    result memoized.  When it returns, the heap holds exactly that: for uses
    [u1 ... uk] with contributions [d1 ... dk] the sum is
    [add(... add(d1, d2) ..., dk)], so a node with two uses gets
    [add(d1, d2)]. *)
Theorem GetDerivative_sums fuel n st us :
  registry_extends →
  seen_ st !! n = None →
  ComputeUses.uses_ u !! n = Some us →
  us ≠ [] →
  GetDerivative u (S fuel) n st = GetDerivative_rule (GetDerivative u fuel) n us st ∧
  ∀ r st',
    GetDerivative u (S fuel) n st = Ok (r, st') →
    ∃ d ds total te,
      Forall2 (contribution (GetDerivative u fuel) st st') us (d :: ds) ∧
      add_chain (heap st') d ds total ∧
      heap st' !! total = Some te ∧
      if decide (length (dims (shape te)) = 0) then r = total
      else ∃ sh, heap st' !! r =
                 Some {| node := Call {| fn := "simple_reduce"; args := [total; n] |};
                         shape := sh |}.
Proof.
  intros Hreg Hmiss Hus Hne.
  assert (extending (GetDerivative u fuel)) as Hext.
  { clear -Hreg. induction fuel as [|fuel IH]; intros e st r st' Hget; [done|].
    cbn in Hget. destruct (seen_ st !! e) as [d|] eqn:He.
    { unfold GetDerivative_body in Hget. rewrite He in Hget. by injection Hget as _ <-. }
    destruct (ComputeUses.uses_ u !! e) as [us|] eqn:Hus.
    2: { unfold GetDerivative_body in Hget. rewrite He in Hget.
         unfold bind, run_pure, ComputeUses.uses in Hget. by rewrite Hus in Hget. }
    rewrite (GetDerivative_body_rule _ _ us _ He Hus) in Hget.
    apply bind_Ok in Hget as (r' & st1 & Hacc & Hget).
    apply bind_Ok in Hget as ([] & st2 & Hemp & Hret). injection Hret as <- <-.
    apply emplace_spec in Hemp as [-> _].
    destruct us as [|use rest]; cbn in Hacc.
    - injection Hacc as _ <-. by apply prefix_app_r.
    - apply bind_Ok in Hacc as (d & sta & Hdop & Hacc).
      apply bind_Ok in Hacc as (total & stb & Hadd & Hfin).
      apply on_heap_Ok in Hfin as [Hfin _].
      etrans; [by eapply use_dop_extends|].
      etrans; [by eapply add_contributions_Ok|].
      destruct (heap stb !! total) as [te|]; [|done].
      destruct (decide _); [by injection Hfin as _ <-|].
      apply MakeCall_Ok in Hfin as (sh & _ & ->). by apply prefix_app_r. }
  split; [by apply GetDerivative_body_rule|].
  intros r st' Hget. cbn in Hget. rewrite (GetDerivative_body_rule _ _ us _ Hmiss Hus) in Hget.
  apply bind_Ok in Hget as (r' & st1 & Hacc & Hget).
  apply bind_Ok in Hget as ([] & st2 & Hemp & Hret). injection Hret as <- <-.
  apply emplace_spec in Hemp as [Hheap _].
  destruct us as [|use rest]; [done|]. cbn in Hacc.
  apply bind_Ok in Hacc as (d & sta & Hdop & Hacc).
  apply bind_Ok in Hacc as (total & stb & Hadd & Hfin).
  apply on_heap_Ok in Hfin as [Hfin _].
  pose proof (use_dop_extends _ _ _ _ _ Hreg Hext Hdop) as Hpre1.
  destruct (add_contributions_Ok _ Hreg Hext _ _ _ _ _ Hadd) as (Hpre2 & ds & Hall & Hchain).
  destruct (heap stb !! total) as [te|] eqn:Hte; [|done].
  assert (heap stb `prefix_of` heap st2) as Hpre3.
  { rewrite Hheap. destruct (decide _); [by injection Hfin as _ <-|].
    apply MakeCall_Ok in Hfin as (sh & _ & ->). by apply prefix_app_r. }
  exists d, ds, total, te. split; [|split; [|split]].
  - constructor.
    + exists st, sta. split; [done|]. split; [done|]. by repeat (etrans; [done|]).
    + eapply Forall2_impl; [done|]. intros use' d' Hc.
      apply (contribution_weaken _ st sta stb st2 use' d'); done.
  - by eapply add_chain_weaken.
  - by eapply prefix_lookup_Some.
  - destruct (decide _); [by injection Hfin as <- _|].
    apply MakeCall_Ok in Hfin as (sh & -> & Hst1). exists sh.
    rewrite Hheap, Hst1. by apply list_lookup_middle.
Qed.

End Accumulation.

(** ** The propagator on [y = add(x, x)] *)

Section PropagatorExamples.
Import Examples.

Lemma registry_only_allocates : registry_extends.
Proof.
  intros f d op dout a h gs h' Hres Hd. cbn in Hres.
  destruct (decide (f = "add")); [|done]. injection Hres as <-.
  by injection Hd as _ <-.
Qed.


Lemma GetDerivative_sums_witness :
  GetDerivative (uses_of add_x_x 1) 2 0 (seeded_state 1 add_x_x) =
  GetDerivative_rule (GetDerivative (uses_of add_x_x 1) 1) 0
    [{| expr := 1; idx := 0 |}; {| expr := 1; idx := 1 |}] (seeded_state 1 add_x_x) ∧
  GetDerivative (uses_of add_x_x 1) 2 0 (seeded_state 1 add_x_x) = Ok (4, add_x_x_done) ∧
  add_chain (heap add_x_x_done) 3 [3] 4.
Proof.
  destruct (GetDerivative_sums (uses_of add_x_x 1) 1 0 (seeded_state 1 add_x_x)
              [{| expr := 1; idx := 0 |}; {| expr := 1; idx := 1 |}]
              registry_only_allocates) as [Hrule Hheap].
  - vm_compute. reflexivity.
  - vm_compute. reflexivity.
  - discriminate.
  - split; [exact Hrule|]. split; [vm_compute; reflexivity|].
    exists 4, scalar_shape. split; reflexivity.
Defined.

End PropagatorExamples.

(** ** The propagator: the recursion budget

    On an ordered heap the users of a node have larger addresses, so the
    recursion of [GetDerivative] is no deeper than the heap is long. *)

Section Budget.
Context `{ShapeInference} `{DerivRegistry}.

Implicit Types (GD : ExprPtr → M State ExprPtr) (st : State) (h : Heap).

Lemma bind_starves {S A B} (m : M S A) (k : A -> M S B) (s : S) :
  bind m k s = OutOfFuel →
  m s = OutOfFuel ∨ ∃ a s1, m s = Ok (a, s1) ∧ k a s1 = OutOfFuel.
Proof.
  unfold bind. destruct (m s) as [[a s1]| | |]; try done; [|by left].
  intros Hk. right. by exists a, s1.
Qed.

Lemma on_heap_starves {A} (m : M Heap A) st :
  on_heap m st = OutOfFuel → m (heap st) = OutOfFuel.
Proof. unfold on_heap. by destruct (m (heap st)) as [[a h']| | |]. Qed.

Lemma MakeCall_returns f a h : never_starves → MakeCall f a h ≠ OutOfFuel.
Proof.
  intros (Hcall & _) Hm. unfold MakeCall, bind, run_pure in Hm.
  specialize (Hcall h {| fn := f; args := a |}).
  by destruct (CallExpr_ComputeShape _ _).
Qed.

Lemma finish_contraction_returns dop lay h :
  never_starves → finish_contraction dop lay h ≠ OutOfFuel.
Proof.
  intros (_ & Hcion & _) Hm. unfold finish_contraction, bind, run_pure in Hm.
  specialize (Hcion h dop lay). by destruct (ContractionExpr_ComputeShape _ _ _).
Qed.

Lemma SumOp_loop_returns op dout idx rest :
  ∀ i acc, SumOp_loop op dout idx i rest acc ≠ OutOfFuel.
Proof.
  induction rest as [|x rest IH]; intros i acc; cbn; [done|].
  destruct (decide (idx = i)); [apply IH|]. destruct (combo_op op); done || apply IH.
Qed.

Lemma ContractionOp_returns dout p e idx h :
  never_starves → ContractionOp dout p e idx h ≠ OutOfFuel.
Proof.
  intros Hns. unfold ContractionOp. case_bool_decide; [done|]. case_bool_decide; [done|].
  assert (SumOp dout e idx h ≠ OutOfFuel) as Hsum.
  { unfold SumOp. destruct (decide _); [done|]. unfold bind, run_pure.
    pose proof (SumOp_loop_returns e dout idx (inputs e) 0 ([], CombinationOp.NONE)) as Hloop.
    destruct (SumOp_loop _ _ _ _ _ _) as [acc| | |]; try done.
    destruct (inputs e !! idx) as [input|]; [|done].
    unfold ref_shape. destruct (ref input) as [r|]; [|done].
    destruct (h !! r); [|done]. by apply finish_contraction_returns. }
  assert (ExtremeOp dout p e idx h ≠ OutOfFuel) as Hext.
  { unfold ExtremeOp. destruct (inputs e !! 0) as [input|]; [|done].
    unfold bind, ref_shape. destruct (ref input) as [r|]; [|done].
    destruct (h !! r); [|done]. by apply finish_contraction_returns. }
  destruct (agg_op e); done.
Qed.

Lemma CallOp_returns dout p c idx h :
  never_starves → CallOp dout p c idx h ≠ OutOfFuel.
Proof.
  intros (_ & _ & Hres & Hrule). unfold CallOp. repeat (destruct (decide _); [done|]).
  unfold bind, run_pure. specialize (Hres (fn c)).
  destruct (Resolve (fn c)) as [d| | |] eqn:Hd; try done.
  specialize (Hrule (fn c) d p dout (args c) h Hd).
  destruct (d p dout (args c) h) as [[gs h1]| | |]; try done.
  by destruct (gs !! idx).
Qed.

Lemma accumulate_returns GD us :
  never_starves →
  (∀ use st, use ∈ us → GD (expr use) st ≠ OutOfFuel) →
  ∀ total st, accumulate GD us total st ≠ OutOfFuel.
Proof.
  intros Hns. induction us as [|use us IH]; intros Hget total st; cbn; [done|].
  intros Hm. apply bind_starves in Hm as [Hit | (t' & st1 & _ & Hrest)].
  - unfold iteration in Hit.
    apply bind_starves in Hit as [Hdop | (dop & st1 & _ & Hadd)].
    + unfold use_dop in Hdop.
      apply bind_starves in Hdop as [Hrec | (dout & st1 & _ & Hdisp)].
      * by eapply Hget; [left|].
      * apply on_heap_starves in Hdisp.
        destruct (heap st1 !! expr use) as [e|]; [|done].
        destruct (node e); try done.
        -- by eapply CallOp_returns.
        -- by eapply ContractionOp_returns.
    + destruct total as [t|]; [|done].
      apply on_heap_starves in Hadd. by eapply MakeCall_returns.
  - eapply IH; [|done]. intros use' st' Hin. apply Hget. by right.
Qed.

(** With more fuel than there are addresses from [e] up to [bound],
    [GetDerivative] does not run out of it. *)
Lemma GetDerivative_returns u bound fuel :
  never_starves → ascending u bound →
  ∀ e st, bound - e < fuel → GetDerivative u fuel e st ≠ OutOfFuel.
Proof.
  intros Hns Hasc. induction fuel as [|fuel IH]; intros e st Hfuel; [lia|].
  cbn. unfold GetDerivative_body. destruct (seen_ st !! e); [done|].
  intros Hm. apply bind_starves in Hm as [Huses | (us & st0 & Huses & Hm)].
  { unfold run_pure, ComputeUses.uses in Huses. by destruct (ComputeUses.uses_ u !! e). }
  unfold run_pure, ComputeUses.uses in Huses.
  destruct (ComputeUses.uses_ u !! e) as [l|] eqn:Hl; [|done]. injection Huses as -> ->.
  apply bind_starves in Hm as [Hacc | (total & st1 & _ & Hm)].
  { eapply accumulate_returns; [done| |done].
    intros use st' Hin. apply IH. pose proof (Hasc e us use Hl Hin). lia. }
  apply bind_starves in Hm as [Hfin | (r & st2 & _ & Hm)].
  { apply on_heap_starves in Hfin. destruct total as [t|]; [|done]. cbn in Hfin.
    destruct (heap st1 !! t); [|done]. destruct (decide _); [done|].
    by eapply MakeCall_returns. }
  apply bind_starves in Hm as [Hemp | ([] & st3 & _ & Hret)]; [|done].
  unfold emplace in Hemp. by destruct (seen_ st2 !! e).
Qed.

(** What the constructor records on an ordered heap is ascending. *)
Lemma uses_ascending h src u :
  closed h → ordered h → src < length h →
  uses_sound h src u → ascending u (length h).
Proof.
  intros Hclosed Hord Hsrc [_ Huses] t l use Hl Hin.
  destruct (Huses t l Hl) as [_ Hall]. destruct (Hall use Hin) as [Hreach Hop].
  split; [|by eapply reachable_valid].
  destruct Hop as (e & He & Ht). specialize (Hord _ _ He). unfold node_ok in Hord.
  rewrite forallb_forall in Hord.
  specialize (Hord (Some t) (proj1 (list_elem_of_In _ _) Ht)). by apply Nat.ltb_lt.
Qed.

Lemma ordered_snoc h e :
  ordered h → node_ok (length h) (node e) = true → ordered (h ++ [e]).
Proof.
  intros Hord He i x Hx. apply lookup_app_Some in Hx as [Hx | [Hge Hx]]; [by apply Hord|].
  apply list_lookup_singleton_Some in Hx as [Hi <-].
  by replace i with (length h) by lia.
Qed.

(** On a closed, ordered heap [ComputeGradients] needs no more fuel than
    the heap is long, plus the wrapper and the call itself. *)
Lemma ComputeGradients_returns h wrts loss :
  never_starves → closed h → ordered h → loss < length h →
  ComputeGradients (S (S (length h))) wrts loss h ≠ OutOfFuel.
Proof.
  intros Hns Hclosed Hord Hloss Hm. unfold ComputeGradients in Hm.
  apply bind_starves in Hm as [Hval | (value & h' & Hval & Hm)].
  { unfold loss_value in Hval. destruct (h !! loss); [|done].
    destruct (decide _); [done|]. by eapply finish_contraction_returns. }
  destruct (loss_value_closed h h' loss value Hclosed Hloss Hval) as (Hclosed' & Hvalue & _).
  assert (ordered h' ∧ length h' ≤ S (length h)) as [Hord' Hlen].
  { unfold loss_value in Hval. destruct (h !! loss) as [l|]; [|done].
    destruct (decide _); [injection Hval as _ <-; split; [done|lia]|].
    unfold finish_contraction, bind, run_pure, make_shared in Hval.
    destruct (ContractionExpr_ComputeShape _ _ _) as [sh| | |]; try done.
    injection Hval as _ <-. split; [|rewrite length_app; cbn; lia].
    apply ordered_snoc; [done|]. cbn. apply andb_true_iff. split; [|done].
    by apply Nat.ltb_lt. }
  destruct (Gradient_new_spec h' value Hclosed' Hvalue) as (u & Hnew & Hsound).
  rewrite Hnew in Hm.
  pose proof (uses_ascending h' value u Hclosed' Hord' Hvalue Hsound) as Hasc.
  assert (∀ ws st, derivatives u (S (S (length h))) ws st ≠ OutOfFuel) as Hloop.
  { clear Hm. induction ws as [|w ws IH]; intros st; cbn [derivatives]; [done|]. intros Hm.
    apply bind_starves in Hm as [Hget | (d & st1 & _ & Hm)].
    - eapply (GetDerivative_returns u (length h') (S (S (length h))));
        [done|done| |exact Hget]. lia.
    - apply bind_starves in Hm as [Hrest | (ds & st2 & _ & Hret)]; [|done].
      by eapply IH. }
  specialize (Hloop wrts (seeded_state value h')).
  by destruct (derivatives _ _ _ _) as [[ret st']| | |].
Qed.

End Budget.

(** ** The recursion budget on [y = add(x, x)] *)

Section BudgetExamples.
Import Examples.

Lemma collaborators_never_starve : never_starves.
Proof.
  repeat split.
  - intros h c. cbn. destruct (args c) as [|a ?]; [done|]. by destruct (h !! a).
  - done.
  - intros f. cbn. by destruct (decide (f = "add")).
  - intros f d op dout a h Hd. cbn in Hd.
    destruct (decide (f = "add")); [|done]. by injection Hd as <-.
Qed.

Lemma add_x_x_ordered : ordered add_x_x.
Proof.
  intros i e He. do 3 (destruct i as [|i]; [by injection He as <-|]). done.
Qed.

Lemma add_x_x_returns : ComputeGradients 5 [0; 1] 1 add_x_x ≠ OutOfFuel.
Proof.
  apply (ComputeGradients_returns add_x_x [0; 1] 1);
    [apply collaborators_never_starve | reflexivity | apply add_x_x_ordered | cbn; lia].
Qed.

End BudgetExamples.

(** * The use graph, exactly *)

(** [t] is the operand at position [i] of the node at [user]: argument [i]
    of a call, the [ref] of input [i] of a contraction, or its default at
    the position after the last input. *)
Definition operand_at (h : Heap) (user : ExprPtr) (i : nat) (t : ExprPtr) : Prop :=
  ∃ e, h !! user = Some e ∧ operand_refs (node e) !! i = Some (Some t).

(** The uses of [t] that visiting [user] records: one for each position,
    from [i] on, at which [refs] holds [t], in order. *)
Fixpoint uses_at (user : ExprPtr) (i : nat) (refs : list (option ExprPtr)) (t : ExprPtr)
    : list UseInfo :=
  match refs with
  | [] => []
  | o :: refs' =>
      (if decide (o = Some t) then [{| expr := user; idx := i |}] else []) ++
      uses_at user (S i) refs' t
  end.

(** [uses_[t]], empty when [t] has no entry. *)
Definition recorded (s : ComputeUses.t) (t : ExprPtr) : list UseInfo :=
  default [] (ComputeUses.uses_ s !! t).

(** What holds of the traversal of [h] from [src] at every iteration. *)
Record traversing (h : Heap) (src : ExprPtr) (s : ComputeUses.t) : Prop := {
  (** the uses recorded are those of the nodes visited, each once; *)
  tr_uses t use :
    use ∈ recorded s t ↔
    expr use ∈ ComputeUses.seen_ s ∧ operand_at h (expr use) (idx use) t;
  tr_once t : NoDup (recorded s t);
  tr_entry t l : ComputeUses.uses_ s !! t = Some l → l ≠ [];
  (** the operands of a visited node are visited or on the stack; *)
  tr_frontier user t :
    user ∈ ComputeUses.seen_ s → operand h user t →
    t ∈ ComputeUses.seen_ s ∨ t ∈ ComputeUses.stack_ s;
  (** so is the root; *)
  tr_root : src ∈ ComputeUses.seen_ s ∨ src ∈ ComputeUses.stack_ s;
  (** and nothing else is. *)
  tr_within e :
    e ∈ ComputeUses.seen_ s ∨ e ∈ ComputeUses.stack_ s → reachable h src e
}.

Section UseGraph.
Import ComputeUses.

Lemma uses_at_elem user refs t use :
  ∀ i, use ∈ uses_at user i refs t ↔
       expr use = user ∧ ∃ k, idx use = i + k ∧ refs !! k = Some (Some t).
Proof.
  induction refs as [|o refs IH]; intros i; cbn [uses_at].
  - split; [by intros ?%elem_of_nil|]. by intros (_ & k & _ & Hk).
  - rewrite elem_of_app, IH. split.
    + intros [Hhead | (Hu & k & Hk & Hl)].
      * destruct (decide (o = Some t)) as [->|]; [|by apply elem_of_nil in Hhead].
        apply list_elem_of_singleton in Hhead as ->. cbn. split; [done|].
        exists 0. split; [lia|done].
      * split; [done|]. exists (S k). split; [lia|done].
    + intros (Hu & [|k] & Hk & Hl).
      * left. cbn in Hl. injection Hl as ->. destruct (decide (Some t = Some t)); [|done].
        apply list_elem_of_singleton. destruct use as [ue ui]; cbn in *. f_equal; lia.
      * right. split; [done|]. exists k. split; [lia|done].
Qed.

Lemma uses_at_NoDup user refs t : ∀ i, NoDup (uses_at user i refs t).
Proof.
  induction refs as [|o refs IH]; intros i; cbn [uses_at]; [constructor|].
  apply NoDup_app. split; [|split; [|done]].
  - destruct (decide _); [apply NoDup_singleton | constructor].
  - intros use Hhead (_ & k & Hk & _)%uses_at_elem.
    destruct (decide _); [|by apply elem_of_nil in Hhead].
    apply list_elem_of_singleton in Hhead as ->. cbn in Hk. lia.
Qed.

Lemma uses_at_app user l1 l2 t :
  ∀ i, uses_at user i (l1 ++ l2) t = uses_at user i l1 t ++ uses_at user (i + length l1) l2 t.
Proof.
  induction l1 as [|o l1 IH]; intros i; cbn.
  - by rewrite Nat.add_0_r.
  - rewrite IH, <- app_assoc. by replace (S i + length l1) with (i + S (length l1)) by lia.
Qed.

Lemma Push_recorded user used i s t :
  recorded (Push user used i s) t =
  recorded s t ++ (if decide (Some used = Some t) then [{| expr := user; idx := i |}] else []).
Proof.
  unfold recorded. cbn. destruct (decide (used = t)) as [->|Hne].
  - rewrite lookup_insert_eq. by destruct (decide (Some t = Some t)).
  - rewrite lookup_insert_ne by done.
    destruct (decide (Some used = Some t)) as [[= ?]|]; [done|]. by rewrite app_nil_r.
Qed.

Lemma Visit_args_recorded user rest t :
  ∀ i s, recorded (Visit_args user i rest s) t =
         recorded s t ++ uses_at user i (Some <$> rest) t.
Proof.
  induction rest as [|a rest IH]; intros i s; cbn.
  - by rewrite app_nil_r.
  - by rewrite IH, Push_recorded, <- app_assoc.
Qed.

Lemma Visit_args_stack user rest :
  ∀ i s, seen_ (Visit_args user i rest s) = seen_ s ∧
         ∀ a, a ∈ stack_ (Visit_args user i rest s) ↔ a ∈ stack_ s ∨ a ∈ rest.
Proof.
  induction rest as [|b rest IH]; intros i s; cbn.
  - split; [done|]. intros a. rewrite elem_of_nil. tauto.
  - destruct (IH (S i) (Push user b i s)) as [Hseen Hstack]. split; [done|].
    intros a. rewrite Hstack. cbn. rewrite !elem_of_cons. tauto.
Qed.

Lemma Visit_inputs_recorded user rest t :
  ∀ i s s', Visit_inputs user i rest s = Ok s' →
            recorded s' t = recorded s t ++ uses_at user i (ref <$> rest) t.
Proof.
  induction rest as [|a rest IH]; intros i s s' Hvisit; cbn in *.
  - injection Hvisit as <-. by rewrite app_nil_r.
  - destruct (ref a) as [r|]; [|done].
    by rewrite (IH _ _ _ Hvisit), Push_recorded, <- app_assoc.
Qed.

Lemma Visit_inputs_stack user rest :
  ∀ i s s', Visit_inputs user i rest s = Ok s' →
            seen_ s' = seen_ s ∧
            ∀ a, a ∈ stack_ s' ↔ a ∈ stack_ s ∨ Some a ∈ ref <$> rest.
Proof.
  induction rest as [|b rest IH]; intros i s s' Hvisit; cbn in *.
  - injection Hvisit as <-. split; [done|]. intros a. rewrite elem_of_nil. tauto.
  - destruct (ref b) as [r|]; [|done].
    destruct (IH _ _ _ Hvisit) as [Hseen Hstack]. split; [done|].
    intros a. rewrite Hstack. cbn. rewrite !elem_of_cons.
    split; [intros [[-> | ?] | ?]; auto | intros [? | [[= ->] | ?]]; auto].
Qed.

(** Visiting a node records one use per operand position, in order, and
    pushes the operands. *)
Lemma Visit_exact user n s s' :
  Visit user n s = Ok s' →
  seen_ s' = seen_ s ∧
  (∀ t, recorded s' t = recorded s t ++ uses_at user 0 (operand_refs n) t) ∧
  (∀ a, a ∈ stack_ s' ↔ a ∈ stack_ s ∨ Some a ∈ operand_refs n).
Proof.
  destruct n as [c|c| | | |]; cbn [Visit operand_refs];
    try (intros [= <-]; split; [done|]; split;
         [intros t; cbn; by rewrite app_nil_r | intros a; rewrite elem_of_nil; tauto]).
  - intros [= <-]. destruct (Visit_args_stack user (args c) 0 s) as [Hseen Hstack].
    split; [done|]. split; [intros t; apply Visit_args_recorded|].
    intros a. rewrite Hstack, list_elem_of_fmap.
    split; [intros [?|?]; eauto | intros [?|(b & [= ->] & ?)]; auto].
  - destruct (Visit_inputs user 0 (inputs c) s) as [s1| | |] eqn:Hvisit; try done.
    destruct (Visit_inputs_stack _ _ _ _ _ Hvisit) as [Hseen Hstack].
    pose proof (fun t => Visit_inputs_recorded user (inputs c) t _ _ _ Hvisit) as Hrec.
    destruct (use_default c) as [d|]; intros [= <-].
    + split; [done|]. split.
      * intros t. rewrite Push_recorded, Hrec, uses_at_app, <- app_assoc, length_fmap. cbn.
        by rewrite app_nil_r.
      * intros a. cbn. rewrite elem_of_cons, Hstack, elem_of_app, list_elem_of_singleton.
        split; [intros [-> | [?|?]]; auto | intros [? | [? | [= ->]]]; auto].
    + split; [done|]. split.
      * intros t. by rewrite Hrec, app_nil_r.
      * intros a. by rewrite Hstack, app_nil_r.
Qed.

End UseGraph.

Section UseGraphTraversal.
Import ComputeUses.
Variables (h : Heap) (src : ExprPtr).

Lemma Push_entry user used i s :
  (∀ t l, uses_ s !! t = Some l → l ≠ []) →
  ∀ t l, uses_ (Push user used i s) !! t = Some l → l ≠ [].
Proof.
  intros Hs t l. cbn. destruct (decide (used = t)) as [->|Hne].
  - rewrite lookup_insert_eq. intros [= <-]. by destruct (default _ _).
  - rewrite lookup_insert_ne by done. apply Hs.
Qed.

Lemma Visit_entry user n s s' :
  Visit user n s = Ok s' →
  (∀ t l, uses_ s !! t = Some l → l ≠ []) →
  ∀ t l, uses_ s' !! t = Some l → l ≠ [].
Proof.
  assert (∀ rest i s0, (∀ t l, uses_ s0 !! t = Some l → l ≠ []) →
            ∀ t l, uses_ (Visit_args user i rest s0) !! t = Some l → l ≠ []) as Hargs.
  { induction rest as [|a rest IH]; intros i s0 Hs0; cbn; [done|].
    apply IH. by apply Push_entry. }
  assert (∀ rest i s0 s1, Visit_inputs user i rest s0 = Ok s1 →
            (∀ t l, uses_ s0 !! t = Some l → l ≠ []) →
            ∀ t l, uses_ s1 !! t = Some l → l ≠ []) as Hinputs.
  { induction rest as [|a rest IH]; intros i s0 s1 Hvisit Hs0; cbn in Hvisit.
    - by injection Hvisit as <-.
    - destruct (ref a) as [r|]; [|done]. eapply IH; [done|]. by apply Push_entry. }
  destruct n as [c|c| | | |]; cbn [Visit]; try by intros [= <-].
  - intros [= <-]. apply Hargs.
  - destruct (Visit_inputs user 0 (inputs c) s) as [s1| | |] eqn:Hvisit; try done.
    destruct (use_default c) as [d|]; intros [= <-] Hs.
    + apply Push_entry. by eapply Hinputs.
    + by eapply Hinputs.
Qed.

(** Popping a node that was visited before. *)
Lemma traversing_skip e rest seen us :
  e ∈ seen →
  traversing h src {| stack_ := e :: rest; seen_ := seen; uses_ := us |} →
  traversing h src {| stack_ := rest; seen_ := seen; uses_ := us |}.
Proof.
  intros He [Huses Honce Hentry Hfront Hroot Hwithin]. split; cbn in *; try done.
  - intros user t Hu Hop. destruct (Hfront user t Hu Hop) as [?|[-> | ?]%elem_of_cons]; auto.
  - destruct Hroot as [?|[-> | ?]%elem_of_cons]; auto.
  - intros a [?|?]; apply Hwithin; [by left|]. right. by right.
Qed.

(** Popping a node for the first time and visiting it. *)
Lemma traversing_visit e x rest seen us s' :
  e ∉ seen →
  h !! e = Some x →
  Visit e (node x) {| stack_ := rest; seen_ := {[e]} ∪ seen; uses_ := us |} = Ok s' →
  traversing h src {| stack_ := e :: rest; seen_ := seen; uses_ := us |} →
  traversing h src s'.
Proof.
  intros Hnew Hx Hvisit [Huses Honce Hentry Hfront Hroot Hwithin].
  pose proof (Visit_entry _ _ _ _ Hvisit) as Hentry'.
  apply Visit_exact in Hvisit as (Hseen & Hrec & Hstack). cbn in *.
  assert (∀ t, Some t ∈ operand_refs (node x) ↔ operand h e t) as Hop.
  { intros t. split; [intros ?; by exists x | by intros (x' & [= <-]%(eq_trans (eq_sym Hx)) & ?)]. }
  split.
  - intros t use. rewrite Hrec, elem_of_app, Hseen, elem_of_union, elem_of_singleton.
    unfold recorded in Huses. cbn in Huses. unfold recorded at 1. cbn.
    rewrite Huses, uses_at_elem. split.
    + intros [[Hin Hat] | (Hu & k & Hk & Hl)]; [by auto|].
      split; [by left|]. exists x. rewrite Hu. split; [done|].
      by replace (idx use) with k by lia.
    + intros [[Hu | Hin] Hat]; [|by left]. right. split; [done|].
      destruct Hat as (x' & Hx' & Hat). rewrite Hu, Hx in Hx'. injection Hx' as <-.
      by exists (idx use).
  - intros t. rewrite Hrec. apply NoDup_app. split; [apply Honce|].
    split; [|apply uses_at_NoDup].
    intros use Hin (Hu & _)%uses_at_elem. apply Huses in Hin as [Hin _]. congruence.
  - apply Hentry'. cbn. apply Hentry.
  - intros user t. rewrite Hseen, !elem_of_union, !elem_of_singleton, Hstack.
    intros [-> | Hu] Hoper.
    + right. right. by apply Hop.
    + destruct (Hfront user t Hu Hoper) as [?|[-> | ?]%elem_of_cons]; auto.
  - rewrite Hseen, elem_of_union, elem_of_singleton, Hstack.
    destruct Hroot as [?|[-> | ?]%elem_of_cons]; auto.
  - intros a. rewrite Hseen, elem_of_union, elem_of_singleton, Hstack.
    assert (reachable h src e) as He by (apply Hwithin; right; by left).
    intros [[-> | ?] | [? | Ha]]; [done|apply Hwithin; by left|apply Hwithin; right; by right|].
    eapply rtc_r; [done|]. by apply Hop.
Qed.

Lemma run_traversing fuel :
  ∀ s u, traversing h src s → run h fuel s = Ok u → traversing h src u ∧ stack_ u = [].
Proof.
  induction fuel as [|fuel IH]; intros [[|e rest] seen us] u Hs Hrun;
    cbn [run stack_ seen_ uses_] in Hrun; try (by injection Hrun as <-); [done|].
  destruct (decide (e ∈ seen)) as [Hseen|Hnew].
  - eapply IH; [|done]. by apply (traversing_skip e).
  - destruct (h !! e) as [x|] eqn:Hx; [|done].
    destruct (Visit e (node x) _) as [s2| | |] eqn:Hvisit; try done.
    eapply IH; [|done]. by eapply (traversing_visit e x).
Qed.

(** What the constructor leaves. *)
Lemma make_traversing u :
  make h src = Ok u → traversing h src u ∧ stack_ u = [].
Proof.
  apply run_traversing. split; cbn.
  - intros t use. unfold recorded. cbn. rewrite lookup_empty. cbn.
    rewrite elem_of_nil, elem_of_empty. tauto.
  - intros t. unfold recorded. cbn. rewrite lookup_empty. constructor.
  - intros t l Hl. by rewrite lookup_empty in Hl.
  - intros user t Hu. by apply elem_of_empty in Hu.
  - right. by left.
  - intros e [He | ->%list_elem_of_singleton]; [by apply elem_of_empty in He|]. apply rtc_refl.
Qed.

(** The visited set is closed under operands once the stack is empty. *)
Lemma traversing_complete u e :
  traversing h src u → stack_ u = [] → reachable h src e → e ∈ seen_ u.
Proof.
  intros [_ _ _ Hfront Hroot _] Hstack Hreach. rewrite Hstack in Hfront, Hroot.
  revert e Hreach. apply (rtc_ind_r (fun e => e ∈ seen_ u)).
  - destruct Hroot as [?|?%elem_of_nil]; done.
  - intros a b _ Hb IH. destruct (Hfront a b IH Hb) as [?|?%elem_of_nil]; done.
Qed.

End UseGraphTraversal.

Section UseGraphTheorems.
Import ComputeUses.

(** X1: on a closed heap (every operand of every node is the address of a
    node, and no input has a null [ref]) the constructor of [ComputeUses]
    returns, with its stack drained. *)
Theorem ComputeUses_returns (h : Heap) (src : ExprPtr) :
  closed h → src < length h →
  ∃ u, make h src = Ok u ∧ stack_ u = [].
Proof.
  intros Hclosed Hsrc. destruct (make_spec h src Hclosed Hsrc) as (u & Hmake & _).
  exists u. split; [done|]. by apply (make_traversing h src).
Qed.

(** X2: the nodes the traversal marks as seen are exactly those in the
    dependency graph of the root. *)
Theorem ComputeUses_visits_reachable (h : Heap) (src : ExprPtr) (u : t) (e : ExprPtr) :
  make h src = Ok u →
  e ∈ seen_ u ↔ reachable h src e.
Proof.
  intros [Htr Hstack]%make_traversing. split.
  - intros He. apply (tr_within _ _ _ Htr). by left.
  - by apply traversing_complete.
Qed.

(** X3: [uses_[t]] holds exactly the pairs [(user, i)] such that [user] is
    in the dependency graph of the root and [t] is its operand at position
    [i], each pair once. *)
Theorem ComputeUses_records_uses (h : Heap) (src : ExprPtr) (u : t) (t0 : ExprPtr) :
  make h src = Ok u →
  NoDup (recorded u t0) ∧
  ∀ use, use ∈ recorded u t0 ↔
         reachable h src (expr use) ∧ operand_at h (expr use) (idx use) t0.
Proof.
  intros [Htr Hstack]%make_traversing. split; [by apply (tr_once _ _ _ Htr)|].
  intros use. rewrite (tr_uses _ _ _ Htr). split; intros [Hu Hat]; (split; [|done]).
  - apply (tr_within _ _ _ Htr). by left.
  - by apply (traversing_complete h src).
Qed.

(** X4: [uses(t)] throws [std::out_of_range] exactly when no node of the
    dependency graph of the root has [t] as an operand, and the list it
    returns otherwise is not empty. *)
Theorem ComputeUses_uses_throws (h : Heap) (src : ExprPtr) (u : t) (t0 : ExprPtr) :
  make h src = Ok u →
  (uses u t0 = Throw out_of_range ↔
   ∀ user i, reachable h src user → ¬ operand_at h user i t0) ∧
  (∀ l, uses u t0 = Ok l → l ≠ []).
Proof.
  intros [Htr Hstack]%make_traversing. unfold uses.
  pose proof (tr_uses _ _ _ Htr t0) as Huses. pose proof (tr_entry _ _ _ Htr t0) as Hentry.
  unfold recorded in Huses. destruct (uses_ u !! t0) as [l|]; cbn in Huses.
  - split; [|by intros l' [= <-]; apply Hentry]. split; [done|]. intros Hnone. exfalso.
    destruct l as [|use l]; [by apply (Hentry []) |].
    destruct (proj1 (Huses use)) as [Hu Hat]; [by left|].
    eapply Hnone; [|done]. apply (tr_within _ _ _ Htr). by left.
  - split; [|done]. split; [|done]. intros _ user i Hreach Hat.
    apply (elem_of_nil {| expr := user; idx := i |}). apply Huses. split; [|done].
    by apply (traversing_complete h src).
Qed.

(** X5: every recorded use names a call with [t] as argument [idx], or a
    contraction with [t] as the [ref] of input [idx] or, at [idx] equal to
    the number of inputs, as its default: the user is never another kind
    of node, [idx] is never out of range, and it names the default slot
    only when there is a default. *)
Theorem ComputeUses_records_slots (h : Heap) (src : ExprPtr) (u : t) (t0 : ExprPtr)
    (use : UseInfo) :
  make h src = Ok u →
  use ∈ recorded u t0 →
  ∃ x, h !! expr use = Some x ∧
       match node x with
       | Call c => args c !! idx use = Some t0
       | Contraction c =>
           (∃ input, inputs c !! idx use = Some input ∧ ref input = Some t0) ∨
           (idx use = length (inputs c) ∧ use_default c = Some t0)
       | _ => False
       end.
Proof.
  intros [Htr Hstack]%make_traversing Hin.
  apply (tr_uses _ _ _ Htr) in Hin as [_ (x & Hx & Hat)]. exists x. split; [done|].
  destruct (node x) as [c|c| | | |]; cbn in Hat; try done.
  - rewrite list_lookup_fmap in Hat.
    destruct (args c !! idx use) as [a|]; [|done]. cbn in Hat. congruence.
  - apply lookup_app_Some in Hat as [Hat | [Hge Hat]].
    + left. rewrite list_lookup_fmap in Hat.
      destruct (inputs c !! idx use) as [input|]; [|done]. exists input. split; [done|].
      cbn in Hat. congruence.
    + right. rewrite length_fmap in Hge, Hat.
      destruct (use_default c) as [d|]; [|done].
      apply list_lookup_singleton_Some in Hat as [Hi [= ->]]. split; [lia|done].
Qed.

End UseGraphTheorems.

Section UseGraphExamples.
Import Examples.

Lemma add_x_x_uses : ComputeUses.make add_x_x 1 = Ok (uses_of add_x_x 1).
Proof. vm_compute. reflexivity. Defined.

Lemma add_x_x_recorded :
  recorded (uses_of add_x_x 1) 0 = [{| expr := 1; idx := 0 |}; {| expr := 1; idx := 1 |}].
Proof. vm_compute. reflexivity. Defined.

Lemma ComputeUses_returns_witness :
  ∃ u, ComputeUses.make add_x_x 1 = Ok u ∧ ComputeUses.stack_ u = [].
Proof. apply ComputeUses_returns; [reflexivity | cbn; lia]. Defined.

Lemma ComputeUses_visits_reachable_witness :
  0 ∈ ComputeUses.seen_ (uses_of add_x_x 1) ↔ reachable add_x_x 1 0.
Proof. apply ComputeUses_visits_reachable. exact add_x_x_uses. Defined.

Lemma ComputeUses_records_uses_witness :
  NoDup (recorded (uses_of add_x_x 1) 0) ∧
  ({| expr := 1; idx := 1 |} ∈ recorded (uses_of add_x_x 1) 0 ↔
   reachable add_x_x 1 1 ∧ operand_at add_x_x 1 1 0).
Proof.
  destruct (ComputeUses_records_uses add_x_x 1 (uses_of add_x_x 1) 0 add_x_x_uses)
    as [Honce Hiff].
  split; [exact Honce | exact (Hiff {| expr := 1; idx := 1 |})].
Defined.

Lemma ComputeUses_uses_throws_witness :
  ComputeUses.uses (uses_of add_x_x 1) 2 = Throw out_of_range ↔
  ∀ user i, reachable add_x_x 1 user → ¬ operand_at add_x_x user i 2.
Proof.
  exact (proj1 (ComputeUses_uses_throws add_x_x 1 (uses_of add_x_x 1) 2 add_x_x_uses)).
Defined.

Lemma ComputeUses_records_slots_witness :
  ∃ x, add_x_x !! 1 = Some x ∧
       match node x with
       | Call c => args c !! 1 = Some 0
       | Contraction c =>
           (∃ input, inputs c !! 1 = Some input ∧ ref input = Some 0) ∨
           (1 = length (inputs c) ∧ use_default c = Some 0)
       | _ => False
       end.
Proof.
  apply (ComputeUses_records_slots add_x_x 1 (uses_of add_x_x 1) 0
           {| expr := 1; idx := 1 |} add_x_x_uses).
  rewrite add_x_x_recorded. right. left.
Defined.

End UseGraphExamples.

(** * Ordered heaps *)

Section OrderedHeap.
Import ComputeUses.

Lemma ordered_operand (h : Heap) (a b : ExprPtr) : ordered h → operand h a b → b < a.
Proof.
  intros Hord (x & Hx & Hb). specialize (Hord a x Hx). unfold node_ok in Hord.
  rewrite forallb_forall in Hord.
  specialize (Hord (Some b) (proj1 (list_elem_of_In _ _) Hb)). by apply Nat.ltb_lt.
Qed.

Lemma ordered_reachable (h : Heap) (src e : ExprPtr) :
  ordered h → reachable h src e → e ≤ src.
Proof.
  intros Hord Hreach. revert e Hreach. apply (rtc_ind_r (fun e => e ≤ src)); [done|].
  intros a b _ Hab Ha. pose proof (ordered_operand h a b Hord Hab). lia.
Qed.

(** X6: on an ordered heap (every operand has a smaller address than its
    user) every recorded user of [t] lies strictly above [t] and not above
    the root, and the root itself has no entry: [uses(root)] throws. *)
Theorem ComputeUses_ordered (h : Heap) (src : ExprPtr) (u : t) :
  ordered h →
  make h src = Ok u →
  (∀ t0 use, use ∈ recorded u t0 → t0 < expr use ≤ src) ∧
  uses u src = Throw out_of_range.
Proof.
  intros Hord [Htr Hstack]%make_traversing.
  assert (∀ t0 use, use ∈ recorded u t0 → t0 < expr use ≤ src) as Hasc.
  { intros t0 use [Hseen (x & Hx & Hat)]%(tr_uses _ _ _ Htr). split.
    - apply (ordered_operand h). { done. } exists x. split; [done|].
      by eapply list_elem_of_lookup_2.
    - apply (ordered_reachable h); [done|]. apply (tr_within _ _ _ Htr). by left. }
  split; [done|]. unfold uses. destruct (uses_ u !! src) as [l|] eqn:Hl; [|done].
  destruct l as [|use l]; [by destruct (tr_entry _ _ _ Htr src [])|].
  specialize (Hasc src use). unfold recorded in Hasc. rewrite Hl in Hasc.
  specialize (Hasc ltac:(by left)). lia.
Qed.

End OrderedHeap.

Section OrderedHeapExamples.
Import Examples.

Lemma add_x_x_is_ordered : ordered add_x_x.
Proof.
  intros i e He. do 3 (destruct i as [|i]; [by injection He as <-|]). done.
Defined.

Lemma ComputeUses_ordered_witness :
  ComputeUses.uses (uses_of add_x_x 1) 1 = Throw out_of_range.
Proof.
  exact (proj2 (ComputeUses_ordered add_x_x 1 (uses_of add_x_x 1)
                  add_x_x_is_ordered add_x_x_uses)).
Defined.

End OrderedHeapExamples.

(** * The gradients returned *)

(** Every cached derivative is the address of an expression of the heap. *)
Definition live (st : State) : Prop :=
  ∀ e d, seen_ st !! e = Some d → d < length (heap st).

Section Returned.
Context `{ShapeInference} `{DerivRegistry}.
Variable u : ComputeUses.t.

Implicit Types (GD : ExprPtr → M State ExprPtr) (st : State) (h : Heap).

Lemma live_extend st st' :
  live st → seen_ st' = seen_ st → heap st `prefix_of` heap st' → live st'.
Proof.
  intros Hlive Hseen Hpre e d Hd. rewrite Hseen in Hd.
  pose proof (Hlive e d Hd). apply prefix_length in Hpre. lia.
Qed.

Lemma iteration_extends GD use total st t' st' :
  registry_extends →
  iteration GD use total st = Ok (t', st') →
  ∃ dout st1, GD (expr use) st = Ok (dout, st1) ∧ seen_ st' = seen_ st1 ∧
              heap st1 `prefix_of` heap st'.
Proof.
  intros Hreg Hit. unfold iteration in Hit.
  apply bind_Ok in Hit as (dop & st2 & Hdop & Hadd).
  apply use_dop_Ok in Hdop as (dout & st1 & Hget & Hseen & Hpre).
  exists dout, st1. split; [done|]. destruct total as [t|].
  - apply on_heap_Ok in Hadd as [Hadd Hseen']. apply MakeCall_Ok in Hadd as (sh & _ & Hheap).
    split; [congruence|]. etrans; [by apply Hpre|]. rewrite Hheap. by apply prefix_app_r.
  - injection Hadd as <- <-. split; [done|]. by apply Hpre.
Qed.

(** The result of lines 103-107 is an expression of the heap they leave. *)
Lemma finish_total_live total e h r h' :
  finish_total total e h = Ok (r, h') → h `prefix_of` h' ∧ r < length h'.
Proof.
  destruct total as [t|]; cbn.
  - destruct (h !! t) as [te|] eqn:Ht; [|done]. destruct (decide _).
    + intros [= <- <-]. split; [done|]. by eapply lookup_lt_Some.
    + intros (sh & -> & ->)%MakeCall_Ok. split; [by apply prefix_app_r|].
      rewrite length_app. cbn. lia.
  - intros [= <- <-]. split; [by apply prefix_app_r|]. rewrite length_app. cbn. lia.
Qed.

Lemma accumulate_live GD :
  registry_extends →
  (∀ e st r st', live st → GD e st = Ok (r, st') →
                 live st' ∧ heap st `prefix_of` heap st') →
  ∀ us total st total' st',
    live st → accumulate GD us total st = Ok (total', st') →
    live st' ∧ heap st `prefix_of` heap st'.
Proof.
  intros Hreg Hget. induction us as [|use us IH]; intros total st total' st' Hlive Hacc;
    cbn in Hacc.
  - by injection Hacc as <- <-.
  - apply bind_Ok in Hacc as (t1 & st1 & Hit & Hrest).
    apply (iteration_extends _ _ _ _ _ _ Hreg) in Hit as (dout & st2 & Hcall & Hseen & Hpre).
    destruct (Hget _ _ _ _ Hlive Hcall) as [Hlive2 Hpre2].
    destruct (IH _ _ _ _ (live_extend _ _ Hlive2 Hseen Hpre) Hrest) as [Hlive' Hpre'].
    split; [done|]. by repeat (etrans; [done|]).
Qed.

(** A successful call keeps the cache live, extends the heap, and returns
    an expression of the heap it leaves. *)
Lemma GetDerivative_live fuel :
  registry_extends →
  ∀ e st r st',
    live st → GetDerivative u fuel e st = Ok (r, st') →
    live st' ∧ heap st `prefix_of` heap st' ∧ r < length (heap st').
Proof.
  intros Hreg. induction fuel as [|fuel IH]; intros e st r st' Hlive Hget; [done|].
  cbn in Hget. destruct (seen_ st !! e) as [d|] eqn:He.
  { unfold GetDerivative_body in Hget. rewrite He in Hget. injection Hget as <- <-.
    split; [done|]. split; [done|]. by eapply Hlive. }
  apply GetDerivative_body_miss in Hget as (us & total & st1 & st2 & _ & Hacc & Hfin & Hemp);
    [|done].
  apply accumulate_live in Hacc as [Hlive1 Hpre1]; [|done| |done].
  2: { intros e0 st0 r0 st0' Hl Hg. destruct (IH _ _ _ _ Hl Hg) as (? & ? & _). done. }
  apply on_heap_Ok in Hfin as [Hfin Hseen2].
  apply finish_total_live in Hfin as [Hpre2 Hr].
  apply emplace_spec in Hemp as [Hheap Hseen']. rewrite Hheap.
  split; [|split; [by etrans|done]].
  intros e0 d. rewrite Hseen', Hheap, Hseen2.
  pose proof (live_extend st1 st2 Hlive1 Hseen2 Hpre2) as Hlive2.
  destruct (seen_ st1 !! e) eqn:He1.
  - intros Hd. apply (Hlive2 e0 d). by rewrite Hseen2.
  - destruct (decide (e = e0)) as [->|Hne].
    + rewrite lookup_insert_eq. by intros [= <-].
    + rewrite lookup_insert_ne by done. intros Hd. apply (Hlive2 e0 d). by rewrite Hseen2.
Qed.

(** The loop over the targets leaves each target in the cache with the
    gradient returned for it. *)
Lemma derivatives_cached fuel ws :
  ∀ st ds st',
    derivatives u fuel ws st = Ok (ds, st') →
    seen_ st ⊆ seen_ st' ∧ Forall2 (fun w d => seen_ st' !! w = Some d) ws ds.
Proof.
  pose proof (GetDerivative_well_behaved u fuel) as Hwb.
  induction ws as [|w ws IH]; intros st ds st' Hm; cbn in Hm.
  - injection Hm as <- <-. split; [done|constructor].
  - apply bind_Ok in Hm as (d & st1 & Hget & Hm).
    apply bind_Ok in Hm as (ds' & st2 & Hrest & Hret). injection Hret as <- <-.
    destruct (IH _ _ _ Hrest) as [Hsub Hall].
    split; [etrans; [by eapply wb_grows|done]|]. constructor; [|done].
    eapply lookup_weaken; [|done].
    destruct (seen_ st !! w) as [d0|] eqn:Hw; [|by eapply wb_stores].
    destruct fuel as [|fuel']; [done|]. cbn in Hget. unfold GetDerivative_body in Hget.
    rewrite Hw in Hget. injection Hget as <- <-. done.
Qed.

Lemma derivatives_live fuel ws :
  registry_extends →
  ∀ st ds st',
    live st → derivatives u fuel ws st = Ok (ds, st') →
    heap st `prefix_of` heap st' ∧ ∀ d, d ∈ ds → d < length (heap st').
Proof.
  intros Hreg. induction ws as [|w ws IH]; intros st ds st' Hlive Hm; cbn in Hm.
  - injection Hm as <- <-. split; [done|]. by intros d ?%elem_of_nil.
  - apply bind_Ok in Hm as (d & st1 & Hget & Hm).
    apply bind_Ok in Hm as (ds' & st2 & Hrest & Hret). injection Hret as <- <-.
    destruct (GetDerivative_live fuel Hreg _ _ _ _ Hlive Hget) as (Hlive1 & Hpre1 & Hd).
    destruct (IH _ _ _ Hlive1 Hrest) as [Hpre2 Hds]. split; [by etrans|].
    intros d0 [-> | Hin]%elem_of_cons; [|by apply Hds].
    apply prefix_length in Hpre2. lia.
Qed.

End Returned.

Section ReturnedTheorems.
Context `{ShapeInference} `{DerivRegistry}.

Lemma ComputeGradients_Ok fuel wrts loss h ret h' :
  ComputeGradients fuel wrts loss h = Ok (ret, h') →
  ∃ value h1 u st',
    loss_value loss h = Ok (value, h1) ∧
    Gradient_new value h1 = Ok (u, seeded_state value h1) ∧
    derivatives u fuel wrts (seeded_state value h1) = Ok (ret, st') ∧
    h' = heap st'.
Proof.
  unfold ComputeGradients. intros Hm. apply bind_Ok in Hm as (value & h1 & Hval & Hm).
  exists value, h1. unfold Gradient_new in *.
  destruct (ComputeUses.make h1 value) as [u| | |]; try done.
  destruct (derivatives u fuel wrts _) as [[ret' st']| | |] eqn:Hds; try done.
  injection Hm as <- <-. by exists u, st'.
Qed.

Lemma derivatives_take u fuel ws :
  ∀ st ds st' n,
    derivatives u fuel ws st = Ok (ds, st') →
    ∃ st_n, derivatives u fuel (take n ws) st = Ok (take n ds, st_n).
Proof.
  induction ws as [|w ws IH]; intros st ds st' n Hm; cbn in Hm.
  - injection Hm as <- <-. exists st. by destruct n.
  - apply bind_Ok in Hm as (d & st1 & Hget & Hm).
    apply bind_Ok in Hm as (ds' & st2 & Hrest & Hret). injection Hret as <- <-.
    destruct n as [|n]; [by exists st|].
    destruct (IH _ _ _ n Hrest) as (st_n & Htake). exists st_n.
    cbn [take derivatives]. unfold bind. by rewrite Hget, Htake.
Qed.

(** X7: [ComputeGradients] returns one gradient per target, in the order
    of [wrts]: the list returned is the one the loop over [wrts] builds
    from the seeded propagator, and its element [i] is the gradient of
    target [i], that is, what the propagator holds for [wrts[i]] when the
    loop ends, and what [GetDerivative(wrts[i])] returns then; the
    gradients of the first [i+1] targets are what [ComputeGradients]
    returns for these targets alone.  Targets that are the same expression
    receive the same gradient object. *)
Theorem ComputeGradients_per_target fuel wrts loss h ret h' :
  ComputeGradients fuel wrts loss h = Ok (ret, h') →
  ∃ value h1 u st',
    loss_value loss h = Ok (value, h1) ∧
    Gradient_new value h1 = Ok (u, seeded_state value h1) ∧
    derivatives u fuel wrts (seeded_state value h1) = Ok (ret, st') ∧
    h' = heap st' ∧
    length ret = length wrts ∧
    (∀ i w, wrts !! i = Some w →
       ∃ d, ret !! i = Some d ∧
            seen_ st' !! w = Some d ∧
            (∀ k, GetDerivative u (S k) w st' = Ok (d, st')) ∧
            ∃ h_i, ComputeGradients fuel (take (S i) wrts) loss h
                   = Ok (take (S i) ret, h_i)) ∧
    (∀ i j w, wrts !! i = Some w → wrts !! j = Some w →
              is_Some (ret !! i) ∧ ret !! i = ret !! j).
Proof.
  intros (value & h1 & u & st' & Hval & Hnew & Hds & Hh')%ComputeGradients_Ok.
  exists value, h1, u, st'. do 4 (split; [done|]).
  destruct (derivatives_cached u fuel wrts _ _ _ Hds) as [_ Hall].
  split; [symmetry; by eapply Forall2_length|]. split.
  - intros i w Hi. destruct (Forall2_lookup_l _ _ _ _ _ Hall Hi) as (d & Hd & Hc).
    exists d. do 2 (split; [done|]). split; [intros k; by apply GetDerivative_cached|].
    destruct (derivatives_take u fuel wrts _ _ _ (S i) Hds) as (st_i & Htake).
    exists (heap st_i). unfold ComputeGradients, bind. by rewrite Hval, Hnew, Htake.
  - intros i j w Hi Hj.
    destruct (Forall2_lookup_l _ _ _ _ _ Hall Hi) as (di & Hdi & Hci).
    destruct (Forall2_lookup_l _ _ _ _ _ Hall Hj) as (dj & Hdj & Hcj).
    rewrite Hdi, Hdj. split; [done|]. congruence.
Qed.

(** X8: when the rules of the registry only allocate, [ComputeGradients]
    leaves every expression of the graph it was given in place, and every
    gradient it returns is an expression of the heap it returns. *)
Theorem ComputeGradients_allocates fuel wrts loss h ret h' :
  registry_extends →
  ComputeGradients fuel wrts loss h = Ok (ret, h') →
  h `prefix_of` h' ∧ ∀ d, d ∈ ret → d < length h'.
Proof.
  intros Hreg (value & h1 & u & st' & Hval & _ & Hds & ->)%ComputeGradients_Ok.
  assert (h `prefix_of` h1) as Hpre1.
  { unfold loss_value in Hval. destruct (h !! loss); [|done].
    destruct (decide _); [by injection Hval as _ <-|]. by eapply finish_contraction_extends. }
  apply derivatives_live in Hds as [Hpre2 Hlive]; [|done|].
  - split; [|done]. etrans; [done|]. etrans; [|done]. by apply prefix_app_r.
  - intros e d. cbn. intros [[_ <-] | [_ Hd]]%lookup_insert_Some.
    + rewrite length_app. cbn. lia.
    + by rewrite lookup_empty in Hd.
Qed.

End ReturnedTheorems.

Section ReturnedExamples.
Import Examples.

Lemma ComputeGradients_add_x_x :
  ComputeGradients 3 [0; 1; 0] 1 add_x_x = Ok ([4; 3; 4], heap add_x_x_done).
Proof. vm_compute. reflexivity. Defined.

Lemma ComputeGradients_per_target_witness :
  ∃ value h1 u st',
    loss_value 1 add_x_x = Ok (value, h1) ∧
    Gradient_new value h1 = Ok (u, seeded_state value h1) ∧
    derivatives u 3 [0; 1; 0] (seeded_state value h1) = Ok ([4; 3; 4], st') ∧
    heap add_x_x_done = heap st' ∧
    length [4; 3; 4] = length [0; 1; 0] ∧
    (∀ i w, [0; 1; 0] !! i = Some w →
       ∃ d, [4; 3; 4] !! i = Some d ∧
            seen_ st' !! w = Some d ∧
            (∀ k, GetDerivative u (S k) w st' = Ok (d, st')) ∧
            ∃ h_i, ComputeGradients 3 (take (S i) [0; 1; 0]) 1 add_x_x
                   = Ok (take (S i) [4; 3; 4], h_i)) ∧
    (∀ i j w, [0; 1; 0] !! i = Some w → [0; 1; 0] !! j = Some w →
              is_Some ([4; 3; 4] !! i) ∧ [4; 3; 4] !! i = [4; 3; 4] !! j).
Proof.
  exact (ComputeGradients_per_target 3 [0; 1; 0] 1 add_x_x [4; 3; 4] (heap add_x_x_done)
           ComputeGradients_add_x_x).
Defined.

Lemma ComputeGradients_allocates_witness :
  add_x_x `prefix_of` heap add_x_x_done ∧
  ∀ d, d ∈ [4; 3; 4] → d < length (heap add_x_x_done).
Proof.
  exact (ComputeGradients_allocates 3 [0; 1; 0] 1 add_x_x [4; 3; 4] (heap add_x_x_done)
           registry_only_allocates ComputeGradients_add_x_x).
Defined.

End ReturnedExamples.

(** * More of the contraction rules *)

Section MoreContractionRules.
Context `{ShapeInference}.

Implicit Types (dout p idx : nat) (e op : ContractionExpr) (h : Heap).

(** The loop keeps what it has accumulated and, when it passes position
    [idx], adds [dout]. *)
Lemma SumOp_loop_inputs op dout idx rest :
  ∀ i acc ins combo,
    SumOp_loop op dout idx i rest acc = Ok (ins, combo) →
    (∀ x, x ∈ acc.1 → x ∈ ins) ∧
    (i ≤ idx < i + length rest → dout_spec dout op ∈ ins).
Proof.
  induction rest as [|x rest IH]; intros i acc ins combo Hloop; cbn [SumOp_loop] in Hloop.
  - injection Hloop as ->. split; [done|]. cbn. lia.
  - destruct (decide (idx = i)) as [->|Hne].
    + destruct (IH _ _ _ _ Hloop) as [Hacc _]. cbn in Hacc. split.
      * intros y Hy. apply Hacc, elem_of_app. by left.
      * intros _. apply Hacc, elem_of_app. right. by left.
    + destruct (combo_op op); try done; destruct (IH _ _ _ _ Hloop) as [Hacc Hd]; cbn in *.
      * split; [intros y Hy; apply Hacc, elem_of_app; by left|]. intros Hi. apply Hd. lia.
      * split; [done|]. intros Hi. apply Hd. lia.
Qed.

(** What [SumOp] returns, whenever it returns. *)
Lemma SumOp_result dout e idx h g h' :
  SumOp dout e idx h = Ok (g, h') →
  ∃ ins combo input r re sh,
    SumOp_loop e dout idx 0 (inputs e) ([], CombinationOp.NONE) = Ok (ins, combo) ∧
    inputs e !! idx = Some input ∧ ref input = Some r ∧ h !! r = Some re ∧
    g = length h ∧
    h' = h ++ [{| node := Contraction (transposed combo ins e input re); shape := sh |}].
Proof.
  unfold SumOp. destruct (decide _); [done|]. intros Hm.
  apply bind_Ok in Hm as ([ins combo] & h1 & Hloop & Hm).
  apply run_pure_Ok in Hloop as [Hloop ->].
  destruct (inputs e !! idx) as [input|] eqn:Hin; [|done].
  apply bind_Ok in Hm as (shp & h2 & Hsh & Hm). unfold ref_shape in Hsh.
  destruct (ref input) as [r|] eqn:Hr; [|done]. destruct (h !! r) as [re|] eqn:Hre; [|done].
  injection Hsh as <- <-. unfold finish_contraction in Hm.
  apply bind_Ok in Hm as (sh & h3 & Hsh & Hm). apply run_pure_Ok in Hsh as [_ ->].
  injection Hm as <- <-. by exists ins, combo, input, r, re, sh.
Qed.

Lemma ExtremeOp_result dout p e idx h g h' :
  ExtremeOp dout p e idx h = Ok (g, h') →
  ∃ input r re sh,
    inputs e !! 0 = Some input ∧ ref input = Some r ∧ h !! r = Some re ∧
    g = length h ∧
    h' = h ++ [{| node := Contraction
                    (transposed CombinationOp.COND
                       [input; TensorSpecExpr_in p (index_spec (output e)); dout_spec dout e]
                       e input re);
                  shape := sh |}].
Proof.
  unfold ExtremeOp. destruct (inputs e !! 0) as [input|] eqn:Hin; [|done]. intros Hm.
  apply bind_Ok in Hm as (shp & h2 & Hsh & Hm). unfold ref_shape in Hsh.
  destruct (ref input) as [r|] eqn:Hr; [|done]. destruct (h !! r) as [re|] eqn:Hre; [|done].
  injection Hsh as <- <-. unfold finish_contraction in Hm.
  apply bind_Ok in Hm as (sh & h3 & Hsh & Hm). apply run_pure_Ok in Hsh as [_ ->].
  injection Hm as <- <-. by exists input, r, re, sh.
Qed.

(** X9: whenever [ContractionOp] returns, it has either handed back [dout]
    itself for the default slot, allocating nothing, or allocated exactly
    one expression: the integer constant 0 under an EQ combination, and
    otherwise a contraction with SUM aggregation, no default, the forward
    constraints, [dout] indexed like the forward output among its inputs,
    and an output indexed like one forward input (the differentiated one,
    or the first for MIN and MAX) with the sizes of the expression that
    input refers to. *)
Theorem ContractionOp_result dout p e idx h g h' :
  ContractionOp dout p e idx h = Ok (g, h') →
  (default_slot e idx ∧ g = dout ∧ h' = h) ∨
  (¬ default_slot e idx ∧ g = length h ∧
   ∃ x, h' = h ++ [x] ∧
     (combo_op e = CombinationOp.EQ ∧ x = {| node := IntConst 0; shape := scalar_shape |} ∨
      combo_op e ≠ CombinationOp.EQ ∧
      ∃ dop input r re,
        node x = Contraction dop ∧
        agg_op dop = AggregationOp.SUM ∧ use_default dop = None ∧
        constraints dop = constraints e ∧
        dout_spec dout e ∈ inputs dop ∧
        inputs e !! (match agg_op e with
                     | AggregationOp.MIN | AggregationOp.MAX => 0
                     | _ => idx
                     end) = Some input ∧
        ref input = Some r ∧ h !! r = Some re ∧
        output dop = TensorSpecExpr_out (index_spec input) (dims_as_exprs (shape re)))).
Proof.
  intros Hm. destruct (ContractionOp_cases dout p e idx h) as (Hdefault & Heq & Hagg).
  destruct (decide (is_Some (use_default e) ∧ idx = length (inputs e))) as [Hd|Hd].
  { left. rewrite (Hdefault Hd) in Hm. by injection Hm as <- <-. }
  right. split; [done|].
  destruct (decide (combo_op e = CombinationOp.EQ)) as [Hc|Hc].
  { rewrite (Heq Hd Hc) in Hm. injection Hm as <- <-. split; [done|]. eexists. split; [done|].
    by left. }
  rewrite (Hagg Hd Hc) in Hm.
  assert (SumOp dout e idx h = Ok (g, h') →
          match agg_op e with AggregationOp.MIN | AggregationOp.MAX => 0 | _ => idx end = idx →
          g = length h ∧ ∃ x, h' = h ++ [x] ∧
            (combo_op e = CombinationOp.EQ ∧ x = {| node := IntConst 0; shape := scalar_shape |} ∨
             combo_op e ≠ CombinationOp.EQ ∧
             ∃ dop input r re,
               node x = Contraction dop ∧
               agg_op dop = AggregationOp.SUM ∧ use_default dop = None ∧
               constraints dop = constraints e ∧ dout_spec dout e ∈ inputs dop ∧
               inputs e !! (match agg_op e with
                            | AggregationOp.MIN | AggregationOp.MAX => 0
                            | _ => idx
                            end) = Some input ∧
               ref input = Some r ∧ h !! r = Some re ∧
               output dop = TensorSpecExpr_out (index_spec input) (dims_as_exprs (shape re))))
    as Hsum.
  { intros (ins & combo & input & r & re & sh & Hloop & Hin & Hr & Hre & -> & ->)%SumOp_result
      Hpos.
    split; [done|]. eexists. split; [done|]. right. split; [done|].
    exists (transposed combo ins e input re), input, r, re. rewrite Hpos.
    repeat (split; [done|]). split; [|done]. cbn.
    apply (SumOp_loop_inputs _ _ _ _ _ _ _ _ Hloop). apply lookup_lt_Some in Hin. lia. }
  destruct (agg_op e) eqn:Hagg_e; try done; try (by apply Hsum).
  all: apply ExtremeOp_result in Hm as (input & r & re & sh & Hin & Hr & Hre & -> & ->);
    split; [done|]; eexists; (split; [done|]); right; (split; [done|]);
    exists (transposed CombinationOp.COND
              [input; TensorSpecExpr_in p (index_spec (output e)); dout_spec dout e]
              e input re), input, r, re;
    repeat (split; [done|]); split; [|done]; cbn; right; right; by left.
Qed.

(** X10: with a single input [SumOp] never looks at the combination: for
    every combination the gradient is the SUM/NONE contraction whose only
    input is [dout] indexed like the forward output; [ContractionOp] returns
    it for SUM and ASSIGN aggregations unless the combination is EQ. *)
Theorem SumOp_single_input dout p e h input r re sh :
  inputs e = [input] →
  ref input = Some r →
  h !! r = Some re →
  let dop := transposed CombinationOp.NONE [dout_spec dout e] e input re in
  ContractionExpr_ComputeShape h dop (layout (shape re)) = Ok sh →
  SumOp dout e 0 h = Ok (length h, h ++ [{| node := Contraction dop; shape := sh |}]) ∧
  (agg_op e = AggregationOp.SUM ∨ agg_op e = AggregationOp.ASSIGN →
   combo_op e ≠ CombinationOp.EQ →
   ContractionOp dout p e 0 h = SumOp dout e 0 h).
Proof.
  intros Hin Hr Hre dop Hsh. split.
  - rewrite (SumOp_after_loop dout e 0 h [dout_spec dout e] CombinationOp.NONE input r re);
      [by apply finish_contraction_Ok| |by rewrite Hin|done..].
    rewrite Hin. cbn. by destruct (decide (0 = 0)).
  - intros Hagg Hne.
    rewrite (ContractionOp_input dout p e 0 h input) by (by rewrite Hin || done).
    by destruct Hagg as [-> | ->].
Qed.

(** X11: with two or more inputs [SumOp] returns only under a MULTIPLY or
    a PLUS combination; under MULTIPLY the gradient has as many inputs as
    the forward contraction, under PLUS exactly one. *)
Theorem SumOp_supported dout e idx h g h' :
  1 < length (inputs e) →
  SumOp dout e idx h = Ok (g, h') →
  ∃ dop sh,
    h' = h ++ [{| node := Contraction dop; shape := sh |}] ∧
    (combo_op e = CombinationOp.MULTIPLY ∧ combo_op dop = CombinationOp.MULTIPLY ∧
     length (inputs dop) = length (inputs e) ∨
     combo_op e = CombinationOp.PLUS ∧ combo_op dop = CombinationOp.NONE ∧
     length (inputs dop) = 1).
Proof.
  intros Hlen (ins & combo & input & r & re & sh & Hloop & Hin & Hr & Hre & -> & ->)%SumOp_result.
  exists (transposed combo ins e input re), sh. split; [done|]. cbn.
  apply lookup_lt_Some in Hin as Hidx.
  pose proof (has_other_two idx (inputs e) Hlen) as Hother.
  assert (∀ msg,
            (∀ x rest' i acc, idx ≠ i →
               SumOp_loop e dout idx i (x :: rest') acc = Throw (runtime_error msg)) →
            False) as Hno.
  { intros msg Hstep.
    by rewrite (SumOp_loop_unsupported e dout idx (inputs e) msg Hstep 0 _ Hother) in Hloop. }
  destruct (combo_op e) eqn:Hc.
  - exfalso. eapply Hno. intros x rest' i acc Hne.
    rewrite SumOp_loop_step_ne by done. by rewrite Hc.
  - left. rewrite SumOp_loop_MULTIPLY in Hloop by done. injection Hloop as <- <-. cbn.
    destruct (decide (0 ≤ idx)); [|lia]. rewrite length_insert.
    by destruct (decide (has_other idx 0 (inputs e))).
  - right. rewrite SumOp_loop_PLUS in Hloop by done. injection Hloop as <- <-. cbn.
    case_decide; [done|lia].
  - exfalso. eapply Hno. intros x rest' i acc Hne.
    rewrite SumOp_loop_step_ne by done. by rewrite Hc.
  - exfalso. eapply Hno. intros x rest' i acc Hne.
    rewrite SumOp_loop_step_ne by done. by rewrite Hc.
  - exfalso. eapply Hno. intros x rest' i acc Hne.
    rewrite SumOp_loop_step_ne by done. by rewrite Hc.
Qed.

End MoreContractionRules.

(** * Calls without a derivative *)

Section FirstUse.
Import ComputeUses.
Variables (h : Heap) (src : ExprPtr).

(** The traversal only appends to the use lists. *)
Lemma run_recorded_prefix fuel t0 :
  ∀ s u, run h fuel s = Ok u → recorded s t0 `prefix_of` recorded u t0.
Proof.
  induction fuel as [|fuel IH]; intros [[|e rest] seen us] u Hrun;
    cbn [run stack_ seen_ uses_] in Hrun; try (by injection Hrun as <-); [done|].
  destruct (decide (e ∈ seen)) as [Hseen|Hnew]; [by apply IH in Hrun|].
  destruct (h !! e) as [x|]; [|done].
  destruct (Visit e (node x) _) as [s2| | |] eqn:Hvisit; try done.
  apply Visit_exact in Hvisit as (_ & Hrec & _). apply IH in Hrun.
  etrans; [|done]. rewrite Hrec. by apply prefix_app_r.
Qed.

(** The first uses recorded are those by the root, in the order of its
    operands. *)
Lemma make_first_uses u x t0 :
  make h src = Ok u → h !! src = Some x →
  uses_at src 0 (operand_refs (node x)) t0 `prefix_of` recorded u t0.
Proof.
  unfold make, iterations. cbn [run stack_ seen_ uses_]. intros Hrun Hx.
  destruct (decide (src ∈ (∅ : gset nat))) as [Hin|_]; [by apply elem_of_empty in Hin|].
  rewrite Hx in Hrun.
  destruct (Visit src (node x) _) as [s2| | |] eqn:Hvisit; try done.
  apply Visit_exact in Hvisit as (_ & Hrec & _). apply (run_recorded_prefix _ t0) in Hrun.
  etrans; [|done]. rewrite Hrec. unfold recorded. cbn. by rewrite lookup_empty.
Qed.

Lemma uses_at_head user refs t0 :
  Some t0 ∈ refs → ∀ i, ∃ k rest, uses_at user i refs t0 = {| expr := user; idx := k |} :: rest.
Proof.
  induction refs as [|o refs IH]; intros Hin i; [by apply elem_of_nil in Hin|].
  cbn. destruct (decide (o = Some t0)) as [->|Hne]; [by eexists _, _|].
  apply elem_of_cons in Hin as [?|Hin]; [done|]. by apply IH.
Qed.

(** An operand of the root has the root as its first recorded user. *)
Lemma make_root_first u x t0 :
  make h src = Ok u → h !! src = Some x → Some t0 ∈ operand_refs (node x) →
  ∃ k rest, uses_ u !! t0 = Some ({| expr := src; idx := k |} :: rest).
Proof.
  intros Hmake Hx Hin.
  destruct (uses_at_head src _ t0 Hin 0) as (k & rest & Hhead).
  destruct (make_first_uses u x t0 Hmake Hx) as [more Hrec]. rewrite Hhead in Hrec.
  exists k, (rest ++ more). unfold recorded in Hrec.
  destruct (uses_ u !! t0) as [l|]; [|done]. cbn in Hrec. by rewrite Hrec.
Qed.

End FirstUse.

Section NotImplemented.
Context `{ShapeInference} `{DerivRegistry}.

(** The three calls [CallOp] knows by name and does not differentiate. *)
Definition not_implemented (f : string) : Prop :=
  f = "tuple" ∨ f = "element" ∨ f = "reshape".

Lemma CallOp_not_implemented dout p c idx h :
  not_implemented (fn c) →
  CallOp dout p c idx h =
  Throw (runtime_error ("Not implemented: " +:+ fn c +:+ " in CallOp")).
Proof.
  unfold CallOp. intros [Hf | [Hf | Hf]]; rewrite Hf; reflexivity.
Qed.

(** When the first recorded user of a node is a cached call of one of the
    three, [GetDerivative] throws at that use. *)
Lemma GetDerivative_not_implemented u fuel e st use rest dout x c :
  seen_ st !! e = None →
  ComputeUses.uses_ u !! e = Some (use :: rest) →
  seen_ st !! expr use = Some dout →
  heap st !! expr use = Some x → node x = Call c →
  not_implemented (fn c) →
  GetDerivative u (S (S fuel)) e st =
  Throw (runtime_error ("Not implemented: " +:+ fn c +:+ " in CallOp")).
Proof.
  intros He Hus Hdout Hx Hc Hf.
  change (GetDerivative u (S (S fuel)) e st)
    with (GetDerivative_body u (GetDerivative u (S fuel)) e st).
  unfold GetDerivative_body. rewrite He.
  unfold bind at 1, run_pure, ComputeUses.uses. rewrite Hus.
  cbn [accumulate]. unfold bind at 1 2, iteration, bind at 1, use_dop, bind at 1.
  rewrite (GetDerivative_cached u fuel _ _ _ Hdout).
  unfold on_heap. rewrite Hx, Hc. by rewrite CallOp_not_implemented.
Qed.

(** X12: when the loss is a scalar call of ["tuple"], ["element"] or
    ["reshape"], asking for the gradient of one of its arguments makes
    [ComputeGradients] throw "Not implemented: ... in CallOp", whatever the
    registry holds for that name and whatever the other targets are. *)
Theorem ComputeGradients_not_implemented fuel h loss x c t0 wrts :
  closed h →
  h !! loss = Some x → node x = Call c → dims (shape x) = [] →
  not_implemented (fn c) →
  t0 ∈ args c → t0 ≠ loss →
  ComputeGradients (S (S fuel)) (t0 :: wrts) loss h =
  Throw (runtime_error ("Not implemented: " +:+ fn c +:+ " in CallOp")).
Proof.
  intros Hclosed Hx Hc Hrank Hf Hin Hne. apply lookup_lt_Some in Hx as Hlt.
  unfold ComputeGradients, bind. rewrite (loss_value_spec h loss x Hx), Hrank. cbn [length].
  destruct (decide (0 = 0)); [|done].
  destruct (Gradient_new_spec h loss Hclosed Hlt) as (u & Hnew & _). rewrite Hnew.
  assert (ComputeUses.make h loss = Ok u) as Hmake.
  { unfold Gradient_new in Hnew. destruct (ComputeUses.make h loss); try done.
    by injection Hnew as ->. }
  destruct (make_root_first h loss u x t0 Hmake Hx) as (k & rest & Hus).
  { rewrite Hc. cbn. by apply list_elem_of_fmap_2. }
  cbn [derivatives]. unfold bind.
  rewrite (GetDerivative_not_implemented u fuel t0 _ {| expr := loss; idx := k |} rest
             (length h) x c); try done.
  - cbn. by rewrite lookup_insert_ne, lookup_empty.
  - cbn. by rewrite lookup_insert_eq.
  - cbn. by apply lookup_app_l_Some.
Qed.

End NotImplemented.

(** * The gradient of a loss that is not a scalar *)

Lemma singleton_of_NoDup {A} (l : list A) (a : A) :
  NoDup l → (∀ x, x ∈ l ↔ x = a) → l = [a].
Proof.
  intros Hnd Hl. destruct l as [|x l].
  - exfalso. eapply elem_of_nil. by apply (Hl a).
  - assert (x = a) as -> by (apply Hl; by left). f_equal.
    destruct l as [|y l]; [done|].
    assert (y = a) as -> by (apply Hl; right; by left).
    apply NoDup_cons in Hnd as [Hnotin _]. destruct Hnotin. by left.
Qed.

Section WrappedLoss.
Context `{ShapeInference} `{DerivRegistry}.
Variables (h : Heap) (loss : ExprPtr) (l : Expr) (sh : LogicalShape).

(** The wrapper [ComputeGradients] allocates around the loss. *)
Definition wrapper : Expr :=
  {| node := Contraction (full_reduction loss (length (dims (shape l)))); shape := sh |}.

(** The gradient of the wrapper for its input: the constant 1.0, which is
    at [dout], spread over the indices of the loss. *)
Definition spread (dout : ExprPtr) : ContractionExpr :=
  {| agg_op := AggregationOp.SUM;
     combo_op := CombinationOp.NONE;
     inputs := [TensorSpecExpr_in dout []];
     output := TensorSpecExpr_out (PolyIndex <$> seq 0 (length (dims (shape l))))
                 (dims_as_exprs (shape l));
     constraints := [];
     use_default := None |}.

Hypothesis h_ordered : ordered h.
Hypothesis h_loss : h !! loss = Some l.

(** In the wrapped graph the loss has one use: input 0 of the wrapper. *)
Lemma wrapped_uses u :
  ComputeUses.make (h ++ [wrapper]) (length h) = Ok u →
  ComputeUses.uses_ u !! loss = Some [{| expr := length h; idx := 0 |}].
Proof.
  intros [Htr Hstack]%make_traversing. apply lookup_lt_Some in h_loss as Hlt.
  assert ((h ++ [wrapper]) !! length h = Some wrapper) as Hw by by apply list_lookup_middle.
  assert (ordered (h ++ [wrapper])) as Hord.
  { apply ordered_snoc; [done|]. cbn. apply andb_true_iff. split; [|done]. by apply Nat.ltb_lt. }
  assert (recorded u loss = [{| expr := length h; idx := 0 |}]) as Hrec.
  { apply singleton_of_NoDup; [by apply (tr_once _ _ _ Htr)|]. intros use.
    rewrite (tr_uses _ _ _ Htr). split.
    - intros [Hseen (x & Hx & Hat)].
      assert (loss < expr use) as Habove.
      { apply (ordered_operand (h ++ [wrapper])); [done|]. exists x. split; [done|].
        by eapply list_elem_of_lookup_2. }
      assert (reachable (h ++ [wrapper]) (length h) (expr use)) as Hreach.
      { apply (tr_within _ _ _ Htr). by left. }
      apply rtc_inv in Hreach as [Heq | (b & (w & Hwb & Hb) & Hreach)].
      + rewrite <- Heq, Hw in Hx. injection Hx as <-. cbn in Hat.
        destruct (idx use) as [|i] eqn:Hi; [|by destruct i].
        destruct use as [ue ui]; cbn in *. by subst.
      + rewrite Hw in Hwb. injection Hwb as <-. cbn in Hb.
        apply elem_of_cons in Hb as [[= ->] | Hb]; [|by apply elem_of_nil in Hb].
        pose proof (ordered_reachable _ _ _ Hord Hreach). lia.
    - intros ->. cbn. split.
      + apply (traversing_complete (h ++ [wrapper]) (length h)); [done..|]. apply rtc_refl.
      + by exists wrapper. }
  unfold recorded in Hrec. destruct (ComputeUses.uses_ u !! loss) as [l0|]; [|done].
  cbn in Hrec. by rewrite Hrec.
Qed.

(** X13: on a closed, ordered heap, the gradient [ComputeGradients] returns
    for a loss of nonzero rank with respect to the loss itself is not the
    constant 1.0 but a fresh contraction that spreads the constant 1.0 over
    the indices of the loss, wrapped in ["simple_reduce"] with the loss when
    shape inference gives it nonzero rank; the heap grows by the wrapper,
    the constant, that contraction and the call, in this order. *)
Theorem ComputeGradients_of_wrapped_loss fuel sh2 sh3 :
  closed h →
  dims (shape l) ≠ [] →
  ContractionExpr_ComputeShape h (full_reduction loss (length (dims (shape l)))) "" = Ok sh →
  let one_at := S (length h) in
  let spread_at := S (S (length h)) in
  ContractionExpr_ComputeShape (h ++ [wrapper; one]) (spread one_at) (layout (shape l))
    = Ok sh2 →
  dims sh2 ≠ [] →
  CallExpr_ComputeShape
    (h ++ [wrapper; one; {| node := Contraction (spread one_at); shape := sh2 |}])
    {| fn := "simple_reduce"; args := [spread_at; loss] |} = Ok sh3 →
  ComputeGradients (S (S fuel)) [loss] loss h =
  Ok ([S spread_at],
      h ++ [wrapper; one;
            {| node := Contraction (spread one_at); shape := sh2 |};
            {| node := Call {| fn := "simple_reduce"; args := [spread_at; loss] |};
               shape := sh3 |}]).
Proof.
  intros Hclosed Hrank Hsh one_at spread_at Hsh2 Hrank2 Hsh3.
  apply lookup_lt_Some in h_loss as Hlt.
  assert (length (dims (shape l)) ≠ 0) as Hn by (by destruct (dims (shape l))).
  unfold ComputeGradients, bind at 1. rewrite (loss_value_spec h loss l h_loss).
  destruct (decide (length (dims (shape l)) = 0)); [done|].
  rewrite (finish_contraction_Ok _ _ _ _ Hsh). fold wrapper.
  destruct (Gradient_new_spec (h ++ [wrapper]) (length h)) as (u & Hnew & _).
  { apply closed_snoc; [done|]. cbn. apply andb_true_iff. split; [|done]. by apply Nat.ltb_lt. }
  { rewrite length_app. cbn. lia. }
  rewrite Hnew.
  assert (ComputeUses.make (h ++ [wrapper]) (length h) = Ok u) as Hmake.
  { unfold Gradient_new in Hnew. destruct (ComputeUses.make _ _); try done.
    by injection Hnew as ->. }
  pose proof (wrapped_uses u Hmake) as Hus.
  set (st0 := seeded_state (length h) (h ++ [wrapper])).
  assert (heap st0 = h ++ [wrapper; one]) as Hheap0 by (cbn; by rewrite <- app_assoc).
  assert (seen_ st0 !! length h = Some one_at) as Hseed.
  { cbn. rewrite lookup_insert_eq, length_app. cbn. f_equal. unfold one_at. lia. }
  assert (seen_ st0 !! loss = None) as Hmiss.
  { cbn. rewrite lookup_insert_ne by lia. apply lookup_empty. }
  (* the one contribution: the rule of the wrapper for its input *)
  assert (use_dop (GetDerivative u (S fuel)) {| expr := length h; idx := 0 |} st0 =
          Ok (spread_at,
              {| heap := h ++ [wrapper; one;
                               {| node := Contraction (spread one_at); shape := sh2 |}];
                 seen_ := seen_ st0 |})) as Hdop.
  { unfold use_dop, bind. cbn [expr idx].
    rewrite (GetDerivative_cached u fuel _ _ _ Hseed). unfold on_heap. rewrite Hheap0.
    rewrite (lookup_app_r h) by lia. rewrite Nat.sub_diag. cbn [lookup list_lookup node wrapper].
    rewrite (ContractionOp_input _ _ _ _ _ (TensorSpecExpr_in loss
               (PolyIndex <$> seq 0 (length (dims (shape l)))))) by done.
    cbn [agg_op full_reduction].
    rewrite (SumOp_after_loop _ _ 0 _ [TensorSpecExpr_in one_at []] CombinationOp.NONE
               (TensorSpecExpr_in loss (PolyIndex <$> seq 0 (length (dims (shape l)))))
               loss l); [|by cbn; destruct (decide (0 = 0))|done|done|by apply lookup_app_l_Some].
    change (transposed _ _ _ _ _) with (spread one_at).
    rewrite (finish_contraction_Ok _ _ _ _ Hsh2).
    rewrite length_app. cbn [length]. rewrite <- app_assoc. cbn [app].
    do 2 f_equal. unfold spread_at. lia. }
  cbn [derivatives]. unfold bind at 1.
  change (GetDerivative u (S (S fuel)) loss st0)
    with (GetDerivative_body u (GetDerivative u (S fuel)) loss st0).
  unfold GetDerivative_body. rewrite Hmiss.
  unfold bind at 1, run_pure, ComputeUses.uses. rewrite Hus.
  cbn [accumulate]. unfold bind at 1 2, iteration, bind at 1. rewrite Hdop.
  unfold ret at 1 2. unfold bind at 1, on_heap. cbn [heap finish_total].
  assert ((h ++ [wrapper; one; {| node := Contraction (spread one_at); shape := sh2 |}])
            !! spread_at = Some {| node := Contraction (spread one_at); shape := sh2 |}) as Hat.
  { rewrite lookup_app_r by (unfold spread_at; lia).
    by replace (spread_at - length h) with 2 by (unfold spread_at; lia). }
  rewrite Hat. cbn [shape].
  destruct (decide (length (dims sh2) = 0)) as [Hz|_]; [by destruct (dims sh2)|].
  unfold MakeCall, bind at 1, run_pure. rewrite Hsh3. unfold make_shared.
  unfold bind, emplace. cbn [seen_ heap]. rewrite Hmiss. unfold ret. cbn [heap].
  rewrite length_app. cbn [length]. rewrite <- app_assoc. cbn [app].
  do 3 f_equal. unfold spread_at. lia.
Qed.

End WrappedLoss.

(** * Termination, and what is never returned *)

(** The computation did not stop for lack of fuel. *)
Definition finished {A} (r : Result A) : Prop :=
  match r with OutOfFuel => False | _ => True end.

(** The computation returned no value. *)
Definition fails {A} (r : Result A) : Prop :=
  match r with Ok _ => False | _ => True end.

Section Termination.
Context `{ShapeInference} `{DerivRegistry}.

(** X14: on a closed, ordered heap, with collaborators that return,
    [ComputeGradients] terminates: the recursion of [GetDerivative] is never
    deeper than the heap is long, so any budget above the length of the
    heap plus one (for the wrapper) is enough. *)
Theorem ComputeGradients_terminates h wrts loss fuel :
  never_starves → closed h → ordered h → loss < length h →
  S (length h) < fuel →
  finished (ComputeGradients fuel wrts loss h).
Proof.
  intros Hns Hclosed Hord Hloss Hfuel.
  assert (ComputeGradients fuel wrts loss h ≠ OutOfFuel) as Hno;
    [|by destruct (ComputeGradients fuel wrts loss h)].
  intros Hm. unfold ComputeGradients in Hm.
  apply bind_starves in Hm as [Hval | (value & h' & Hval & Hm)].
  { unfold loss_value in Hval. destruct (h !! loss); [|done].
    destruct (decide _); [done|]. by eapply finish_contraction_returns. }
  destruct (loss_value_closed h h' loss value Hclosed Hloss Hval) as (Hclosed' & Hvalue & _).
  assert (ordered h' ∧ length h' ≤ S (length h)) as [Hord' Hlen].
  { unfold loss_value in Hval. destruct (h !! loss) as [l|]; [|done].
    destruct (decide _); [injection Hval as _ <-; split; [done|lia]|].
    unfold finish_contraction, bind, run_pure, make_shared in Hval.
    destruct (ContractionExpr_ComputeShape _ _ _) as [sh| | |]; try done.
    injection Hval as _ <-. split; [|rewrite length_app; cbn; lia].
    apply ordered_snoc; [done|]. cbn. apply andb_true_iff. split; [|done].
    by apply Nat.ltb_lt. }
  destruct (Gradient_new_spec h' value Hclosed' Hvalue) as (u & Hnew & Hsound).
  rewrite Hnew in Hm.
  pose proof (uses_ascending h' value u Hclosed' Hord' Hvalue Hsound) as Hasc.
  assert (∀ ws st, derivatives u fuel ws st ≠ OutOfFuel) as Hloop.
  { clear Hm. induction ws as [|w ws IH]; intros st; cbn [derivatives]; [done|]. intros Hm.
    apply bind_starves in Hm as [Hget | (d & st1 & _ & Hm)].
    - eapply (GetDerivative_returns u (length h') fuel); [done|done| |exact Hget]. lia.
    - apply bind_starves in Hm as [Hrest | (ds & st2 & _ & Hret)]; [|done].
      by eapply IH. }
  specialize (Hloop wrts (seeded_state value h')).
  by destruct (derivatives _ _ _ _) as [[ret st']| | |].
Qed.

(** X15: [GetDerivative] never returns a gradient for a node on a cycle of
    uses that lies outside the cache (more generally, for a node of a set
    of uncached nodes each of which has a user in the set): the recursion
    re-enters the node before anything of the cycle is cached. *)
Theorem GetDerivative_cycle u (C : ExprPtr → Prop) fuel e st :
  (∀ c, C c → ∃ v, v ∈ users u c ∧ C v) →
  (∀ c, C c → seen_ st !! c = None) →
  C e →
  fails (GetDerivative u fuel e st).
Proof.
  intros Hcycle Hout He.
  destruct (GetDerivative u fuel e st) as [[r st']| | |] eqn:Hget; try done. cbn.
  pose proof (GetDerivative_well_behaved u fuel) as Hwb.
  pose proof (wb_stores u _ Hwb _ _ _ _ Hget (Hout e He)) as Hstored.
  pose proof (wb_avoids u _ Hwb C _ _ _ _ Hcycle Hout Hget e He) as Hnot.
  congruence.
Qed.

(** X16: a successful call of [GetDerivative] changes no entry of the
    cache, and the entries it adds are for the node it was called on and
    for nodes reached from it along recorded uses through nodes that were
    not cached: only the node and its users, transitively, are
    differentiated. *)
Theorem GetDerivative_cache u fuel e st r st' :
  GetDerivative u fuel e st = Ok (r, st') →
  (∀ t d, seen_ st !! t = Some d → seen_ st' !! t = Some d) ∧
  (∀ t, seen_ st !! t = None → is_Some (seen_ st' !! t) → upath u (seen_ st) e t).
Proof.
  intros Hget. pose proof (GetDerivative_well_behaved u fuel) as Hwb. split.
  - intros t d Hd. eapply lookup_weaken; [done|]. by eapply wb_grows.
  - intros t Ht Ht'. by eapply wb_path.
Qed.

End Termination.

(** * These properties on concrete graphs *)

Module MoreExamples.

(** [y = reshape(x)] with the scalar parameter [x] at 0 and [y] at 1. *)
Definition reshape_x : Heap :=
  [Examples.scalar (ParamExpr "x");
   Examples.scalar (Call {| fn := "reshape"; args := [0] |})].

(** A call that is its own argument. *)
Definition selfloop : Heap :=
  [Examples.scalar (Call {| fn := "add"; args := [0] |})].

(** The vector parameter [A] alone. *)
Definition only_A : Heap := [Examples.vector (ParamExpr "A") 3].

Definition A3 : LogicalShape := shape (Examples.vector (ParamExpr "A") 3).

End MoreExamples.

Section MoreWitnesses.
Import Examples MoreExamples.

Local Abbreviation product := (binary AggregationOp.SUM CombinationOp.MULTIPLY).
Local Abbreviation conditional := (unary AggregationOp.SUM CombinationOp.COND None).
Local Abbreviation sum2 := (binary AggregationOp.SUM CombinationOp.PLUS).

Lemma product_gradient :
  ContractionOp 3 2 product 0 (seeded product) =
  Ok (4, seeded product ++
         [vector (Contraction
            {| agg_op := AggregationOp.SUM;
               combo_op := CombinationOp.MULTIPLY;
               inputs := [TensorSpecExpr_in 3 []; TensorSpecExpr_in 1 i0];
               output := TensorSpecExpr_out i0 [DimExprInt 3];
               constraints := [{| lhs := PolyIndex 0; rhs := DimExprInt 3 |}];
               use_default := None |}) 3]).
Proof. reflexivity. Defined.

Lemma ContractionOp_result_witness :
  (default_slot product 0 ∧ 4 = 3 ∧
   seeded product ++
     [vector (Contraction
        {| agg_op := AggregationOp.SUM;
           combo_op := CombinationOp.MULTIPLY;
           inputs := [TensorSpecExpr_in 3 []; TensorSpecExpr_in 1 i0];
           output := TensorSpecExpr_out i0 [DimExprInt 3];
           constraints := [{| lhs := PolyIndex 0; rhs := DimExprInt 3 |}];
           use_default := None |}) 3] = seeded product) ∨
  (¬ default_slot product 0 ∧ 4 = length (seeded product) ∧
   ∃ x, seeded product ++
          [vector (Contraction
             {| agg_op := AggregationOp.SUM;
                combo_op := CombinationOp.MULTIPLY;
                inputs := [TensorSpecExpr_in 3 []; TensorSpecExpr_in 1 i0];
                output := TensorSpecExpr_out i0 [DimExprInt 3];
                constraints := [{| lhs := PolyIndex 0; rhs := DimExprInt 3 |}];
                use_default := None |}) 3] = seeded product ++ [x] ∧
     (combo_op product = CombinationOp.EQ ∧
      x = {| node := IntConst 0; shape := scalar_shape |} ∨
      combo_op product ≠ CombinationOp.EQ ∧
      ∃ dop input r re,
        node x = Contraction dop ∧
        agg_op dop = AggregationOp.SUM ∧ use_default dop = None ∧
        constraints dop = constraints product ∧
        dout_spec 3 product ∈ inputs dop ∧
        inputs product !! 0 = Some input ∧
        ref input = Some r ∧ seeded product !! r = Some re ∧
        output dop = TensorSpecExpr_out (index_spec input) (dims_as_exprs (shape re)))).
Proof. exact (ContractionOp_result 3 2 product 0 (seeded product) _ _ product_gradient). Defined.

Lemma SumOp_single_input_witness :
  SumOp 3 conditional 0 (seeded conditional) =
  Ok (4, seeded conditional ++
         [vector (Contraction
            {| agg_op := AggregationOp.SUM;
               combo_op := CombinationOp.NONE;
               inputs := [TensorSpecExpr_in 3 []];
               output := TensorSpecExpr_out i0 [DimExprInt 3];
               constraints := [];
               use_default := None |}) 3]) ∧
  ContractionOp 3 2 conditional 0 (seeded conditional) =
  SumOp 3 conditional 0 (seeded conditional).
Proof.
  destruct (SumOp_single_input 3 2 conditional (seeded conditional)
              (TensorSpecExpr_in 0 i0) 0 (vector (ParamExpr "A") 3) A3)
    as [Hsum Hcion]; [reflexivity..|].
  split; [exact Hsum|]. apply Hcion; [by left | discriminate].
Defined.

Lemma sum2_gradient :
  SumOp 3 sum2 1 (seeded sum2) =
  Ok (4, seeded sum2 ++
         [vector (Contraction
            {| agg_op := AggregationOp.SUM;
               combo_op := CombinationOp.NONE;
               inputs := [TensorSpecExpr_in 3 []];
               output := TensorSpecExpr_out i0 [DimExprInt 3];
               constraints := [{| lhs := PolyIndex 0; rhs := DimExprInt 3 |}];
               use_default := None |}) 3]).
Proof. reflexivity. Defined.

Lemma SumOp_supported_witness :
  ∃ dop sh,
    seeded sum2 ++
      [vector (Contraction
         {| agg_op := AggregationOp.SUM;
            combo_op := CombinationOp.NONE;
            inputs := [TensorSpecExpr_in 3 []];
            output := TensorSpecExpr_out i0 [DimExprInt 3];
            constraints := [{| lhs := PolyIndex 0; rhs := DimExprInt 3 |}];
            use_default := None |}) 3] =
    seeded sum2 ++ [{| node := Contraction dop; shape := sh |}] ∧
    (combo_op sum2 = CombinationOp.MULTIPLY ∧ combo_op dop = CombinationOp.MULTIPLY ∧
     length (inputs dop) = length (inputs sum2) ∨
     combo_op sum2 = CombinationOp.PLUS ∧ combo_op dop = CombinationOp.NONE ∧
     length (inputs dop) = 1).
Proof.
  apply (SumOp_supported 3 sum2 1 (seeded sum2) 4); [cbn; lia | exact sum2_gradient].
Defined.

Lemma ComputeGradients_not_implemented_witness :
  ComputeGradients 2 [0] 1 reshape_x =
  Throw (runtime_error "Not implemented: reshape in CallOp").
Proof.
  refine (ComputeGradients_not_implemented 0 reshape_x 1
            (scalar (Call {| fn := "reshape"; args := [0] |}))
            {| fn := "reshape"; args := [0] |} 0 [] eq_refl eq_refl eq_refl eq_refl _ _ _).
  - right. right. reflexivity.
  - by left.
  - discriminate.
Defined.

Lemma only_A_ordered : ordered only_A.
Proof. intros i e He. destruct i as [|i]; [by injection He as <-|]. done. Defined.

Lemma ComputeGradients_of_wrapped_loss_witness :
  ComputeGradients 2 [0] 0 only_A =
  Ok ([4],
      only_A ++
        [wrapper 0 (vector (ParamExpr "A") 3) scalar_shape; one;
         {| node := Contraction (spread (vector (ParamExpr "A") 3) 2); shape := A3 |};
         {| node := Call {| fn := "simple_reduce"; args := [3; 0] |}; shape := A3 |}]).
Proof.
  refine (ComputeGradients_of_wrapped_loss only_A 0 (vector (ParamExpr "A") 3) scalar_shape
            only_A_ordered _ 0 A3 A3 _ _ _ _ _ _);
    reflexivity || discriminate.
Defined.

Lemma ComputeGradients_terminates_witness :
  finished (ComputeGradients 5 [0; 1] 1 add_x_x).
Proof.
  apply ComputeGradients_terminates;
    [apply collaborators_never_starve | reflexivity | apply add_x_x_is_ordered
    | cbn; lia | cbn; lia].
Defined.

Lemma GetDerivative_cycle_witness :
  fails (GetDerivative (uses_of selfloop 0) 7 0 {| heap := selfloop; seen_ := ∅ |}).
Proof.
  apply (GetDerivative_cycle (uses_of selfloop 0) (fun c => c = 0)).
  - intros c ->. exists 0. split; [|reflexivity].
    replace (users (uses_of selfloop 0) 0) with [0] by (vm_compute; reflexivity). by left.
  - intros c ->. reflexivity.
  - reflexivity.
Defined.

Lemma GetDerivative_x :
  GetDerivative (uses_of add_x_x 1) 2 0 (seeded_state 1 add_x_x) = Ok (4, add_x_x_done).
Proof. vm_compute. reflexivity. Defined.

Lemma GetDerivative_cache_witness :
  seen_ add_x_x_done !! 1 = Some 3 ∧
  upath (uses_of add_x_x 1) (seen_ (seeded_state 1 add_x_x)) 0 0.
Proof.
  destruct (GetDerivative_cache (uses_of add_x_x 1) 2 0 (seeded_state 1 add_x_x) 4
              add_x_x_done GetDerivative_x) as [Hkeep Hnew].
  split.
  - apply Hkeep. reflexivity.
  - apply Hnew; [reflexivity|]. exists 4. reflexivity.
Defined.

End MoreWitnesses.

(** * No undefined behaviour *)

(** The computation did not run into undefined behaviour. *)
Definition defined {A} (r : Result A) : Prop :=
  match r with Undefined => False | _ => True end.

(** [use] names a slot of its user that holds [t]: argument [idx] of a
    call, the [ref] of input [idx] of a contraction, or its default at the
    position after its inputs. *)
Definition slot (h : Heap) (use : UseInfo) (t : ExprPtr) : Prop :=
  ∃ x, h !! expr use = Some x ∧
       match node x with
       | Call c => args c !! idx use = Some t
       | Contraction c =>
           (∃ input, inputs c !! idx use = Some input ∧ ref input = Some t) ∧
           idx use < length (inputs c) ∨
           (idx use = length (inputs c) ∧ use_default c = Some t)
       | _ => False
       end.

(** Every input of [ins] refers to an expression of [h]. *)
Definition refs_within (h : Heap) (ins : list TensorSpecExpr) : Prop :=
  ∀ input, input ∈ ins → ∃ r, ref input = Some r ∧ r < length h.

Section Collaborators.
Context `{ShapeInference} `{DerivRegistry}.

(** Shape inference returns or throws when the operands it is to look at
    are expressions of the heap. *)
Definition shapes_defined : Prop :=
  (∀ h c, (∀ a, a ∈ args c → a < length h) → CallExpr_ComputeShape h c ≠ Undefined) ∧
  (∀ h c lay, refs_within h (inputs c) → ContractionExpr_ComputeShape h c lay ≠ Undefined).

(** The registry returns or throws, and so does the rule of each call of
    [h], given a gradient of the heap, which has grown since; a rule that
    returns gives one gradient per argument, each an expression of the
    heap it leaves. *)
Definition registry_sound (h : Heap) : Prop :=
  (∀ f, Resolve f ≠ Undefined) ∧
  ∀ d op x c dout h',
    Resolve (fn c) = Ok d → h !! op = Some x → node x = Call c →
    h `prefix_of` h' → dout < length h' →
    match d op dout (args c) h' with
    | Ok (gs, h'') => length gs = length (args c) ∧ ∀ g, g ∈ gs → g < length h''
    | Undefined => False
    | _ => True
    end.

End Collaborators.

Section Slots.
Import ComputeUses.

Lemma recorded_slot (h : Heap) (src : ExprPtr) (u : t) (t0 : ExprPtr) (use : UseInfo) :
  make h src = Ok u → use ∈ recorded u t0 → slot h use t0.
Proof.
  intros [Htr Hstack]%make_traversing Hin.
  apply (tr_uses _ _ _ Htr) in Hin as [_ (x & Hx & Hat)]. exists x. split; [done|].
  destruct (node x) as [c|c| | | |]; cbn in Hat; try done.
  - rewrite list_lookup_fmap in Hat.
    destruct (args c !! idx use) as [a|]; [|done]. cbn in Hat. congruence.
  - apply lookup_app_Some in Hat as [Hat | [Hge Hat]].
    + left. rewrite list_lookup_fmap in Hat.
      destruct (inputs c !! idx use) as [input|] eqn:Hin; [|done].
      split; [|by eapply lookup_lt_Some]. exists input. split; [done|].
      cbn in Hat. congruence.
    + right. rewrite length_fmap in Hge, Hat.
      destruct (use_default c) as [d|]; [|done].
      apply list_lookup_singleton_Some in Hat as [Hi [= ->]]. split; [lia|done].
Qed.

End Slots.

Section Safety.
Context `{ShapeInference} `{DerivRegistry}.

Implicit Types (GD : ExprPtr → M State ExprPtr) (st : State) (h : Heap).

Lemma bind_defined {S A B} (m : M S A) (k : A -> M S B) (s : S) :
  defined (m s) → (∀ a s1, m s = Ok (a, s1) → defined (k a s1)) → defined (bind m k s).
Proof.
  unfold bind. destruct (m s) as [[a s1]| | |]; try done. intros _ Hk. by apply Hk.
Qed.

Lemma on_heap_defined {A} (m : M Heap A) st : defined (m (heap st)) → defined (on_heap m st).
Proof. unfold on_heap. by destruct (m (heap st)) as [[a h']| | |]. Qed.

Lemma MakeCall_defined f a h :
  shapes_defined → (∀ x, x ∈ a → x < length h) → defined (MakeCall f a h).
Proof.
  intros [Hcall _] Ha. unfold MakeCall, bind, run_pure.
  specialize (Hcall h {| fn := f; args := a |} Ha). by destruct (CallExpr_ComputeShape _ _).
Qed.

Lemma finish_contraction_defined dop lay h :
  shapes_defined → refs_within h (inputs dop) → defined (finish_contraction dop lay h).
Proof.
  intros [_ Hcion] Hins. unfold finish_contraction, bind, run_pure.
  specialize (Hcion h dop lay Hins). by destruct (ContractionExpr_ComputeShape _ _ _).
Qed.

Lemma SumOp_loop_defined op dout idx rest :
  ∀ i acc, SumOp_loop op dout idx i rest acc ≠ Undefined.
Proof.
  induction rest as [|x rest IH]; intros i acc; cbn; [done|].
  destruct (decide (idx = i)); [apply IH|]. destruct (combo_op op); done || apply IH.
Qed.

(** The inputs [SumOp] collects are inputs of [op], or [dout] indexed
    like the output. *)
Lemma SumOp_loop_from op dout idx rest :
  ∀ i acc ins combo,
    SumOp_loop op dout idx i rest acc = Ok (ins, combo) →
    ∀ x, x ∈ ins → x ∈ acc.1 ∨ x ∈ rest ∨ x = dout_spec dout op.
Proof.
  induction rest as [|y rest IH]; intros i acc ins combo Hloop x Hx; cbn [SumOp_loop] in Hloop.
  - injection Hloop as ->. by left.
  - destruct (decide (idx = i)).
    + destruct (IH _ _ _ _ Hloop x Hx) as [Ha | [Hr | ->]]; [|right; left; by right|by do 2 right].
      cbn in Ha. apply elem_of_app in Ha as [Ha | ->%list_elem_of_singleton];
        [by left|by do 2 right].
    + destruct (combo_op op); try done.
      * destruct (IH _ _ _ _ Hloop x Hx) as [Ha | [Hr | ->]];
          [|right; left; by right|by do 2 right].
        cbn in Ha. apply elem_of_app in Ha as [Ha | ->%list_elem_of_singleton];
          [by left|right; left; by left].
      * destruct (IH _ _ _ _ Hloop x Hx) as [Ha | [Hr | ->]];
          [by left|right; left; by right|by do 2 right].
Qed.

(** What [ContractionOp] returns is [dout] or the one expression it has
    allocated. *)
Lemma ContractionOp_fresh dout p e idx h g h' :
  ContractionOp dout p e idx h = Ok (g, h') →
  g = dout ∧ h' = h ∨ g = length h ∧ length h' = S (length h).
Proof.
  unfold ContractionOp. case_bool_decide; [intros [= <- <-]; by left|].
  assert (∀ dop lay h0, finish_contraction dop lay h0 = Ok (g, h') →
            g = length h0 ∧ length h' = S (length h0)) as Hfin.
  { intros dop lay h0 Hm. unfold finish_contraction in Hm.
    apply bind_Ok in Hm as (sh & h1 & Hsh & Hm). apply run_pure_Ok in Hsh as [_ ->].
    injection Hm as <- <-. rewrite length_app. cbn. split; [done|lia]. }
  case_bool_decide.
  { intros [= <- <-]. right. rewrite length_app. cbn. split; [done|lia]. }
  assert (SumOp dout e idx h = Ok (g, h') → g = length h ∧ length h' = S (length h)) as Hsum.
  { unfold SumOp. destruct (decide _); [done|]. intros Hm.
    apply bind_Ok in Hm as (acc & h1 & Hacc & Hm). apply run_pure_Ok in Hacc as [_ ->].
    destruct (inputs e !! idx) as [input|]; [|done].
    apply bind_Ok in Hm as (sh & h2 & Hsh & Hm). apply ref_shape_Ok in Hsh as ->.
    by eapply Hfin. }
  assert (ExtremeOp dout p e idx h = Ok (g, h') → g = length h ∧ length h' = S (length h))
    as Hext.
  { unfold ExtremeOp. destruct (inputs e !! 0) as [input|]; [|done]. intros Hm.
    apply bind_Ok in Hm as (sh & h2 & Hsh & Hm). apply ref_shape_Ok in Hsh as ->.
    by eapply Hfin. }
  destruct (agg_op e); intros Hm; try discriminate Hm; right;
    first [by apply Hsum | by apply Hext].
Qed.

(** At a position that is one of its inputs or its default, for a
    contraction at [p] whose inputs all refer to expressions of the heap,
    [ContractionOp] indexes no vector out of range and dereferences no
    null pointer. *)
Lemma ContractionOp_slot_defined dout p c idx h :
  shapes_defined →
  idx < length (inputs c) ∨ (idx = length (inputs c) ∧ is_Some (use_default c)) →
  refs_within h (inputs c) → dout < length h → p < length h →
  defined (ContractionOp dout p c idx h).
Proof.
  intros Hshapes Hslot Hrefs Hdout Hp. unfold ContractionOp.
  case_bool_decide as Hd; [done|]. case_bool_decide; [done|].
  destruct Hslot as [Hlt | [Hidx Hdef]]; [|by destruct Hd].
  destruct (lookup_lt_is_Some_2 _ _ Hlt) as [input Hin].
  assert (∀ input0, input0 ∈ inputs c →
            ∀ k : LogicalShape → M Heap ExprPtr,
              (∀ sh, defined (k sh h)) → defined (bind (ref_shape input0) k h)) as Hshape.
  { intros input0 Hin0 k Hk. apply bind_defined.
    - unfold ref_shape. destruct (Hrefs input0 Hin0) as (r & -> & Hr0).
      by destruct (lookup_lt_is_Some_2 h r Hr0) as [re ->].
    - intros sh h1 Hsh. apply ref_shape_Ok in Hsh as ->. apply Hk. }
  assert (refs_within h [dout_spec dout c]) as Hspec.
  { intros x ->%list_elem_of_singleton. by exists dout. }
  assert (defined (SumOp dout c idx h)) as Hsum.
  { unfold SumOp. destruct (decide _); [lia|]. apply bind_defined.
    - unfold run_pure.
      pose proof (SumOp_loop_defined c dout idx (inputs c) 0 ([], CombinationOp.NONE)).
      by destruct (SumOp_loop _ _ _ _ _ _).
    - intros [ins combo] h1 Hacc. apply run_pure_Ok in Hacc as [Hacc ->]. rewrite Hin.
      apply Hshape; [by eapply list_elem_of_lookup_2|]. intros sh.
      apply finish_contraction_defined; [done|]. cbn. intros x Hx.
      destruct (SumOp_loop_from _ _ _ _ _ _ _ _ Hacc x Hx) as [Ha | [Hr | ->]].
      + by apply elem_of_nil in Ha.
      + by apply Hrefs.
      + apply Hspec. by left. }
  assert (defined (ExtremeOp dout p c idx h)) as Hext.
  { unfold ExtremeOp. destruct (inputs c !! 0) as [input0|] eqn:Hin0.
    - apply Hshape; [by eapply list_elem_of_lookup_2|]. intros sh.
      apply finish_contraction_defined; [done|]. cbn. intros x Hx.
      apply elem_of_cons in Hx as [-> | Hx]; [apply Hrefs; by eapply list_elem_of_lookup_2|].
      apply elem_of_cons in Hx as [-> | Hx]; [by exists p|].
      apply Hspec. by apply list_elem_of_singleton in Hx as ->; left.
    - apply lookup_ge_None in Hin0. lia. }
  destruct (agg_op c); done.
Qed.

End Safety.

Section PropagatorSafety.
Context `{ShapeInference} `{DerivRegistry}.
Variables (h1 : Heap) (src : ExprPtr) (u : ComputeUses.t).
Hypothesis h1_closed : closed h1.
Hypothesis u_made : ComputeUses.make h1 src = Ok u.
Hypothesis shapes_ok : shapes_defined.
Hypothesis registry_grows : registry_extends.
Hypothesis registry_ok : registry_sound h1.

Implicit Types (GD : ExprPtr → M State ExprPtr) (st : State) (h : Heap).

(** The states of the propagator: the heap has grown from [h1], and the
    cache holds expressions of the heap. *)
Definition grown (st : State) : Prop := h1 `prefix_of` heap st ∧ live st.

(** What the proof carries through the recursion: a call on a grown state
    is defined, and leaves a grown state and an expression of its heap. *)
Definition after (st : State) (r : ExprPtr) (st' : State) : Prop :=
  live st' ∧ heap st `prefix_of` heap st' ∧ r < length (heap st').

Definition safe GD : Prop :=
  ∀ e st, grown st →
    defined (GD e st) ∧ ∀ r st', GD e st = Ok (r, st') → after st r st'.

Lemma after_grown st r st' : grown st → after st r st' → grown st'.
Proof. intros [Hpre _] (Hl & Hp & _). split; [by etrans|done]. Qed.

Lemma recorded_target t0 use : use ∈ recorded u t0 → t0 < length h1.
Proof.
  intros Hin. destruct (make_traversing _ _ _ u_made) as [Htr _].
  apply (tr_uses _ _ _ Htr) in Hin as [_ (x & Hx & Hat)].
  destruct (closed_lookup h1 h1_closed (expr use) x Hx (Some t0)) as (r & [= <-] & Hr);
    [by eapply list_elem_of_lookup_2|done].
Qed.

Lemma CallOp_defined dout p x c idx h :
  h1 !! p = Some x → node x = Call c → h1 `prefix_of` h →
  dout < length h → idx < length (args c) →
  defined (CallOp dout p c idx h) ∧
  ∀ g h', CallOp dout p c idx h = Ok (g, h') → g < length h'.
Proof.
  intros Hp Hx Hpre Hd Hi. unfold CallOp. destruct registry_ok as [Hres Hrule].
  repeat (destruct (decide _); [done|]). unfold bind, run_pure.
  pose proof (Hres (fn c)) as Hdef. destruct (Resolve (fn c)) as [d| | |] eqn:Hr; try done.
  specialize (Hrule d p x c dout h Hr Hp Hx Hpre Hd).
  destruct (d p dout (args c) h) as [[gs h']| | |]; try done.
  destruct Hrule as [Hlen Hvalid]. destruct (gs !! idx) as [g|] eqn:Hg.
  - split; [done|]. intros g0 h0 [= <- <-]. apply Hvalid. by eapply list_elem_of_lookup_2.
  - apply lookup_ge_None in Hg. lia.
Qed.

Lemma use_dop_safe GD use t0 :
  safe GD → use ∈ recorded u t0 →
  ∀ st, grown st →
    defined (use_dop GD use st) ∧
    ∀ d st', use_dop GD use st = Ok (d, st') → after st d st'.
Proof.
  intros HGD Hin st Hst.
  destruct (recorded_slot _ _ _ _ _ u_made Hin) as (x & Hx & Hslot).
  destruct (HGD (expr use) st Hst) as [Hdef Hpost].
  set (rule := fun dout h =>
    match h !! expr use with
    | None => Undefined
    | Some e =>
        match node e with
        | Call call_expr => CallOp dout (expr use) call_expr (idx use) h
        | Contraction cion_expr => ContractionOp dout (expr use) cion_expr (idx use) h
        | _ => Throw (runtime_error "Invalid operation type in Gradient::GetDerivative")
        end
    end).
  assert (∀ dout st1, GD (expr use) st = Ok (dout, st1) →
            defined (on_heap (rule dout) st1) ∧
            ∀ d st', on_heap (rule dout) st1 = Ok (d, st') → after st d st') as Hstep.
  { intros dout st1 HG. pose proof (Hpost _ _ HG) as Hafter.
    destruct (after_grown _ _ _ Hst Hafter) as [Hp1 _]. destruct Hafter as (Hl1 & Hpre & Hd1).
    assert (heap st1 !! expr use = Some x) as Hx1 by (by eapply prefix_lookup_Some).
    assert (∀ d st', seen_ st' = seen_ st1 → heap st1 `prefix_of` heap st' →
                     d < length (heap st') → after st d st') as Hgrown.
    { intros d st' Hseen Hpre' Hd. split; [by eapply live_extend|]. split; [by etrans|done]. }
    unfold on_heap, rule. rewrite Hx1.
    destruct (node x) as [c|c| | | |] eqn:Hn; try done.
    - destruct (CallOp_defined dout (expr use) x c (idx use) (heap st1)) as [Hc Hval];
        [done|done|done|done|by eapply lookup_lt_Some|].
      destruct (CallOp _ _ _ _ _) as [[g h']| | |] eqn:Hcall; try done.
      split; [done|]. intros d st' [= <- <-]. apply Hgrown; cbn; [done| |by eapply Hval].
      by eapply CallOp_extends.
    - assert (defined (ContractionOp dout (expr use) c (idx use) (heap st1))) as Hc.
      { apply ContractionOp_slot_defined; [done| | |done|by eapply lookup_lt_Some].
        - destruct Hslot as [[_ Hlt] | [Hi Hdefault]]; [by left|right].
          split; [done|by rewrite Hdefault].
        - intros input Hinput.
          destruct (closed_lookup h1 h1_closed (expr use) x Hx (ref input)) as (r & Hr & Hlt).
          { rewrite Hn. cbn. apply elem_of_app. left. by apply list_elem_of_fmap_2. }
          exists r. split; [done|]. apply prefix_length in Hp1. lia. }
      destruct (ContractionOp _ _ _ _ _) as [[g h']| | |] eqn:Hcion; try done.
      split; [done|]. intros d st' [= <- <-]. apply Hgrown; cbn; [done| |].
      + by eapply ContractionOp_extends.
      + destruct (ContractionOp_fresh _ _ _ _ _ _ _ Hcion) as [[-> ->] | [-> ->]]; [done|lia]. }
  unfold use_dop. fold rule. split.
  - apply bind_defined; [done|]. intros dout st1 HG. by apply Hstep.
  - intros d st' Hm. apply bind_Ok in Hm as (dout & st1 & HG & Hm). by eapply Hstep.
Qed.

Lemma iteration_safe GD use t0 total :
  safe GD → use ∈ recorded u t0 →
  ∀ st, grown st → (∀ t, total = Some t → t < length (heap st)) →
    defined (iteration GD use total st) ∧
    ∀ t' st', iteration GD use total st = Ok (t', st') → after st t' st'.
Proof.
  intros HGD Hin st Hst Htotal.
  destruct (use_dop_safe GD use t0 HGD Hin st Hst) as [Hdef Hpost]. unfold iteration.
  split.
  - apply bind_defined; [done|]. intros dop st1 Hu. destruct (Hpost _ _ Hu) as (_ & Hpre & Hd).
    destruct total as [t|]; [|done]. apply on_heap_defined, MakeCall_defined; [done|].
    intros x [-> | ->%list_elem_of_singleton]%elem_of_cons; [|done].
    specialize (Htotal t eq_refl). apply prefix_length in Hpre. lia.
  - intros t' st' Hm. apply bind_Ok in Hm as (dop & st1 & Hu & Hm).
    destruct (Hpost _ _ Hu) as (Hl1 & Hpre & Hd).
    destruct total as [t|].
    + apply on_heap_Ok in Hm as [Hm Hseen]. apply MakeCall_Ok in Hm as (sh & -> & Hh).
      assert (heap st1 `prefix_of` heap st') by (rewrite Hh; by apply prefix_app_r).
      split; [by eapply live_extend|]. split; [by etrans|].
      rewrite Hh, length_app. cbn. lia.
    + by injection Hm as <- <-.
Qed.

Lemma accumulate_safe GD t0 :
  safe GD →
  ∀ us total st,
    (∀ use, use ∈ us → use ∈ recorded u t0) → grown st →
    (∀ t, total = Some t → t < length (heap st)) →
    defined (accumulate GD us total st) ∧
    ∀ total' st', accumulate GD us total st = Ok (total', st') →
      live st' ∧ heap st `prefix_of` heap st' ∧ ∀ t, total' = Some t → t < length (heap st').
Proof.
  intros HGD. induction us as [|use us IH]; intros total st Hus Hst Htotal; cbn [accumulate].
  { split; [done|]. intros total' st' [= <- <-]. by destruct Hst. }
  destruct (iteration_safe GD use t0 total HGD (Hus use ltac:(by left)) st Hst Htotal)
    as [Hdef Hpost].
  assert (∀ t' st1, iteration GD use total st = Ok (t', st1) →
            defined (accumulate GD us (Some t') st1) ∧
            ∀ total' st', accumulate GD us (Some t') st1 = Ok (total', st') →
              live st' ∧ heap st1 `prefix_of` heap st' ∧
              ∀ t, total' = Some t → t < length (heap st')) as Hrest.
  { intros t' st1 Hit. pose proof (Hpost _ _ Hit) as Hafter. apply IH.
    - intros use' Hin. apply Hus. by right.
    - by eapply after_grown.
    - intros t [= <-]. apply Hafter. }
  split.
  - apply bind_defined; [done|]. intros t' st1 Hit. by apply Hrest.
  - intros total' st' Hm. apply bind_Ok in Hm as (t' & st1 & Hit & Hm).
    destruct (Hrest _ _ Hit) as [_ Hr]. destruct (Hr _ _ Hm) as (Hl & Hp & Ht).
    destruct (Hpost _ _ Hit) as (_ & Hp1 & _). split; [done|]. split; [by etrans|done].
Qed.

Lemma finish_total_defined total e h :
  (∀ t, total = Some t → t < length h ∧ e < length h) → defined (finish_total total e h).
Proof.
  intros Ht. destruct total as [t|]; cbn; [|done]. destruct (Ht t eq_refl) as [Hlt He].
  destruct (lookup_lt_is_Some_2 h t Hlt) as [te ->].
  destruct (decide _); [done|]. apply MakeCall_defined; [done|].
  by intros x [-> | ->%list_elem_of_singleton]%elem_of_cons.
Qed.

Lemma GetDerivative_safe fuel : safe (GetDerivative u fuel).
Proof.
  induction fuel as [|fuel IH]; intros e st Hst;
    (split; [|intros r st' HG; by eapply GetDerivative_live; [|apply Hst|]]); [done|].
  cbn [GetDerivative]. unfold GetDerivative_body. destruct (seen_ st !! e); [done|].
  apply bind_defined; [unfold run_pure, ComputeUses.uses; by destruct (_ !! e)|].
  intros us st0 Hus. apply run_pure_Ok in Hus as [Hus ->].
  assert (∀ use, use ∈ us → use ∈ recorded u e) as Hrec.
  { intros use Hin. unfold ComputeUses.uses in Hus. unfold recorded.
    destruct (ComputeUses.uses_ u !! e); [|done]. by injection Hus as ->. }
  destruct (accumulate_safe _ e IH us None st Hrec Hst ltac:(done)) as [Hdef Hpost].
  apply bind_defined; [done|]. intros total st1 Hacc.
  destruct (Hpost _ _ Hacc) as (Hl1 & Hp1 & Htotal).
  apply bind_defined.
  - apply on_heap_defined, finish_total_defined. intros t ->. split; [by apply Htotal|].
    destruct us as [|use us]; [by injection Hacc|].
    pose proof (recorded_target e use (Hrec use ltac:(by left))) as He.
    destruct Hst as [Hpre _]. apply prefix_length in Hpre, Hp1. lia.
  - intros r st2 _. apply bind_defined; [|done]. unfold emplace. by destruct (seen_ st2 !! e).
Qed.

Lemma derivatives_defined fuel ws : ∀ st, grown st → defined (derivatives u fuel ws st).
Proof.
  induction ws as [|w ws IH]; intros st Hst; cbn [derivatives]; [done|].
  destruct (GetDerivative_safe fuel w st Hst) as [Hdef Hpost].
  apply bind_defined; [done|]. intros d st1 HG.
  apply bind_defined; [|done]. apply IH. eapply after_grown; [done|by apply Hpost].
Qed.

End PropagatorSafety.

Section SafetyTheorems.
Context `{ShapeInference} `{DerivRegistry}.

Lemma registry_sound_wrapped (h : Heap) (c : ContractionExpr) (sh : LogicalShape) :
  registry_sound h → registry_sound (h ++ [{| node := Contraction c; shape := sh |}]).
Proof.
  intros [Hres Hrule]. split; [done|]. intros d op x c' dout h' Hr Hop Hx Hpre Hd.
  apply lookup_app_Some in Hop as [Hop | [_ Hop]].
  - eapply Hrule; [done|done|done| |done]. etrans; [by apply prefix_app_r|done].
  - apply list_lookup_singleton_Some in Hop as [_ <-]. cbn in Hx. done.
Qed.

(** X17: [ContractionOp] has no undefined behaviour on a use that
    [ComputeUses] has recorded.  In a heap that extends a closed heap [h],
    for the gradient [dout] of a contraction [c] of [h] and a use
    [(expr, idx)] recorded for it by the traversal of [h], no vector is
    indexed out of range and no null pointer is dereferenced, provided
    shape inference is defined on operands of the heap: the position is
    an input of [c] or, when [c] has a default, the one after the last
    input, and every input has a tensor. *)
Theorem ContractionOp_defined (h h0 : Heap) (src : ExprPtr) (u : ComputeUses.t)
    (t0 dout : ExprPtr) (use : UseInfo) (x : Expr) (c : ContractionExpr) :
  shapes_defined → closed h → ComputeUses.make h src = Ok u →
  use ∈ recorded u t0 → h !! expr use = Some x → node x = Contraction c →
  h `prefix_of` h0 → dout < length h0 →
  defined (ContractionOp dout (expr use) c (idx use) h0).
Proof.
  intros Hshapes Hclosed Hmake Hin Hx Hn Hpre Hdout.
  destruct (recorded_slot _ _ _ _ _ Hmake Hin) as (x' & Hx' & Hslot).
  assert (x' = x) as -> by congruence. rewrite Hn in Hslot.
  apply prefix_length in Hpre as Hlen. apply lookup_lt_Some in Hx as Hp.
  apply ContractionOp_slot_defined; [done| | |done|lia].
  - destruct Hslot as [[_ Hlt] | [Hi Hdefault]]; [by left|right].
    split; [done|by rewrite Hdefault].
  - intros input Hinput.
    destruct (closed_lookup h Hclosed (expr use) x Hx (ref input)) as (r & Hr & Hlt).
    { rewrite Hn. cbn. apply elem_of_app. left. by apply list_elem_of_fmap_2. }
    exists r. split; [done|lia].
Qed.

(** X18: [CallOp] has no undefined behaviour on a use that [ComputeUses]
    has recorded.  For a call [c] of [h] and a use [(expr, idx)] recorded
    for it, in a heap that extends [h] and holds the gradient [dout]:
    when the rule of [c] gives one gradient per argument, [idx] selects
    one of them, so [CallOp] never indexes [deriv(...)] out of range; what
    it returns is an expression of the heap it leaves. *)
Theorem CallOp_selects (h h0 : Heap) (src : ExprPtr) (u : ComputeUses.t)
    (t0 dout : ExprPtr) (use : UseInfo) (x : Expr) (c : CallExpr) :
  registry_sound h → ComputeUses.make h src = Ok u →
  use ∈ recorded u t0 → h !! expr use = Some x → node x = Call c →
  h `prefix_of` h0 → dout < length h0 →
  defined (CallOp dout (expr use) c (idx use) h0) ∧
  ∀ g h', CallOp dout (expr use) c (idx use) h0 = Ok (g, h') → g < length h'.
Proof.
  intros Hsound Hmake Hin Hx Hn Hpre Hdout.
  destruct (recorded_slot _ _ _ _ _ Hmake Hin) as (x' & Hx' & Hslot).
  assert (x' = x) as -> by congruence. rewrite Hn in Hslot.
  eapply CallOp_defined; [done|done|done|done|done|by eapply lookup_lt_Some].
Qed.

(** X19: [ComputeGradients] has no undefined behaviour.  On a closed heap
    that holds [loss], with a shape inference that is defined on operands
    of the heap and a registry whose rules only allocate and give, for
    each call of the heap, one gradient per argument, [ComputeGradients]
    returns, throws or runs out of budget, for every list of targets:
    it never indexes a vector out of range and never dereferences a null
    pointer or an expression that is not in the heap. *)
Theorem ComputeGradients_defined (fuel : nat) (wrts : list ExprPtr) (loss : ExprPtr)
    (h : Heap) :
  shapes_defined → registry_extends → registry_sound h →
  closed h → loss < length h →
  defined (ComputeGradients fuel wrts loss h).
Proof.
  intros Hshapes Hext Hsound Hclosed Hloss. unfold ComputeGradients.
  destruct (lookup_lt_is_Some_2 h loss Hloss) as [l Hl].
  pose proof (loss_value_spec h loss l Hl) as Hspec.
  apply bind_defined.
  { rewrite Hspec. case_decide; [done|]. apply finish_contraction_defined; [done|].
    intros input ->%list_elem_of_singleton. by exists loss. }
  intros value h1 Hvalue.
  destruct (loss_value_closed h h1 loss value Hclosed Hloss Hvalue) as (Hclosed1 & Hv & _).
  assert (registry_sound h1) as Hsound1.
  { rewrite Hspec in Hvalue. case_decide; [by injection Hvalue as _ <-|].
    unfold finish_contraction in Hvalue.
    apply bind_Ok in Hvalue as (sh & h2 & Hsh & Hm). apply run_pure_Ok in Hsh as [_ ->].
    injection Hm as _ <-. by apply registry_sound_wrapped. }
  destruct (Gradient_new_spec h1 value Hclosed1 Hv) as (u & Hnew & _). rewrite Hnew.
  assert (ComputeUses.make h1 value = Ok u) as Hmake.
  { unfold Gradient_new in Hnew. destruct (ComputeUses.make h1 value); try done.
    by injection Hnew as ->. }
  assert (grown h1 (seeded_state value h1)) as Hgrown.
  { split; [by apply prefix_app_r|]. intros e d. cbn.
    intros [[_ <-] | [_ Hd]]%lookup_insert_Some; [|done]. rewrite length_app. cbn. lia. }
  pose proof (derivatives_defined h1 value u Hclosed1 Hmake Hshapes Hext Hsound1 fuel wrts
                _ Hgrown) as Hdef.
  by destruct (derivatives u fuel wrts _) as [[ret st']| | |].
Qed.

End SafetyTheorems.

Section SafetyExamples.
Import Examples.

Lemma shapes_are_defined : shapes_defined.
Proof.
  split; [|done]. intros h c Hargs. cbn. destruct (args c) as [|a ?]; [done|].
  by destruct (lookup_lt_is_Some_2 h a (Hargs a ltac:(by left))) as [e ->].
Qed.

Lemma registry_is_sound : registry_sound add_x_x.
Proof.
  split; [intros f; cbn; by destruct (decide (f = "add"))|].
  intros d op x c dout h' Hres Hop Hx Hpre Hdout. cbn in Hres.
  destruct (decide (fn c = "add")); [|done]. injection Hres as <-. cbn.
  destruct op as [|[|[|op]]]; [by injection Hop as <-| |by injection Hop as <-|done].
  injection Hop as <-. injection Hx as <-. split; [done|].
  by intros g [-> | ->%list_elem_of_singleton]%elem_of_cons.
Qed.

Lemma product_uses :
  ComputeUses.make (graph (binary AggregationOp.SUM CombinationOp.MULTIPLY)) 2
  = Ok (uses_of (graph (binary AggregationOp.SUM CombinationOp.MULTIPLY)) 2).
Proof. vm_compute. reflexivity. Defined.

Lemma ContractionOp_defined_witness :
  defined (ContractionOp 3 2 (binary AggregationOp.SUM CombinationOp.MULTIPLY) 0
             (seeded (binary AggregationOp.SUM CombinationOp.MULTIPLY))).
Proof.
  refine (ContractionOp_defined (graph (binary AggregationOp.SUM CombinationOp.MULTIPLY))
            (seeded (binary AggregationOp.SUM CombinationOp.MULTIPLY)) 2
            (uses_of (graph (binary AggregationOp.SUM CombinationOp.MULTIPLY)) 2)
            0 3 {| expr := 2; idx := 0 |}
            (scalar (Contraction (binary AggregationOp.SUM CombinationOp.MULTIPLY)))
            (binary AggregationOp.SUM CombinationOp.MULTIPLY)
            shapes_are_defined _ product_uses _ _ _ _ _).
  - reflexivity.
  - vm_compute. by left.
  - reflexivity.
  - reflexivity.
  - by apply prefix_app_r.
  - cbn. lia.
Defined.

Lemma CallOp_selects_witness :
  defined (CallOp 3 1 {| fn := "add"; args := [0; 0] |} 1 (add_x_x ++ [one])) ∧
  ∀ g h', CallOp 3 1 {| fn := "add"; args := [0; 0] |} 1 (add_x_x ++ [one]) = Ok (g, h') →
          g < length h'.
Proof.
  refine (CallOp_selects add_x_x (add_x_x ++ [one]) 1 (uses_of add_x_x 1) 0 3
            {| expr := 1; idx := 1 |} (scalar (Call {| fn := "add"; args := [0; 0] |}))
            {| fn := "add"; args := [0; 0] |} registry_is_sound add_x_x_uses _ _ _ _ _).
  - rewrite add_x_x_recorded. right. by left.
  - reflexivity.
  - reflexivity.
  - by apply prefix_app_r.
  - cbn. lia.
Defined.

Lemma ComputeGradients_defined_witness : defined (ComputeGradients 3 [0; 2] 1 add_x_x).
Proof.
  apply ComputeGradients_defined;
    [apply shapes_are_defined | apply registry_only_allocates | apply registry_is_sound
    | reflexivity | cbn; lia].
Defined.

End SafetyExamples.
